(** * confit: views over prioritised configuration sources

    A shallow embedding of [confit.py] (the view resolution engine, the
    transient overlay, the conversion helpers and the file reader of
    [Configuration]) together with the properties its specification states.

    Conventions of the embedding.
    - Configuration data are the trees a YAML document produces: [None],
      booleans, numbers (the integers), strings, lists and dicts.  Dicts are
      association lists in insertion order, as Python dicts are.  Subscript
      keys are integers or strings.
    - The interpreter is the Python 3 one ([PY3] is true, [STRING] is [str]);
      strings are sequences of code units.
    - A generator is represented by its trace: the values it yields, in order,
      ended by exhaustion or by the exception that escapes from it.  A consumer
      that stops early (such as [iter_first]) never sees the rest of the trace.
    - In the first part the overlay is a tree that only the root view owns;
      the Python references into it are paths from its root, and mutating a
      node is an update of the tree at that path.  A value assigned through a
      view is taken for what it holds, so this part says what a configuration
      does as long as no dict or list is held in two places.
    - The module [Heap] is the embedding with objects: dicts and lists have an
      identity, an assignment stores the reference it is given, and a
      generator runs when it is consumed.  What depends on objects being shared
      or on the time a generator runs is stated there. *)

From Stdlib Require Import ZArith String Ascii List Bool Lia.
From stdpp Require Import base decidable countable list strings gmap pretty.

Local Set Warnings "-register-all".
Local Open Scope string_scope.
Local Open Scope Z_scope.

(** ** Python values *)

Inductive key :=
| KInt (z : Z)
| KStr (s : string).

Inductive value :=
| VNone
| VBool (b : bool)
| VInt (z : Z)
| VStr (s : string)
| VList (l : list value)
| VDict (d : list (key * value)).

Global Instance key_eq_dec : EqDecision key.
Proof. solve_decision. Defined.

Definition key_to_sum (k : key) : Z + string :=
  match k with KInt z => inl z | KStr s => inr s end.

Definition key_of_sum (x : Z + string) : key :=
  match x with inl z => KInt z | inr s => KStr s end.

Global Instance key_countable : Countable key.
Proof.
  apply (inj_countable' key_to_sum key_of_sum).
  intros []; reflexivity.
Defined.

Definition key_to_value (k : key) : value :=
  match k with KInt z => VInt z | KStr s => VStr s end.

(** The builtin exceptions that container operations raise. *)
Inductive pyerr := KeyError | IndexError | TypeError.

(** What made a file unreadable: the exception caught in [_read]. *)
Inductive cause :=
| IOError (msg : string)
| YAMLError (msg : string).

(** The exceptions of the module, and the builtin ones that escape from it.
    [ValueError] is what [iter_first] raises on an exhausted iterator. *)
Inductive exn :=
| Builtin (e : pyerr)
| ValueError
| NotFoundError (msg : string)
| ConfigTypeError (msg : string)
| ConfigValueError (msg : string)
| ConfigReadError (filename : string) (reason : cause) (msg : string).

Inductive result (E A : Type) :=
| Ok (a : A)
| Err (e : E).
Arguments Ok {E A} a.
Arguments Err {E A} e.

(** What opening and parsing a file raises: an exception of one of the two
    classes the [except] clause of [_read] names, or any other exception
    (Python 3 raises [UnicodeDecodeError], a [ValueError], out of
    [yaml.load(f)] when the file cannot be decoded), which that clause does
    not catch. *)
Inductive failure :=
| Caught (reason : cause)
| Uncaught (e : exn).

Definition rbind {E A B} (r : result E A) (f : A -> result E B) : result E B :=
  match r with Ok a => f a | Err e => Err e end.

(** The classes of the values, with [object] above them all. *)
Inductive pytype := TObject | TNoneType | TBool | TInt | TStr | TList | TDict.

Global Instance pytype_eq_dec : EqDecision pytype.
Proof. solve_decision. Defined.

Definition type_of (v : value) : pytype :=
  match v with
  | VNone => TNoneType
  | VBool _ => TBool
  | VInt _ => TInt
  | VStr _ => TStr
  | VList _ => TList
  | VDict _ => TDict
  end.

Definition type_name (t : pytype) : string :=
  match t with
  | TObject => "object"
  | TNoneType => "NoneType"
  | TBool => "bool"
  | TInt => "int"
  | TStr => "str"
  | TList => "list"
  | TDict => "dict"
  end.

(** [str(T)] for a class [T]. *)
Definition str_of_type (t : pytype) : string :=
  "<class '" ++ type_name t ++ "'>".

(** [isinstance(v, T)]; [bool] is a subclass of [int]. *)
Definition isinstance (v : value) (t : pytype) : bool :=
  match t with
  | TObject => true
  | TInt => bool_decide (type_of v = TInt) || bool_decide (type_of v = TBool)
  | _ => bool_decide (type_of v = t)
  end.

(** ** Container operations *)

Fixpoint dict_get (d : list (key * value)) (k : key) : option value :=
  match d with
  | [] => None
  | (k', v) :: d' => if decide (k' = k) then Some v else dict_get d' k
  end.

(** [d[k] = x]: an existing entry keeps its place, a new one goes last. *)
Fixpoint dict_set (d : list (key * value)) (k : key) (x : value)
  : list (key * value) :=
  match d with
  | [] => [(k, x)]
  | (k', v) :: d' =>
      if decide (k' = k) then (k', x) :: d' else (k', v) :: dict_set d' k x
  end.

Definition dict_keys (d : list (key * value)) : list key := map fst d.

(** The position a sequence of length [n] is read at for the index [i]:
    negative indices count from the end. *)
Definition norm_index (n : nat) (i : Z) : option nat :=
  let j := if i <? 0 then i + Z.of_nat n else i in
  if (0 <=? j) && (j <? Z.of_nat n) then Some (Z.to_nat j) else None.

Fixpoint string_nth (s : string) (n : nat) : option ascii :=
  match s, n with
  | EmptyString, _ => None
  | String c _, O => Some c
  | String _ s', S n' => string_nth s' n'
  end.

(** [collection[key]]. *)
Definition subscript (c : value) (k : key) : result pyerr value :=
  match c with
  | VDict d =>
      match dict_get d k with
      | Some v => Ok v
      | None => Err KeyError
      end
  | VList l =>
      match k with
      | KInt i =>
          match norm_index (length l) i with
          | Some n =>
              match l !! n with Some v => Ok v | None => Err IndexError end
          | None => Err IndexError
          end
      | KStr _ => Err TypeError
      end
  | VStr s =>
      match k with
      | KInt i =>
          match norm_index (String.length s) i with
          | Some n =>
              match string_nth s n with
              | Some ch => Ok (VStr (String ch EmptyString))
              | None => Err IndexError
              end
          | None => Err IndexError
          end
      | KStr _ => Err TypeError
      end
  | VNone | VBool _ | VInt _ => Err TypeError
  end.

(** [collection[key] = x], giving the collection after the assignment. *)
Definition store (c : value) (k : key) (x : value) : result pyerr value :=
  match c with
  | VDict d => Ok (VDict (dict_set d k x))
  | VList l =>
      match k with
      | KInt i =>
          match norm_index (length l) i with
          | Some n => Ok (VList (<[n := x]> l))
          | None => Err IndexError
          end
      | KStr _ => Err TypeError
      end
  | VNone | VBool _ | VInt _ | VStr _ => Err TypeError
  end.

(** [a == b]. *)
Fixpoint py_eq (a b : value) : bool :=
  match a, b with
  | VNone, VNone => true
  | VBool x, VBool y => Bool.eqb x y
  | VBool x, VInt z => Z.b2z x =? z
  | VInt z, VBool x => z =? Z.b2z x
  | VInt x, VInt y => x =? y
  | VStr s, VStr t => String.eqb s t
  | VList xs, VList ys =>
      (fix go (xs ys : list value) : bool :=
         match xs, ys with
         | [], [] => true
         | x :: xs', y :: ys' => py_eq x y && go xs' ys'
         | _, _ => false
         end) xs ys
  | VDict d1, VDict d2 =>
      (length d1 =? length d2)%nat &&
      (fix go (d : list (key * value)) : bool :=
         match d with
         | [] => true
         | (k, v) :: d' =>
             match dict_get d2 k with
             | Some v' => py_eq v v'
             | None => false
             end && go d'
         end) d1
  | _, _ => false
  end.

Fixpoint is_substring (t s : string) : bool :=
  String.prefix t s ||
  match s with
  | EmptyString => false
  | String _ s' => is_substring t s'
  end.

(** The dict key a hashable value stands for, when the model has one. *)
Definition hash_key (x : value) : result pyerr (option key) :=
  match x with
  | VNone => Ok None
  | VBool b => Ok (Some (KInt (Z.b2z b)))
  | VInt z => Ok (Some (KInt z))
  | VStr s => Ok (Some (KStr s))
  | VList _ | VDict _ => Err TypeError
  end.

(** [x in collection]. *)
Definition value_in (x : value) (c : value) : result pyerr bool :=
  match c with
  | VDict d =>
      match hash_key x with
      | Ok (Some k) => Ok (bool_decide (is_Some (dict_get d k)))
      | Ok None => Ok false
      | Err e => Err e
      end
  | VList l => Ok (existsb (py_eq x) l)
  | VStr s =>
      match x with
      | VStr t => Ok (is_substring t s)
      | _ => Err TypeError
      end
  | VNone | VBool _ | VInt _ => Err TypeError
  end.

Definition contains (c : value) (k : key) : result pyerr bool :=
  value_in (key_to_value k) c.

(** ** [repr] *)

Definition hex_digit (n : N) : ascii :=
  match n with
  | 0%N => "0" | 1%N => "1" | 2%N => "2" | 3%N => "3" | 4%N => "4"
  | 5%N => "5" | 6%N => "6" | 7%N => "7" | 8%N => "8" | 9%N => "9"
  | 10%N => "a" | 11%N => "b" | 12%N => "c" | 13%N => "d" | 14%N => "e"
  | _ => "f"
  end%char.

Definition str1 (c : ascii) : string := String c EmptyString.

(** The text [repr] writes for one character inside the quotes [q]: the
    quote and the backslash are escaped, and so is every code point that is
    not printable (the control characters, [0x7f] to [0xa0], and [0xad]). *)
Definition repr_char (q c : ascii) : string :=
  let n := N_of_ascii c in
  if (Ascii.eqb c q || Ascii.eqb c "\")%char then String "\" (str1 c)
  else if (n =? 9)%N then "\t"
  else if (n =? 10)%N then "\n"
  else if (n =? 13)%N then "\r"
  else if ((n <? 32) || ((127 <=? n) && (n <=? 160)) || (n =? 173))%N then
    "\x" ++ str1 (hex_digit (n / 16)) ++ str1 (hex_digit (n mod 16))
  else str1 c.

Fixpoint string_mem (c : ascii) (s : string) : bool :=
  match s with
  | EmptyString => false
  | String c' s' => Ascii.eqb c c' || string_mem c s'
  end.

Fixpoint repr_chars (q : ascii) (s : string) : string :=
  match s with
  | EmptyString => EmptyString
  | String c s' => repr_char q c ++ repr_chars q s'
  end.

(** The double quote. *)
Definition dquote : ascii := ascii_of_nat 34.

(** Single quotes, unless the string has one and has no double quote. *)
Definition repr_str (s : string) : string :=
  let q := if string_mem "'" s && negb (string_mem dquote s)
           then dquote else "'"%char in
  str1 q ++ repr_chars q s ++ str1 q.

Definition repr_key (k : key) : string :=
  match k with
  | KInt z => pretty z
  | KStr s => repr_str s
  end.

Fixpoint join (sep : string) (l : list string) : string :=
  match l with
  | [] => ""
  | [x] => x
  | x :: l' => x ++ sep ++ join sep l'
  end.

Fixpoint repr (v : value) : string :=
  match v with
  | VNone => "None"
  | VBool true => "True"
  | VBool false => "False"
  | VInt z => pretty z
  | VStr s => repr_str s
  | VList l => "[" ++ join ", " (map repr l) ++ "]"
  | VDict d =>
      "{" ++ join ", " (map (fun kv => repr_key (fst kv) ++ ": " ++ repr (snd kv)) d)
          ++ "}"
  end.

(** ** Views *)

(** What a [RootView] holds: its sources, highest priority first, and the
    transient overlay. *)
Record state := State {
  sources : list value;
  overlay : value;
}.

(** [RootView.__init__]. *)
Definition RootView_init (srcs : list value) : state :=
  {| sources := srcs; overlay := VDict [] |}.

(** [RootView.add]: the new source has the lowest priority. *)
Definition add (st : state) (obj : value) : state :=
  {| sources := (sources st ++ [obj])%list; overlay := overlay st |}.

(** A view is its path: the root, or a subscript of a parent view. *)
Inductive view :=
| Root
| Sub (parent : view) (k : key).

Fixpoint name (v : view) : string :=
  match v with
  | Root => "root"
  | Sub p k => name p ++ "[" ++ repr_key k ++ "]"
  end.

(** The keys from the root down to the view. *)
Fixpoint path (v : view) : list key :=
  match v with
  | Root => []
  | Sub p k => (path p ++ [k])%list
  end.

(** The run of a generator. *)
Inductive trace :=
| Stop
| Yield (v : value) (rest : trace)
| Raise (e : exn).

(** Iterating over a list. *)
Fixpoint iter (l : list value) : trace :=
  match l with
  | [] => Stop
  | v :: l' => Yield v (iter l')
  end.

(** The values a run yields before it ends. *)
Fixpoint yielded (t : trace) : list value :=
  match t with
  | Yield v rest => v :: yielded rest
  | Stop | Raise _ => []
  end.

(** How a run ends: [None] for exhaustion. *)
Fixpoint raised (t : trace) : option exn :=
  match t with
  | Yield _ rest => raised rest
  | Stop => None
  | Raise e => Some e
  end.

Definition iter_first (t : trace) : result exn value :=
  match t with
  | Yield v _ => Ok v
  | Stop => Err ValueError
  | Raise e => Err e
  end.

(** The body of [Subview.get_all], run over the parent's candidates. *)
Fixpoint Subview_get_all (parent_name : string) (k : key) (parent_all : trace)
  : trace :=
  match parent_all with
  | Stop => Stop
  | Raise e => Raise e
  | Yield collection rest =>
      match subscript collection k with
      | Ok v => Yield v (Subview_get_all parent_name k rest)
      | Err IndexError => Subview_get_all parent_name k rest
      | Err KeyError => Subview_get_all parent_name k rest
      | Err TypeError =>
          Raise (ConfigTypeError
                   (parent_name ++ " must be a collection, not "
                      ++ str_of_type (type_of collection)))
      end
  end.

Fixpoint get_all (st : state) (v : view) : trace :=
  match v with
  | Root => iter (overlay st :: sources st)
  | Sub p k => Subview_get_all (name p) k (get_all st p)
  end.

(** The argument of [get]: nothing, a class, or a callable that takes the
    view and the value. *)
Inductive conversion :=
| NoConversion
| OfType (t : pytype)
| Callable (f : view -> value -> result exn value).

(** [except ValueError] also catches the subclasses of [ValueError]. *)
Definition is_ValueError (e : exn) : bool :=
  match e with
  | ValueError | ConfigValueError _ => true
  | _ => false
  end.

Definition get (st : state) (v : view) (typ : conversion) : result exn value :=
  match iter_first (get_all st v) with
  | Err e =>
      if is_ValueError e then Err (NotFoundError (name v ++ " not found"))
      else Err e
  | Ok val =>
      match typ with
      | OfType t =>
          if isinstance val t then Ok val
          else Err (ConfigTypeError
                      (name v ++ " must by of type " ++ str_of_type t
                         ++ ", not " ++ str_of_type (type_of val)))
      | Callable f => f v val
      | NoConversion => Ok val
      end
  end.

(** [ConfigView.keys]: the set of the keys of all the dicts at the view. *)
Fixpoint keys_loop (vname : string) (t : trace) (keys : gset key)
  : result exn (gset key) :=
  match t with
  | Stop => Ok keys
  | Raise e => Err e
  | Yield dic rest =>
      match dic with
      | VDict d => keys_loop vname rest (keys ∪ list_to_set (dict_keys d))
      | _ =>
          Err (ConfigTypeError
                 (vname ++ " must be a dict, not " ++ str_of_type (type_of dic)))
      end
  end.

Definition keys (st : state) (v : view) : result exn (gset key) :=
  keys_loop (name v) (get_all st v) ∅.

(** ** The overlay *)

(** Code that runs against the overlay: it may change it, and may raise
    after having changed it. *)
Definition M (A : Type) : Type := value -> result exn A * value.

Definition ret {A} (a : A) : M A := fun o => (Ok a, o).

Definition bind {A B} (m : M A) (f : A -> M B) : M B :=
  fun o => match m o with
           | (Ok a, o') => f a o'
           | (Err e, o') => (Err e, o')
           end.

Notation "x <- m ;; k" := (bind m (fun x => k))
  (at level 100, m at next level, right associativity).

(** The node of the tree [o] a reference designates. *)
Fixpoint node_at (o : value) (p : list key) : result pyerr value :=
  match p with
  | [] => Ok o
  | k :: p' => rbind (subscript o k) (fun c => node_at c p')
  end.

(** The tree after [f] has mutated, in place, the node at [p].  The node is
    shared with its parent, which therefore holds the mutated node; a parent
    that was subscripted and whose child was mutated is a dict or a list, so
    putting the child back never raises. *)
Fixpoint update_at (o : value) (p : list key)
    (f : value -> result pyerr value) : result pyerr value :=
  match p with
  | [] => f o
  | k :: p' =>
      rbind (subscript o k) (fun c =>
      rbind (update_at c p' f) (fun c' => store o k c'))
  end.

Definition lift_py {A} (r : result pyerr A) : result exn A :=
  match r with Ok a => Ok a | Err e => Err (Builtin e) end.

(** [key in node], [node[key] = x] and [node[key]] through a reference. *)
Definition contains_at (p : list key) (k : key) : M bool :=
  fun o => (lift_py (rbind (node_at o p) (fun n => contains n k)), o).

Definition store_at (p : list key) (k : key) (x : value) : M unit :=
  fun o => match update_at o p (fun n => store n k x) with
           | Ok o' => (Ok tt, o')
           | Err e => (Err (Builtin e), o)
           end.

Definition subscript_at (p : list key) (k : key) : M (list key) :=
  fun o => (lift_py (rbind (node_at o p) (fun n =>
                     rbind (subscript n k) (fun _ => Ok (p ++ [k])%list))), o).

(** The [overlay] attribute: the dict of the root, and the property of
    [Subview] that creates the node on demand. *)
Fixpoint overlay_of (v : view) : M (list key) :=
  match v with
  | Root => ret []
  | Sub parent k =>
      parent_overlay <- overlay_of parent ;;
      present <- contains_at parent_overlay k ;;
      _ <- (if negb present then store_at parent_overlay k (VDict [])
            else ret tt) ;;
      subscript_at parent_overlay k
  end.

(** [ConfigView.__setitem__], for a value that is held nowhere else: the
    tree [x] is put into the tree of the overlay.  [Heap.__setitem__] stores
    the reference, as the interpreter does. *)
Definition __setitem__ (st : state) (v : view) (k : key) (x : value)
  : result exn unit * state :=
  let '(r, o) := (node <- overlay_of v ;; store_at node k x) (overlay st) in
  (r, {| sources := sources st; overlay := o |}).

(** ** Resolution order *)

(** A run, from what it yields and how it ends. *)
Fixpoint finish (l : list value) (e : option exn) : trace :=
  match l with
  | v :: l' => Yield v (finish l' e)
  | [] => match e with Some x => Raise x | None => Stop end
  end.

(** [c[k]] when the candidate has it. *)
Definition item (k : key) (c : value) : option value :=
  match subscript c k with Ok v => Some v | Err _ => None end.

Definition not_subscriptable (k : key) (c : value) : bool :=
  match subscript c k with Err TypeError => true | _ => false end.

(** The candidates that come before the first one [k] cannot subscript. *)
Fixpoint before_type_error (k : key) (cs : list value) : list value :=
  match cs with
  | [] => []
  | c :: cs' =>
      if not_subscriptable k c then [] else c :: before_type_error k cs'
  end.

Fixpoint first_type_error (k : key) (cs : list value) : option value :=
  match cs with
  | [] => None
  | c :: cs' =>
      if not_subscriptable k c then Some c else first_type_error k cs'
  end.

Definition not_a_collection (parent_name : string) (c : value) : exn :=
  ConfigTypeError
    (parent_name ++ " must be a collection, not " ++ str_of_type (type_of c)).

(** The value a source has at a path, when it has one. *)
Definition descend (p : list key) (c : value) : option value :=
  match node_at c p with Ok v => Some v | Err _ => None end.

Definition malformed (p : list key) (c : value) : bool :=
  match node_at c p with Err TypeError => true | _ => false end.

Fixpoint before_malformed (p : list key) (cs : list value) : list value :=
  match cs with
  | [] => []
  | c :: cs' => if malformed p c then [] else c :: before_malformed p cs'
  end.

(** ** Validation and conversion helpers *)

(** [list(choices)]. *)
Definition to_list (c : value) : list value :=
  match c with
  | VList l => l
  | VDict d => map key_to_value (dict_keys d)
  | VStr s => map (fun ch => VStr (str1 ch)) (list_ascii_of_string s)
  | VNone | VBool _ | VInt _ => []
  end.

(** [as_choice(choices)], the function it returns. *)
Definition as_choice (choices : value) (v : view) (val : value)
  : result exn value :=
  match value_in val choices with
  | Err e => Err (Builtin e)
  | Ok false =>
      Err (ConfigValueError
             (name v ++ " must be one of " ++ repr val ++ ", not "
                ++ repr (VList (to_list choices))))
  | Ok true => Ok val
  end.

(** What [os] and [os.path] answer from outside the program: the working
    directory, [HOME], the password database, and the symbolic links. *)
Record os := Os {
  getcwd : string;
  environ_HOME : option string;
  pw_dir_self : string;
  pw_dir : string -> option string;
  readlink : string -> option string;
}.

(** [s.startswith('/')]. *)
Definition isabs (s : string) : bool :=
  match s with
  | String c _ => Ascii.eqb c "/"
  | EmptyString => false
  end.

Fixpoint split_on (c : ascii) (s : string) : list string :=
  match s with
  | EmptyString => [EmptyString]
  | String a s' =>
      if Ascii.eqb a c then EmptyString :: split_on c s'
      else match split_on c s' with
           | h :: t => String a h :: t
           | [] => [str1 a]
           end
  end.

Fixpoint ends_with_slash (s : string) : bool :=
  match s with
  | EmptyString => false
  | String a EmptyString => Ascii.eqb a "/"
  | String _ s' => ends_with_slash s'
  end.

(** [posixpath.join(a, p)]. *)
Definition path_join (a p : string) : string :=
  if isabs p then p
  else if String.eqb a "" || ends_with_slash a then a ++ p
  else a ++ "/" ++ p.

Fixpoint repeat_slash (n : nat) : string :=
  match n with
  | O => EmptyString
  | S n' => String "/" (repeat_slash n')
  end.

(** One round of the loop of [posixpath.normpath]. *)
Definition normpath_step (initial_slashes : nat) (new_comps : list string)
    (comp : string) : list string :=
  if String.eqb comp "" || String.eqb comp "." then new_comps
  else if negb (String.eqb comp "..")
          || ((initial_slashes =? 0)%nat && bool_decide (new_comps = []))
          || bool_decide (last new_comps = Some "..")
  then (new_comps ++ [comp])%list
  else removelast new_comps.

Definition or_else (s d : string) : string :=
  if String.eqb s "" then d else s.

Definition normpath (p : string) : string :=
  if String.eqb p "" then "."
  else
    let initial_slashes :=
      if isabs p then
        if String.prefix "//" p && negb (String.prefix "///" p)
        then 2%nat else 1%nat
      else 0%nat in
    let comps := fold_left (normpath_step initial_slashes) (split_on "/" p) [] in
    or_else (repeat_slash initial_slashes ++ join "/" comps) ".".

Definition abspath (e : os) (p : string) : string :=
  normpath (if isabs p then p else path_join (getcwd e) p).

(** The text up to the first slash, and the text from that slash on. *)
Fixpoint break_slash (s : string) : string * string :=
  match s with
  | EmptyString => (EmptyString, EmptyString)
  | String a s' =>
      if Ascii.eqb a "/" then (EmptyString, s)
      else let '(h, t) := break_slash s' in (String a h, t)
  end.

Fixpoint rstrip_slash (s : string) : string :=
  match s with
  | EmptyString => EmptyString
  | String a s' =>
      match rstrip_slash s' with
      | EmptyString => if Ascii.eqb a "/" then EmptyString else str1 a
      | r => String a r
      end
  end.

(** [posixpath.expanduser]. *)
Definition expanduser (e : os) (p : string) : string :=
  match p with
  | String "~" rest =>
      let '(user, tail) := break_slash rest in
      let userhome :=
        if String.eqb user "" then
          Some (match environ_HOME e with
                | Some h => h
                | None => pw_dir_self e
                end)
        else pw_dir e user in
      match userhome with
      | None => p
      | Some h => or_else (rstrip_slash h ++ tail) "/"
      end
  | _ => p
  end.

(** The home directory [~] stands for. *)
Definition home (e : os) : string :=
  match environ_HOME e with Some h => h | None => pw_dir_self e end.

(** [STRING(value)]. *)
Definition str_of_value (v : value) : string :=
  match v with
  | VStr s => s
  | _ => repr v
  end.

Definition as_filename (e : os) (v : view) (val : value) : result exn value :=
  let val := str_of_value val in
  Ok (VStr (abspath e (expanduser e val))).

(** The canonical path of a file: [os.path.realpath], which follows the
    symbolic links.  [as_filename] does not call it; it is what the
    specification compares the result of [as_filename] with.  The resolved
    part is kept as its components; [fuel] bounds the number of steps. *)
Definition of_comps (comps : list string) : string := "/" ++ join "/" comps.

Fixpoint joinrealpath (fuel : nat) (e : os) (resolved rest : list string)
  : list string :=
  match fuel with
  | O => (resolved ++ rest)%list
  | S fuel' =>
      match rest with
      | [] => resolved
      | nm :: rest' =>
          if String.eqb nm "" || String.eqb nm "."
          then joinrealpath fuel' e resolved rest'
          else if String.eqb nm ".."
          then joinrealpath fuel' e (removelast resolved) rest'
          else
            let newpath := (resolved ++ [nm])%list in
            match readlink e (of_comps newpath) with
            | None => joinrealpath fuel' e newpath rest'
            | Some target =>
                joinrealpath fuel' e (if isabs target then [] else resolved)
                             (split_on "/" target ++ rest')%list
            end
      end
  end.

Definition realpath (e : os) (p : string) : string :=
  let a := if isabs p then p else path_join (getcwd e) p in
  of_comps (joinrealpath (String.length a * 40 + 40) e [] (split_on "/" a)).

(** The filename conversion as the specification words it. *)
Definition spec_filename (e : os) (s : string) : string :=
  realpath e (expanduser e s).

(** ** Reading the configuration files *)

Definition CONFIG_FILENAME : string := "config.yaml".
Definition DEFAULT_FILENAME : string := "config_default.yaml".

(** What the file system answers: the user configuration directories
    ([config_dirs()]), the directory of a package ([_package_path]), whether a
    path is a file, and what [open(filename, 'r')] followed by [yaml.load(f)]
    gives: the data, or the exception raised. *)
Record files := Files {
  config_dirs : list string;
  package_path : string -> option string;
  isfile : string -> bool;
  yaml_load : string -> result failure value;
}.

Definition _search_dirs (fs : files) (appname : string) : list string :=
  map (fun confdir => path_join confdir appname) (config_dirs fs).

Definition truthy (s : option string) : bool :=
  match s with
  | Some s => negb (String.eqb s "")
  | None => false
  end.

(** [Configuration._filenames]. *)
Definition _filenames (fs : files) (appname : string) (modname : option string)
  : list string :=
  let out := map (fun appdir => path_join appdir CONFIG_FILENAME)
                 (_search_dirs fs appname) in
  let out :=
    match modname with
    | Some m =>
        if truthy modname then
          match package_path fs m with
          | Some pkg_path =>
              if truthy (Some pkg_path)
              then (out ++ [path_join pkg_path DEFAULT_FILENAME])%list
              else out
          | None => out
          end
        else out
    | None => out
    end in
  filter (fun p => isfile fs p = true) out.

Definition str_of_cause (c : cause) : string :=
  match c with IOError m | YAMLError m => m end.

(** [ConfigReadError(filename, reason)]. *)
Definition read_error (filename : string) (reason : cause) : exn :=
  ConfigReadError filename reason
    ("file " ++ filename ++ " could not be read" ++ ": " ++ str_of_cause reason).

(** The loop of [Configuration._read] over the files that remain. *)
Fixpoint read_loop (fs : files) (names : list string) (st : state)
  : result exn unit * state :=
  match names with
  | [] => (Ok tt, st)
  | filename :: names' =>
      match yaml_load fs filename with
      | Err (Caught exc) => (Err (read_error filename exc), st)
      | Err (Uncaught e) => (Err e, st)
      | Ok data => read_loop fs names' (add st data)
      end
  end.

Definition _read (fs : files) (appname : string) (modname : option string)
    (st : state) : result exn unit * state :=
  read_loop fs (_filenames fs appname modname)
            {| sources := []; overlay := overlay st |}.

(** [Configuration.__init__]: the object, unless reading raised. *)
Definition Configuration_init (fs : files) (appname : string)
    (modname : option string) (do_read : bool) : result exn state :=
  let st := RootView_init [] in
  if do_read then
    match _read fs appname modname st with
    | (Ok _, st') => Ok st'
    | (Err e, _) => Err e
    end
  else Ok st.

(** ** Writing into the overlay, as the specification words it *)

Definition is_dict (v : value) : bool :=
  match v with VDict _ => true | _ => false end.

(** Every node the overlay already has along the path is a mapping. *)
Fixpoint mapping_path (o : value) (p : list key) : bool :=
  match o with
  | VDict d =>
      match p with
      | [] => true
      | k :: p' =>
          match dict_get d k with
          | Some c => mapping_path c p'
          | None => true
          end
      end
  | _ => false
  end.


(** ** Absent keys and malformed sources *)

(** The source does not have the key: it is missing from a mapping, or it is
    an index out of the range of a sequence. *)
Definition key_absent (c : value) (k : key) : Prop :=
  match c, k with
  | VDict d, _ => dict_get d k = None
  | VList l, KInt i => norm_index (length l) i = None
  | VStr s, KInt i => norm_index (String.length s) i = None
  | _, _ => False
  end.

(** The value cannot be subscripted by the key at all. *)
Definition not_indexable (c : value) (k : key) : Prop :=
  subscript c k = Err TypeError.

(** [None], booleans and numbers. *)
Definition is_scalar (c : value) : bool :=
  match c with
  | VNone | VBool _ | VInt _ => true
  | VStr _ | VList _ | VDict _ => false
  end.

(** A run that yields the values of [l] and goes on as [t]. *)
Fixpoint prepend (l : list value) (t : trace) : trace :=
  match l with
  | [] => t
  | v :: l' => Yield v (prepend l' t)
  end.



(** ** The rest of the views *)

(** The run [t], continued by the run [u] once [t] is exhausted. *)
Fixpoint chain (t u : trace) : trace :=
  match t with
  | Stop => u
  | Yield v rest => Yield v (chain rest u)
  | Raise e => Raise e
  end.

(** The candidates of a view among the values [cs]: what [get_all] does with
    [[overlay] + sources]. *)
Fixpoint resolve (cs : list value) (v : view) : trace :=
  match v with
  | Root => iter cs
  | Sub p k => Subview_get_all (name p) k (resolve cs p)
  end.

(** The views above a view, nearest first. *)
Fixpoint ancestors (v : view) : list view :=
  match v with
  | Root => []
  | Sub p _ => p :: ancestors p
  end.

(** [ConfigView.items] and [ConfigView.values].  A set is iterated in an
    order of its own; the order of [elements] stands for it. *)
Definition items (st : state) (v : view) : result exn (list (key * view)) :=
  match keys st v with
  | Ok s => Ok (map (fun k => (k, Sub v k)) (elements s))
  | Err e => Err e
  end.

Definition values (st : state) (v : view) : result exn (list view) :=
  match keys st v with
  | Ok s => Ok (map (fun k => Sub v k) (elements s))
  | Err e => Err e
  end.




(** [Configuration.add_args]: [namespace] is the [__dict__] of the parsed
    arguments, option names with their values. *)
Definition arg_source (namespace : list (string * value))
  : list (key * value) :=
  fold_left (fun d kv =>
               match snd kv with
               | VNone => d
               | x => dict_set d (KStr (fst kv)) x
               end) namespace [].

Definition add_args (st : state) (namespace : list (string * value)) : state :=
  {| sources := VDict (arg_source namespace) :: sources st;
     overlay := overlay st |}.

(** ** Configuration directories *)

Module Platform.

(** What [platform.system()] answers. *)
Inductive system := Darwin | Windows | Other.

Definition UNIX_DIR_VAR : string := "XDG_DATA_HOME".
Definition UNIX_DIR_FALLBACK : string := "~/.config".
Definition WINDOWS_DIR_VAR : string := "APPDATA".
Definition WINDOWS_DIR_FALLBACK : string := "~\AppData\Roaming".
Definition MAC_DIR : string := "~/Library/Application Support".

Section ConfigDirs.

(** The platform, [os.environ], and the [abspath] and [expanduser] of
    the [os.path] of the platform. *)
Variable sys : system.
Variable environ : string -> option string.
Variables os_abspath os_expanduser : string -> string.

Definition paths : list string :=
  match sys with
  | Darwin => [MAC_DIR; UNIX_DIR_FALLBACK]
  | Windows =>
      match environ WINDOWS_DIR_VAR with
      | Some p => [p]
      | None => [WINDOWS_DIR_FALLBACK]
      end
  | Other =>
      match environ UNIX_DIR_VAR with
      | Some p => [p; UNIX_DIR_FALLBACK]
      | None => [UNIX_DIR_FALLBACK]
      end
  end.

(** One round of the loop that expands and deduplicates. *)
Definition expand_step (out : list string) (p : string) : list string :=
  let p := os_abspath (os_expanduser p) in
  if bool_decide (p ∈ out) then out else (out ++ [p])%list.

Definition config_dirs : list string := fold_left expand_step paths [].

End ConfigDirs.

End Platform.

(** The first directory that holds a configuration file. *)
Fixpoint existing_config (fs : files) (dirs : list string) : option string :=
  match dirs with
  | [] => None
  | appdir :: dirs' =>
      if isfile fs (path_join appdir CONFIG_FILENAME) then Some appdir
      else existing_config fs dirs'
  end.

(** [Configuration.config_dir]: the directory, and the directory
    [os.makedirs] was called on, if it was. *)
Definition config_dir (fs : files) (isdir : string -> bool) (appname : string)
  : result exn (string * option string) :=
  let dirs := _search_dirs fs appname in
  match existing_config fs dirs with
  | Some appdir => Ok (appdir, None)
  | None =>
      match dirs with
      | [] => Err (Builtin IndexError)
      | appdir :: _ =>
          Ok (appdir, if isdir appdir then None else Some appdir)
      end
  end.

(** A component of a normalised path: not empty, not [.] nor [..], and
    without a slash in it. *)
Definition plain (c : string) : bool :=
  negb (String.eqb c "") && negb (String.eqb c ".")
  && negb (String.eqb c "..") && negb (string_mem "/" c).

(** ** Objects with identity *)

(** The trees above take a value for what it holds.  A Python dict or list is
    an object: the overlay, a source and a value assigned through a view may be
    one and the same object, and what is written into it is seen wherever it
    is held.  [Heap] is the embedding that keeps the identity of objects.  A
    value is a scalar or a reference to an object of the store; the methods of
    the views run in a state monad over the store; [__setitem__] stores the
    reference it is given; and a generator is an object that runs when it is
    consumed, against the store as it is then. *)

Module Heap.

Definition loc := nat.

(** A value as the program holds it: [None], a boolean, a number, a string, or
    a reference to a dict or a list. *)
Inductive ref :=
| RNone
| RBool (b : bool)
| RInt (z : Z)
| RStr (s : string)
| RObj (l : loc).

(** A dict holds its entries in insertion order; both hold references. *)
Inductive obj :=
| ODict (d : list (key * ref))
| OList (l : list ref).

(** What a [RootView] holds, with the store: [sources] is the list
    [self.sources] (a list of the view's own, made by [list(sources)]),
    [overlay] the attribute [self.overlay], [objects] what each location holds,
    and [next] the first location that no object has been created at. *)
Record state := State {
  sources : list ref;
  overlay : ref;
  objects : loc -> obj;
  next : loc;
}.

Definition set_obj (h : loc -> obj) (l : loc) (o : obj) : loc -> obj :=
  fun l' => if decide (l' = l) then o else h l'.

(** *** Dicts, lists and strings *)

Fixpoint lookup_key (d : list (key * ref)) (k : key) : option ref :=
  match d with
  | [] => None
  | (k', v) :: d' => if decide (k' = k) then Some v else lookup_key d' k
  end.

(** [d[k] = x]: an existing entry keeps its place, a new one goes last. *)
Fixpoint set_key (d : list (key * ref)) (k : key) (x : ref)
  : list (key * ref) :=
  match d with
  | [] => [(k, x)]
  | (k', v) :: d' =>
      if decide (k' = k) then (k', x) :: d' else (k', v) :: set_key d' k x
  end.

(** [r == key], for a key that is a number or a string: no dict and no list
    is equal to one. *)
Definition eq_key (r : ref) (k : key) : bool :=
  match r, k with
  | RBool b, KInt i => Z.b2z b =? i
  | RInt z, KInt i => z =? i
  | RStr s, KStr t => String.eqb s t
  | _, _ => false
  end.

(** [o[k]], [k in o] and [o[k] = x] for an object. *)
Definition obj_subscript (o : obj) (k : key) : result pyerr ref :=
  match o with
  | ODict d =>
      match lookup_key d k with
      | Some v => Ok v
      | None => Err KeyError
      end
  | OList l =>
      match k with
      | KInt i =>
          match norm_index (length l) i with
          | Some n =>
              match l !! n with Some v => Ok v | None => Err IndexError end
          | None => Err IndexError
          end
      | KStr _ => Err TypeError
      end
  end.

Definition obj_contains (o : obj) (k : key) : bool :=
  match o with
  | ODict d => bool_decide (is_Some (lookup_key d k))
  | OList l => existsb (fun r => eq_key r k) l
  end.

Definition obj_store (o : obj) (k : key) (x : ref) : result pyerr obj :=
  match o with
  | ODict d => Ok (ODict (set_key d k x))
  | OList l =>
      match k with
      | KInt i =>
          match norm_index (length l) i with
          | Some n => Ok (OList (<[n := x]> l))
          | None => Err IndexError
          end
      | KStr _ => Err TypeError
      end
  end.

Definition str_subscript (s : string) (k : key) : result pyerr ref :=
  match k with
  | KInt i =>
      match norm_index (String.length s) i with
      | Some n =>
          match string_nth s n with
          | Some ch => Ok (RStr (String ch EmptyString))
          | None => Err IndexError
          end
      | None => Err IndexError
      end
  | KStr _ => Err TypeError
  end.

Definition str_contains (s : string) (k : key) : result pyerr bool :=
  match k with
  | KStr t => Ok (is_substring t s)
  | KInt _ => Err TypeError
  end.

Definition class_of (o : obj) : pytype :=
  match o with ODict _ => TDict | OList _ => TList end.

(** [issubclass(t', t)]; [bool] is a subclass of [int]. *)
Definition issubclass (t' t : pytype) : bool :=
  match t with
  | TObject => true
  | TInt => bool_decide (t' = TInt) || bool_decide (t' = TBool)
  | _ => bool_decide (t' = t)
  end.

(** *** Code that runs against the store *)

(** It may read the store, change it, and raise after having changed it. *)
Definition M (A : Type) : Type := state -> result exn A * state.

Definition ret {A} (a : A) : M A := fun st => (Ok a, st).

Definition raise {A} (e : exn) : M A := fun st => (Err e, st).

Definition bind {A B} (m : M A) (f : A -> M B) : M B :=
  fun st => match m st with
            | (Ok a, st') => f a st'
            | (Err e, st') => (Err e, st')
            end.

Notation "x <~ m ;; k" := (bind m (fun x => k))
  (at level 100, m at next level, right associativity).

(** [try: m] with the exception, if one is raised, handed to what follows. *)
Definition attempt {A} (m : M A) : M (result exn A) :=
  fun st => let '(r, st') := m st in (Ok r, st').

Definition py {A} (r : result pyerr A) : M A :=
  match r with Ok a => ret a | Err e => raise (Builtin e) end.

(** The object a reference designates. *)
Definition deref (l : loc) : M obj := fun st => (Ok (objects st l), st).

(** A write into the object at [l]. *)
Definition assign (l : loc) (o : obj) : M unit :=
  fun st => (Ok tt, {| sources := sources st; overlay := overlay st;
                       objects := set_obj (objects st) l o;
                       next := next st |}).

(** The dict display [{}]: a new object. *)
Definition new_dict : M ref :=
  fun st => (Ok (RObj (next st)),
             {| sources := sources st; overlay := overlay st;
                objects := set_obj (objects st) (next st) (ODict []);
                next := S (next st) |}).

Definition self_sources : M (list ref) := fun st => (Ok (sources st), st).

Definition self_overlay : M ref := fun st => (Ok (overlay st), st).

(** [collection[key]]. *)
Definition subscript (c : ref) (k : key) : M ref :=
  match c with
  | RObj l => o <~ deref l ;; py (obj_subscript o k)
  | RStr s => py (str_subscript s k)
  | RNone | RBool _ | RInt _ => raise (Builtin TypeError)
  end.

(** [key in collection]. *)
Definition contains (c : ref) (k : key) : M bool :=
  match c with
  | RObj l => o <~ deref l ;; ret (obj_contains o k)
  | RStr s => py (str_contains s k)
  | RNone | RBool _ | RInt _ => raise (Builtin TypeError)
  end.

(** [collection[key] = x]: the object is changed in place. *)
Definition store (c : ref) (k : key) (x : ref) : M unit :=
  match c with
  | RObj l =>
      o <~ deref l ;;
      o' <~ py (obj_store o k x) ;;
      assign l o'
  | RNone | RBool _ | RInt _ | RStr _ => raise (Builtin TypeError)
  end.

(** [type(value)]. *)
Definition type_of (c : ref) : M pytype :=
  match c with
  | RNone => ret TNoneType
  | RBool _ => ret TBool
  | RInt _ => ret TInt
  | RStr _ => ret TStr
  | RObj l => o <~ deref l ;; ret (class_of o)
  end.

(** *** The overlay *)

(** [RootView.__init__], in a store whose locations below [n] are taken: the
    overlay is a new dict. *)
Definition RootView_init (srcs : list ref) (h : loc -> obj) (n : loc) : state :=
  {| sources := srcs; overlay := RObj n;
     objects := set_obj h n (ODict []); next := S n |}.

(** [RootView.add]. *)
Definition add (obj : ref) : M unit :=
  fun st => (Ok tt, {| sources := (sources st ++ [obj])%list;
                       overlay := overlay st;
                       objects := objects st; next := next st |}).

(** The [overlay] attribute: the dict of the root, and the property of
    [Subview], which stores a new dict under the key when the node of the
    parent does not contain the key, and hands out what the node has there. *)
Fixpoint overlay_of (v : view) : M ref :=
  match v with
  | Root => self_overlay
  | Sub parent k =>
      parent_overlay <~ overlay_of parent ;;
      present <~ contains parent_overlay k ;;
      _ <~ (if negb present
            then (fresh <~ new_dict ;; store parent_overlay k fresh)
            else ret tt) ;;
      subscript parent_overlay k
  end.

(** [ConfigView.__setitem__]: the reference [x] is what is stored. *)
Definition __setitem__ (v : view) (k : key) (x : ref) : M unit :=
  node <~ overlay_of v ;; store node k x.

(** *** Generators *)

(** The subscripts between the list of the root and a view, outermost view
    last, each with the name of the view that is subscripted. *)
Fixpoint subscripts (v : view) : list (string * key) :=
  match v with
  | Root => []
  | Sub p k => (subscripts p ++ [(name p, k)])%list
  end.

(** What [get_all] hands out.  [RootView.get_all] builds the list
    [[self.overlay] + self.sources] when it is called.  [Subview.get_all] is a
    generator function: the call runs nothing, and the first [next] calls
    [get_all] on the parent, down to the root.  From then on the generators of
    the views along the path are suspended one inside the other over the
    iterator of the list of the root: [pending] is what that iterator has
    left. *)
Inductive gen :=
| Unstarted (v : view)
| Running (subs : list (string * key)) (pending : list ref).

(** What becomes of one candidate of the root as it goes up through the
    loops of the generators. *)
Inductive item :=
| Item (x : ref)
| Skip
| Fail (e : exn).

(** One candidate through the bodies of the loops, innermost generator
    first: [value = collection[self.key]] under its [try]. *)
Fixpoint through (subs : list (string * key)) (collection : ref) : M item :=
  match subs with
  | [] => ret (Item collection)
  | (parent_name, k) :: subs' =>
      r <~ attempt (subscript collection k) ;;
      match r with
      | Ok value => through subs' value
      | Err (Builtin IndexError) => ret Skip
      | Err (Builtin KeyError) => ret Skip
      | Err (Builtin TypeError) =>
          t <~ type_of collection ;;
          ret (Fail (ConfigTypeError
                       (parent_name ++ " must be a collection, not "
                          ++ str_of_type t)))
      | Err e => ret (Fail e)
      end
  end.

(** What [next] gives: a value, [StopIteration], or the exception that
    escapes from the generator. *)
Inductive step :=
| Yielded (x : ref)
| StopIteration
| Raised (e : exn).

(** The loops run until one candidate comes out at the top, or the list of the
    root is exhausted, or an exception escapes, which finishes every
    generator it goes through. *)
Fixpoint pull (subs : list (string * key)) (pending : list ref)
  : M (step * gen) :=
  match pending with
  | [] => ret (StopIteration, Running subs [])
  | collection :: rest =>
      i <~ through subs collection ;;
      match i with
      | Item value => ret (Yielded value, Running subs rest)
      | Skip => pull subs rest
      | Fail e => ret (Raised e, Running subs [])
      end
  end.

Definition get_all (v : view) : M gen :=
  match v with
  | Root =>
      o <~ self_overlay ;;
      s <~ self_sources ;;
      ret (Running [] (o :: s))
  | Sub _ _ => ret (Unstarted v)
  end.

(** [next(g)], with the generator as it is left. *)
Definition next_ (g : gen) : M (step * gen) :=
  match g with
  | Unstarted v =>
      o <~ self_overlay ;;
      s <~ self_sources ;;
      pull (subscripts v) (o :: s)
  | Running subs pending => pull subs pending
  end.

(** [list(g)]: [next] until the generator is finished; what was yielded, and
    the exception that ended it if one did. *)
Fixpoint exhaust (subs : list (string * key)) (pending : list ref)
  : M (list ref * option exn) :=
  match pending with
  | [] => ret ([], None)
  | collection :: rest =>
      i <~ through subs collection ;;
      match i with
      | Item value =>
          r <~ exhaust subs rest ;;
          ret (value :: fst r, snd r)
      | Skip => exhaust subs rest
      | Fail e => ret ([], Some e)
      end
  end.

Definition consume (g : gen) : M (list ref * option exn) :=
  match g with
  | Unstarted v =>
      o <~ self_overlay ;;
      s <~ self_sources ;;
      exhaust (subscripts v) (o :: s)
  | Running subs pending => exhaust subs pending
  end.

(** *** Reads *)

Definition iter_first (sequence : gen) : M ref :=
  r <~ next_ sequence ;;
  match fst r with
  | Yielded x => ret x
  | StopIteration => raise ValueError
  | Raised e => raise e
  end.

(** The argument of [get]; a callable is code like any other. *)
Inductive conversion :=
| NoConversion
| OfType (t : pytype)
| Callable (f : view -> ref -> M ref).

Definition get (v : view) (typ : conversion) : M ref :=
  values <~ get_all v ;;
  r <~ attempt (iter_first values) ;;
  match r with
  | Err e =>
      if is_ValueError e then raise (NotFoundError (name v ++ " not found"))
      else raise e
  | Ok value =>
      match typ with
      | OfType t =>
          t' <~ type_of value ;;
          if issubclass t' t then ret value
          else raise (ConfigTypeError
                        (name v ++ " must by of type " ++ str_of_type t
                           ++ ", not " ++ str_of_type t'))
      | Callable f => f v value
      | NoConversion => ret value
      end
  end.

(** *** What a store holds *)

(** The functions below read a store without running anything; the
    properties are stated with them. *)

(** [c[k]] in the store [h]. *)
Definition item_at (h : loc -> obj) (c : ref) (k : key) : result pyerr ref :=
  match c with
  | RObj l => obj_subscript (h l) k
  | RStr s => str_subscript s k
  | RNone | RBool _ | RInt _ => Err TypeError
  end.

Definition class_at (h : loc -> obj) (c : ref) : pytype :=
  match c with
  | RNone => TNoneType
  | RBool _ => TBool
  | RInt _ => TInt
  | RStr _ => TStr
  | RObj l => class_of (h l)
  end.

(** What the path [p] of subscripts leads to from [c]. *)
Fixpoint walk (h : loc -> obj) (c : ref) (p : list key) : result pyerr ref :=
  match p with
  | [] => Ok c
  | k :: p' => rbind (item_at h c k) (fun c' => walk h c' p')
  end.

Definition loc_of (c : ref) : list loc :=
  match c with RObj l => [l] | _ => [] end.

(** The objects that are subscripted on the way: every object the path goes
    through, the one it leads to excepted. *)
Fixpoint nodes (h : loc -> obj) (c : ref) (p : list key) : list loc :=
  match p with
  | [] => []
  | k :: p' =>
      (loc_of c ++
       match item_at h c k with
       | Ok c' => nodes h c' p'
       | Err _ => []
       end)%list
  end.


(** Every node that exists along the path is a dict. *)
Fixpoint mapping_path (h : loc -> obj) (c : ref) (p : list key) : bool :=
  match c with
  | RObj l =>
      match h l with
      | ODict d =>
          match p with
          | [] => true
          | k :: p' =>
              match lookup_key d k with
              | Some c' => mapping_path h c' p'
              | None => true
              end
          end
      | OList _ => false
      end
  | _ => false
  end.

(** One candidate through the subscripts, and the loops over the candidates
    that remain, in the store [h]. *)
Fixpoint through_at (h : loc -> obj) (subs : list (string * key)) (c : ref)
  : item :=
  match subs with
  | [] => Item c
  | (parent_name, k) :: subs' =>
      match item_at h c k with
      | Ok x => through_at h subs' x
      | Err IndexError | Err KeyError => Skip
      | Err TypeError =>
          Fail (ConfigTypeError
                  (parent_name ++ " must be a collection, not "
                     ++ str_of_type (class_at h c)))
      end
  end.

Fixpoint pull_at (h : loc -> obj) (subs : list (string * key))
    (pending : list ref) : step * gen :=
  match pending with
  | [] => (StopIteration, Running subs [])
  | c :: rest =>
      match through_at h subs c with
      | Item x => (Yielded x, Running subs rest)
      | Skip => pull_at h subs rest
      | Fail e => (Raised e, Running subs [])
      end
  end.

Fixpoint exhaust_at (h : loc -> obj) (subs : list (string * key))
    (pending : list ref) : list ref * option exn :=
  match pending with
  | [] => ([], None)
  | c :: rest =>
      match through_at h subs c with
      | Item x => (x :: fst (exhaust_at h subs rest), snd (exhaust_at h subs rest))
      | Skip => exhaust_at h subs rest
      | Fail e => ([], Some e)
      end
  end.

(** The body of [Subview.get_all] over what the generator of the parent
    yields and how it ends, in the store [h]. *)
Fixpoint Subview_get_all (h : loc -> obj) (parent_name : string) (k : key)
    (parent_all : list ref) (parent_end : option exn) : list ref * option exn :=
  match parent_all with
  | [] => ([], parent_end)
  | collection :: rest =>
      match item_at h collection k with
      | Ok value =>
          (value :: fst (Subview_get_all h parent_name k rest parent_end),
           snd (Subview_get_all h parent_name k rest parent_end))
      | Err IndexError | Err KeyError =>
          Subview_get_all h parent_name k rest parent_end
      | Err TypeError =>
          ([], Some (ConfigTypeError
                       (parent_name ++ " must be a collection, not "
                          ++ str_of_type (class_at h collection))))
      end
  end.

(** The candidates of a view among the values [cs], generator by generator. *)
Fixpoint candidates (h : loc -> obj) (cs : list ref) (v : view)
  : list ref * option exn :=
  match v with
  | Root => (cs, None)
  | Sub p k =>
      Subview_get_all h (name p) k (fst (candidates h cs p))
                      (snd (candidates h cs p))
  end.

(** Every reference of the state designates an object that was created. *)
Definition allocated (n : loc) (c : ref) : bool :=
  match c with
  | RObj l => bool_decide (l < n)%nat
  | _ => true
  end.

Definition refs_of (o : obj) : list ref :=
  match o with
  | ODict d => map snd d
  | OList l => l
  end.

(** The objects below [n] hold references to objects below [n] only. *)
Definition closed (h : loc -> obj) (n : loc) : Prop :=
  forall l, (l < n)%nat ->
    Forall (fun r => allocated n r = true) (refs_of (h l)).

Definition wf (st : state) : bool :=
  allocated (next st) (overlay st)
  && forallb (allocated (next st)) (sources st)
  && forallb (fun l => forallb (allocated (next st)) (refs_of (objects st l)))
             (seq 0 (next st)).

(** *** Configurations to run the code on *)

(** [r = RootView([])]. *)
Definition empty_root : state := RootView_init [] (fun _ => ODict []) 0%nat.


(** [r = RootView([]); r['a'] = r.get()]: the overlay is its own entry. *)
Definition self_held : state :=
  snd (bind (get Root NoConversion)
            (fun x => __setitem__ Root (KStr "a") x) empty_root).

(** [src = {'a': {'c': 1}}; r = RootView([src]); r['a'] = src]: the source
    is an entry of the overlay. *)
Definition source_store (l : loc) : obj :=
  match l with
  | 0%nat => ODict [(KStr "a", RObj 1%nat)]
  | 1%nat => ODict [(KStr "c", RInt 1)]
  | _ => ODict []
  end.

Definition source_assigned : state :=
  snd (__setitem__ Root (KStr "a") (RObj 0%nat)
                   (RootView_init [RObj 0%nat] source_store 2%nat)).

(** [shared = {'b': 1}; r = RootView([{'a': shared}, 0])] with the overlay
    [{'z': 9, 'a': shared}]: the overlay and the first source hold the same
    dict under ['a']. *)
Definition shared_node : state :=
  {| sources := [RObj 1%nat; RInt 0];
     overlay := RObj 0%nat;
     objects := fun l =>
       match l with
       | 0%nat => ODict [(KStr "z", RInt 9); (KStr "a", RObj 2%nat)]
       | 1%nat => ODict [(KStr "a", RObj 2%nat)]
       | 2%nat => ODict [(KStr "b", RInt 1); (KStr "c", RInt 3)]
       | _ => ODict []
       end;
     next := 3%nat |}.

(** [r = RootView([{'a': {'b': 1, 'c': 2}}])]: nothing is shared. *)
Definition plain_source : state :=
  RootView_init [RObj 0%nat]
    (fun l =>
       match l with
       | 0%nat => ODict [(KStr "a", RObj 1%nat)]
       | 1%nat => ODict [(KStr "b", RInt 1); (KStr "c", RInt 2)]
       | _ => ODict []
       end) 2%nat.

End Heap.

(** * Properties *)

Lemma finish_yielded_raised (t : trace) : t = finish (yielded t) (raised t).
Proof. induction t as [|v t IH|e]; simpl; [reflexivity | f_equal; exact IH | reflexivity]. Qed.

Lemma yielded_finish (l : list value) (e : option exn) : yielded (finish l e) = l.
Proof. induction l as [|v l IH]; simpl; [destruct e; reflexivity | f_equal; exact IH]. Qed.

Lemma raised_finish (l : list value) (e : option exn) : raised (finish l e) = e.
Proof. induction l as [|v l IH]; simpl; [destruct e; reflexivity | exact IH]. Qed.

Lemma yielded_iter (l : list value) : yielded (iter l) = l.
Proof. induction l as [|v l IH]; simpl; [reflexivity | f_equal; exact IH]. Qed.

Lemma raised_iter (l : list value) : raised (iter l) = None.
Proof. induction l as [|v l IH]; simpl; [reflexivity | exact IH]. Qed.

Lemma Subview_get_all_run (pname : string) (k : key) (t : trace) :
  Subview_get_all pname k t =
  finish (omap (item k) (before_type_error k (yielded t)))
         (match first_type_error k (yielded t) with
          | Some c => Some (not_a_collection pname c)
          | None => raised t
          end).
Proof.
  induction t as [|c t IH|e]; simpl; try reflexivity.
  unfold not_subscriptable, item.
  destruct (subscript c k) as [v|[]] eqn:Hc; simpl;
    rewrite ?Hc; simpl; rewrite ?IH; reflexivity.
Qed.

Lemma node_at_snoc (p : list key) (k : key) (c : value) :
  node_at c (p ++ [k]) = rbind (node_at c p) (fun n => subscript n k).
Proof.
  revert c; induction p as [|k0 p IH]; intros c; simpl.
  - destruct (subscript c k); reflexivity.
  - destruct (subscript c k0) as [c'|e]; simpl; [apply IH | reflexivity].
Qed.

Lemma malformed_snoc (p : list key) (k : key) (c : value) :
  malformed (p ++ [k]) c =
  match node_at c p with
  | Ok n => not_subscriptable k n
  | Err TypeError => true
  | Err _ => false
  end.
Proof.
  unfold malformed, not_subscriptable. rewrite node_at_snoc.
  destruct (node_at c p) as [n|[]]; reflexivity.
Qed.

Lemma descend_snoc (p : list key) (k : key) (c : value) :
  descend (p ++ [k]) c =
  match node_at c p with Ok n => item k n | Err _ => None end.
Proof.
  unfold descend, item. rewrite node_at_snoc.
  destruct (node_at c p) as [n|e]; reflexivity.
Qed.

Lemma before_malformed_snoc (p : list key) (k : key) (cs : list value) :
  omap (item k) (before_type_error k (omap (descend p) (before_malformed p cs)))
  = omap (descend (p ++ [k])) (before_malformed (p ++ [k]) cs).
Proof.
  induction cs as [|c cs IH]; [reflexivity|].
  cbn [before_malformed]. rewrite malformed_snoc. unfold malformed at 1.
  destruct (node_at c p) as [n|e] eqn:Hn.
  - cbn [omap list_omap]. unfold descend at 1. rewrite Hn.
    cbn [before_type_error].
    destruct (not_subscriptable k n) eqn:Hs; [reflexivity|].
    cbn [omap list_omap]. rewrite descend_snoc, Hn.
    destruct (item k n); [f_equal|]; exact IH.
  - destruct e; try reflexivity; cbn [omap list_omap];
      unfold descend at 1; rewrite descend_snoc, Hn; exact IH.
Qed.

Lemma yielded_get_all (st : state) (v : view) :
  yielded (get_all st v) =
  omap (descend (path v)) (before_malformed (path v) (overlay st :: sources st)).
Proof.
  induction v as [|p IH k].
  - cbn [get_all path]. rewrite yielded_iter.
    generalize (overlay st :: sources st); intros l.
    induction l as [|c l IHl]; simpl; [reflexivity | f_equal; exact IHl].
  - cbn [get_all path]. rewrite Subview_get_all_run, yielded_finish, IH.
    apply before_malformed_snoc.
Qed.

(** C1. The root yields the overlay and then the sources, in their order.  A
    subview takes the candidates of its parent in order, as far as the first
    one its key cannot subscript: it yields [c[k]] for those that have the key
    and passes over the others, and its run ends as the parent's does, or with
    the type error of that first candidate.  Along a whole path the values
    yielded are those of [[overlay] + sources], in that order, at the path. *)
Theorem get_all_priority_order :
  forall st : state,
    get_all st Root = iter (overlay st :: sources st) /\
    (forall (p : view) (k : key),
       get_all st (Sub p k) =
       finish (omap (item k) (before_type_error k (yielded (get_all st p))))
              (match first_type_error k (yielded (get_all st p)) with
               | Some c => Some (not_a_collection (name p) c)
               | None => raised (get_all st p)
               end)) /\
    (forall v : view,
       yielded (get_all st v) =
       omap (descend (path v))
            (before_malformed (path v) (overlay st :: sources st))).
Proof.
  intros st. split; [reflexivity|]. split.
  - intros p k. apply Subview_get_all_run.
  - apply yielded_get_all.
Qed.

(** ** Reading one value *)

Lemma Subview_get_all_raises (pname : string) (k : key) (t : trace) (e : exn) :
  raised (Subview_get_all pname k t) = Some e ->
  raised t = Some e \/ exists msg, e = ConfigTypeError msg.
Proof.
  induction t as [|c t IH|e']; simpl; intros H; try discriminate.
  - destruct (subscript c k) as [x|[]]; simpl in H; auto.
    injection H as <-. right. eexists. reflexivity.
  - left. exact H.
Qed.

(** Resolution raises nothing but the type error of a malformed source. *)
Lemma get_all_raises (st : state) (v : view) (e : exn) :
  raised (get_all st v) = Some e -> exists msg, e = ConfigTypeError msg.
Proof.
  induction v as [|p IH k]; cbn [get_all]; intros H.
  - rewrite raised_iter in H. discriminate.
  - apply Subview_get_all_raises in H as [H|H]; auto.
Qed.

(** C2. [get] answers with the first candidate of [get_all]: as it is when no
    conversion is asked for, as it is when it is an instance of the class asked
    for and with a type error that names both classes otherwise, and as the
    callable converts it from the view and the candidate.  With no candidate
    at all the answer is the not-found error that names the path, and a type
    error of the resolution itself is passed on. *)
Theorem get_first_candidate :
  forall (st : state) (v : view),
    (forall c : value,
       head (yielded (get_all st v)) = Some c ->
       get st v NoConversion = Ok c /\
       (forall t : pytype,
          get st v (OfType t) =
          if isinstance c t then Ok c
          else Err (ConfigTypeError
                      (name v ++ " must by of type " ++ str_of_type t
                         ++ ", not " ++ str_of_type (type_of c)))) /\
       (forall f, get st v (Callable f) = f v c)) /\
    (get_all st v = Stop ->
     forall typ, get st v typ = Err (NotFoundError (name v ++ " not found"))) /\
    (forall e : exn,
       get_all st v = Raise e -> forall typ, get st v typ = Err e).
Proof.
  intros st v. repeat split.
  - unfold get. destruct (get_all st v); simpl in *; congruence.
  - intros t. unfold get. destruct (get_all st v); simpl in *; try congruence.
    injection H as ->. reflexivity.
  - intros f. unfold get. destruct (get_all st v); simpl in *; try congruence.
  - intros H typ. unfold get. rewrite H. reflexivity.
  - intros e H typ. unfold get. rewrite H. simpl.
    destruct (get_all_raises st v e) as [msg ->]; [rewrite H|]; reflexivity.
Qed.

Lemma get_first_candidate_witness :
  get (RootView_init [VDict [(KStr "a", VInt 5)]; VDict [(KStr "a", VInt 6)]])
      (Sub Root (KStr "a")) NoConversion = Ok (VInt 5) /\
  get (RootView_init [VDict [(KStr "a", VInt 5)]]) (Sub Root (KStr "b"))
      (OfType TInt) = Err (NotFoundError "root['b'] not found") /\
  get (RootView_init [VInt 5]) (Sub Root (KStr "b")) NoConversion
  = Err (ConfigTypeError "root must be a collection, not <class 'int'>").
Proof.
  pose proof (get_first_candidate
                (RootView_init [VDict [(KStr "a", VInt 5)]; VDict [(KStr "a", VInt 6)]])
                (Sub Root (KStr "a"))) as [H1 _].
  pose proof (get_first_candidate
                (RootView_init [VDict [(KStr "a", VInt 5)]])
                (Sub Root (KStr "b"))) as [_ [H2 _]].
  pose proof (get_first_candidate (RootView_init [VInt 5])
                (Sub Root (KStr "b"))) as [_ [_ H3]].
  split; [|split].
  - apply (H1 (VInt 5)). reflexivity.
  - apply H2. reflexivity.
  - apply H3. reflexivity.
Defined.

(** ** Absent keys and malformed sources *)

Lemma norm_index_lt (n : nat) (i : Z) (m : nat) :
  norm_index n i = Some m -> (m < n)%nat.
Proof.
  unfold norm_index. intros H.
  destruct (i <? 0) eqn:Hi;
    match type of H with
    | (if ?b then _ else _) = _ => destruct b eqn:Hb; [|discriminate]
    end;
    injection H as <-; apply andb_prop in Hb as [H0 H1];
    apply Z.leb_le in H0; apply Z.ltb_lt in H1; lia.
Qed.

Lemma string_nth_lt (s : string) (n : nat) :
  (n < String.length s)%nat -> exists ch, string_nth s n = Some ch.
Proof.
  revert n; induction s as [|a s IH]; intros n H; simpl in *; [lia|].
  destruct n as [|n]; [eauto | apply IH; lia].
Qed.

Lemma key_absent_subscript (c : value) (k : key) :
  key_absent c k <-> subscript c k = Err KeyError \/ subscript c k = Err IndexError.
Proof.
  destruct c as [| | |s|l|d], k as [i|t]; simpl;
    try (split; [tauto | intros [H|H]; discriminate]).
  - destruct (norm_index (String.length s) i) as [m|] eqn:Hm.
    + destruct (string_nth_lt s m (norm_index_lt _ _ _ Hm)) as [ch ->].
      split; [discriminate | intros [H|H]; discriminate].
    + split; auto.
  - destruct (norm_index (length l) i) as [m|] eqn:Hm.
    + destruct (lookup_lt_is_Some_2 l m (norm_index_lt _ _ _ Hm)) as [x ->].
      split; [discriminate | intros [H|H]; discriminate].
    + split; auto.
  - destruct (dict_get d (KInt i)); split; auto; try discriminate.
    intros [H|H]; discriminate.
  - destruct (dict_get d (KStr t)); split; auto; try discriminate.
    intros [H|H]; discriminate.
Qed.

Lemma Subview_get_all_prepend (pname : string) (k : key) (pre : list value)
    (t : trace) :
  Forall (fun c => not_subscriptable k c = false) pre ->
  Subview_get_all pname k (prepend pre t) =
  prepend (omap (item k) pre) (Subview_get_all pname k t).
Proof.
  induction 1 as [|c pre Hc _ IH]; [reflexivity|].
  cbn [prepend Subview_get_all omap list_omap].
  unfold not_subscriptable in Hc. unfold item at 1.
  destruct (subscript c k) as [x|[]]; try discriminate;
    cbn [prepend]; rewrite IH; reflexivity.
Qed.

(** C3. While a subview runs over the candidates of its parent, a candidate
    that lacks the key (a mapping without it, a sequence too short for the
    index) adds nothing and the run goes on with the next one; a candidate
    that cannot be subscripted, as every scalar, ends the run with a type
    error that carries the name of the parent view and the class of the
    candidate.  No candidate is in both cases. *)
Theorem Subview_absent_or_malformed :
  forall (st : state) (p : view) (k : key) (pre : list value) (c : value)
         (rest : trace),
    get_all st p = prepend pre (Yield c rest) ->
    Forall (fun c' => not_subscriptable k c' = false) pre ->
    (key_absent c k ->
     get_all st (Sub p k) =
     prepend (omap (item k) pre) (Subview_get_all (name p) k rest)) /\
    (not_indexable c k ->
     get_all st (Sub p k) =
     prepend (omap (item k) pre)
       (Raise (ConfigTypeError
                 (name p ++ " must be a collection, not "
                    ++ str_of_type (type_of c))))) /\
    (is_scalar c = true -> not_indexable c k) /\
    ~ (key_absent c k /\ not_indexable c k).
Proof.
  intros st p k pre c rest Hp Hpre. cbn [get_all]. rewrite Hp.
  rewrite (Subview_get_all_prepend _ _ _ _ Hpre). cbn [Subview_get_all].
  repeat split.
  - intros Ha. apply key_absent_subscript in Ha as [-> | ->]; reflexivity.
  - intros Hn. red in Hn. rewrite Hn. reflexivity.
  - intros Hs. destruct c; try discriminate; reflexivity.
  - intros [Ha Hn]. red in Hn.
    apply key_absent_subscript in Ha as [Ha|Ha]; congruence.
Qed.

Lemma Subview_absent_or_malformed_witness :
  get_all (RootView_init [VDict [(KStr "a", VInt 1)]; VDict []; VList []; VInt 3])
          (Sub Root (KStr "a"))
  = Yield (VInt 1)
      (Raise (ConfigTypeError "root must be a collection, not <class 'list'>"))
  /\ get_all (RootView_init [VDict [(KStr "a", VInt 1)]; VNone])
             (Sub Root (KStr "a"))
     = Yield (VInt 1)
         (Raise (ConfigTypeError "root must be a collection, not <class 'NoneType'>")).
Proof.
  split.
  - pose proof (Subview_absent_or_malformed
                  (RootView_init [VDict [(KStr "a", VInt 1)]; VDict []; VList []; VInt 3])
                  Root (KStr "a") [VDict []; VDict [(KStr "a", VInt 1)]]
                  (VDict []) (iter [VList []; VInt 3])
                  eq_refl) as H.
    destruct H as [H _].
    + repeat constructor.
    + rewrite H; reflexivity.
  - pose proof (Subview_absent_or_malformed
                  (RootView_init [VDict [(KStr "a", VInt 1)]; VNone])
                  Root (KStr "a") [VDict []; VDict [(KStr "a", VInt 1)]]
                  VNone Stop eq_refl) as H.
    destruct H as [_ [H _]].
    + repeat constructor.
    + rewrite H; reflexivity.
Defined.

(** ** Writing into the overlay *)

Lemma dict_get_set_eq (d : list (key * value)) (k : key) (x : value) :
  dict_get (dict_set d k x) k = Some x.
Proof.
  induction d as [|[k' v] d IH]; simpl.
  - rewrite decide_True; reflexivity.
  - destruct (decide (k' = k)) as [->|Hne]; simpl.
    + rewrite decide_True; reflexivity.
    + rewrite decide_False; assumption.
Qed.

Lemma dict_get_set_ne (d : list (key * value)) (k k' : key) (x : value) :
  k <> k' -> dict_get (dict_set d k x) k' = dict_get d k'.
Proof.
  intros Hne. induction d as [|[k0 v] d IH]; simpl.
  - rewrite decide_False; [reflexivity | assumption].
  - destruct (decide (k0 = k)) as [->|H0]; simpl.
    + rewrite !decide_False; [reflexivity | assumption | assumption].
    + destruct (decide (k0 = k')); [reflexivity | exact IH].
Qed.



(** Reading back what an assignment has stored. *)
Lemma subscript_store (c : value) (k : key) (x : value) (c' : value) :
  store c k x = Ok c' -> subscript c' k = Ok x.
Proof.
  destruct c as [| | | |l|d]; simpl; try discriminate.
  - destruct k as [i|s]; [|discriminate].
    destruct (norm_index (length l) i) as [n|] eqn:Hn; [|discriminate].
    intros H; injection H as <-. simpl.
    rewrite length_insert, Hn.
    rewrite list_lookup_insert_eq; [reflexivity|].
    apply (norm_index_lt _ _ _ Hn).
  - intros H; injection H as <-. simpl. rewrite dict_get_set_eq. reflexivity.
Qed.

Lemma node_at_update_at (o : value) (p : list key) (k : key) (x : value)
    (o' : value) :
  update_at o p (fun n => store n k x) = Ok o' ->
  node_at o' (p ++ [k]) = Ok x.
Proof.
  revert o o'; induction p as [|k0 p IH]; intros o o'; simpl.
  - intros H. rewrite (subscript_store _ _ _ _ H). reflexivity.
  - destruct (subscript o k0) as [c|e]; simpl; [|discriminate].
    destruct (update_at c p _) as [c'|e] eqn:Hc; simpl; [|discriminate].
    intros H. rewrite (subscript_store _ _ _ _ H). simpl.
    apply (IH _ _ Hc).
Qed.

(** Nothing below a string can be assigned to. *)
Lemma update_at_str (p : list key) (k : key) (x : value) (s : string) :
  exists e, update_at (VStr s) p (fun n => store n k x) = Err e.
Proof.
  revert s; induction p as [|k0 p IH]; intros s; [simpl; eauto|].
  cbn [update_at].
  destruct (subscript (VStr s) k0) as [c|e] eqn:Hc; cbn [rbind]; [|eauto].
  assert (exists s', c = VStr s') as [s' ->].
  { simpl in Hc. destruct k0 as [i|t]; [|discriminate].
    destruct (norm_index _ i); [|discriminate].
    destruct (string_nth s n); [|discriminate].
    injection Hc as <-. eauto. }
  destruct (IH s') as [e ->]. eauto.
Qed.

(** An assignment through a reference raises what reaching the node raises,
    or what the assignment to the node raises: handing the mutated node back
    to its parents adds no failure. *)
Lemma update_at_raises (o : value) (p : list key) (k : key) (x : value)
    (e : pyerr) :
  update_at o p (fun n => store n k x) = Err e ->
  node_at o p = Err e \/
  exists n, node_at o p = Ok n /\ store n k x = Err e.
Proof.
  revert o; induction p as [|k0 p IH]; intros o; cbn [update_at node_at].
  - eauto.
  - destruct (subscript o k0) as [c|e0] eqn:Hc; cbn [rbind]; [|auto].
    destruct (update_at c p _) as [c'|e1] eqn:Hu; cbn [rbind].
    + intros Hs. exfalso.
      destruct o as [| | |s|l|d]; simpl in Hc, Hs; try discriminate.
      * destruct k0 as [i|t]; [|discriminate].
        destruct (norm_index _ i); [|discriminate].
        destruct (string_nth s n); [|discriminate].
        injection Hc as <-.
        destruct (update_at_str p k x (String a "")) as [e' He'].
        rewrite He' in Hu. discriminate.
      * destruct k0 as [i|t]; [|discriminate].
        destruct (norm_index _ i); discriminate.
    + intros H; injection H as ->. apply IH, Hu.
Qed.

(** A reference the [overlay] attribute hands out is the path of the view,
    and designates a node of the overlay as it is then. *)
Lemma overlay_of_ok (v : view) (o : value) (r : list key) (o' : value) :
  overlay_of v o = (Ok r, o') ->
  r = path v /\ exists n, node_at o' (path v) = Ok n.
Proof.
  revert o r o'; induction v as [|p IH k]; intros o r o'.
  - cbn. intros H; injection H as <- <-. split; [reflexivity | eauto].
  - cbn [overlay_of path]. unfold bind at 1.
    destruct (overlay_of p o) as [[po|e] o1] eqn:Hp; [|discriminate].
    destruct (IH _ _ _ Hp) as [-> _].
    unfold bind at 1. unfold contains_at at 1.
    destruct (lift_py _) as [present|e]; [|discriminate].
    unfold bind at 1.
    assert (forall o2,
              subscript_at (path p) k o2 = (Ok r, o') ->
              r = (path p ++ [k])%list /\
              exists n, node_at o' (path p ++ [k]) = Ok n) as Htail.
    { intros o2. unfold subscript_at.
      destruct (node_at o2 (path p)) as [n|e] eqn:Hn; simpl; [|discriminate].
      destruct (subscript n k) as [c|e] eqn:Hc; simpl; [|discriminate].
      intros H; injection H as <- <-. split; [reflexivity|].
      exists c. rewrite node_at_snoc, Hn. exact Hc. }
    destruct present; cbn [negb].
    + apply Htail.
    + unfold store_at.
      destruct (update_at o1 (path p) _) as [o2|e]; [apply Htail | discriminate].
Qed.












(** An assignment through a node of the overlay that is not a collection
    raises the builtin type error and writes nothing. *)
Example setitem_through_scalar :
  __setitem__ {| sources := []; overlay := VDict [(KStr "a", VInt 5)] |}
              (Sub Root (KStr "a")) (KStr "b") (VInt 1)
  = (Err (Builtin TypeError),
     {| sources := []; overlay := VDict [(KStr "a", VInt 5)] |}).
Proof. reflexivity. Qed.

(** ** Keys *)

Lemma elem_of_dict_keys (d : list (key * value)) (k : key) :
  k ∈ dict_keys d <-> is_Some (dict_get d k).
Proof.
  unfold dict_keys. induction d as [|[k' v] d IH]; simpl.
  - split; [intros H; inversion H | intros [? ?]; discriminate].
  - rewrite elem_of_cons, IH. destruct (decide (k' = k)) as [->|Hne].
    + split; eauto.
    + split; [intros [->|H]; [congruence | exact H] | auto].
Qed.

Lemma keys_loop_dicts (vname : string) (t : trace) (acc : gset key) :
  raised t = None ->
  Forall (fun c => is_dict c = true) (yielded t) ->
  exists s : gset key,
    keys_loop vname t acc = Ok s /\
    forall k, k ∈ s <->
              k ∈ acc \/ exists d, VDict d ∈ yielded t /\ is_Some (dict_get d k).
Proof.
  revert acc; induction t as [|c t IH|e]; intros acc Hr Hd; simpl in *.
  - exists acc. split; [reflexivity|]. intros k. split; [auto|].
    intros [H|(d & H & _)]; [exact H | inversion H].
  - inversion Hd as [|? ? Hc Hd']; subst.
    destruct c as [| | | | |d]; try discriminate.
    destruct (IH (acc ∪ list_to_set (dict_keys d)) Hr Hd') as (s & -> & Hs).
    exists s. split; [reflexivity|]. intros k. rewrite Hs.
    rewrite elem_of_union, elem_of_list_to_set, elem_of_dict_keys.
    split.
    + intros [[H|H]|(d' & H & Hk)]; [auto | |].
      * right. exists d. split; [left | exact H].
      * right. exists d'. split; [right; exact H | exact Hk].
    + intros [H|(d' & H & Hk)]; [auto|].
      apply elem_of_cons in H as [H|H].
      * injection H as ->. auto.
      * right. eauto.
  - discriminate.
Qed.





(** ** Reading the configuration files *)

(** The files that load. *)
Lemma read_loop_fails (fs : files) (pre : list string) (f : string)
    (post : list string) (r : failure) (st : state) :
  Forall (fun g => exists data, yaml_load fs g = Ok data) pre ->
  yaml_load fs f = Err r ->
  fst (read_loop fs (pre ++ f :: post) st)
  = Err (match r with Caught reason => read_error f reason | Uncaught e => e end).
Proof.
  intros Hpre Hf. revert st.
  induction Hpre as [|g pre [data Hg] _ IH]; intros st; simpl.
  - rewrite Hf. destruct r; reflexivity.
  - rewrite Hg. apply IH.
Qed.

Lemma first_failure (fs : files) (names : list string) :
  Exists (fun g => exists r, yaml_load fs g = Err r) names ->
  exists pre f post r,
    names = (pre ++ f :: post)%list /\
    Forall (fun g => exists data, yaml_load fs g = Ok data) pre /\
    yaml_load fs f = Err r.
Proof.
  induction names as [|g names IH]; intros H; [inversion H|].
  destruct (yaml_load fs g) as [data|r] eqn:Hg.
  - destruct IH as (pre & f & post & r & -> & Hpre & Hf).
    { inversion H as [? ? [r Hr]|]; subst; [congruence | assumption]. }
    exists (g :: pre), f, post, r.
    split; [reflexivity|]. split; [constructor; eauto | exact Hf].
  - exists [], g, names, r. auto.
Qed.

Lemma read_loop_succeeds (fs : files) (names : list string) (st st' : state) :
  read_loop fs names st = (Ok tt, st') ->
  exists datas,
    Forall2 (fun g data => yaml_load fs g = Ok data) names datas /\
    sources st' = (sources st ++ datas)%list /\ overlay st' = overlay st.
Proof.
  revert st; induction names as [|g names IH]; intros st; simpl.
  - intros H; injection H as <-. exists []. rewrite app_nil_r. auto.
  - destruct (yaml_load fs g) as [data|[reason|e]] eqn:Hg; [|discriminate..].
    intros H. destruct (IH _ H) as (datas & HF & Hs & Ho).
    exists (data :: datas). split; [constructor; assumption|].
    rewrite Hs, Ho. simpl. rewrite <- app_assoc. auto.
Qed.

Lemma Configuration_init_fails (fs : files) (appname : string)
    (modname : option string) (pre : list string) (f : string)
    (post : list string) (r : failure) :
  _filenames fs appname modname = (pre ++ f :: post)%list ->
  Forall (fun g => exists data, yaml_load fs g = Ok data) pre ->
  yaml_load fs f = Err r ->
  Configuration_init fs appname modname true
  = Err (match r with Caught reason => read_error f reason | Uncaught e => e end).
Proof.
  intros Hn Hpre Hf. unfold Configuration_init, _read. rewrite Hn.
  pose proof (read_loop_fails fs pre f post r
                {| sources := []; overlay := overlay (RootView_init []) |}
                Hpre Hf) as H.
  destruct (read_loop fs _ _) as [r' st']. simpl in H. subst r'. reflexivity.
Qed.

(** C7. Loading a file that was discovered gives its data or raises.  When the
    first file that raises does so with an [IOError] or a [YAMLError], reading
    raises the read error that carries the path of that file and the exception
    caught.  When it raises anything else, that exception leaves [_read] and
    the constructor as it is, and is no read error unless it was one.  In both
    cases no configuration is built and the files after it are not looked at;
    and a configuration that is built has one source for each file discovered,
    in the order of the files: no file is passed over. *)
Theorem read_failure_aborts :
  forall (fs : files) (appname : string) (modname : option string),
    (forall (pre : list string) (f : string) (post : list string)
            (reason : cause),
       _filenames fs appname modname = (pre ++ f :: post)%list ->
       Forall (fun g => exists data, yaml_load fs g = Ok data) pre ->
       yaml_load fs f = Err (Caught reason) ->
       Configuration_init fs appname modname true
       = Err (ConfigReadError f reason
                ("file " ++ f ++ " could not be read: " ++ str_of_cause reason)))
    /\
    (forall (pre : list string) (f : string) (post : list string) (e : exn),
       _filenames fs appname modname = (pre ++ f :: post)%list ->
       Forall (fun g => exists data, yaml_load fs g = Ok data) pre ->
       yaml_load fs f = Err (Uncaught e) ->
       Configuration_init fs appname modname true = Err e)
    /\
    (Exists (fun g => exists r, yaml_load fs g = Err r)
            (_filenames fs appname modname) ->
     exists f r,
       f ∈ _filenames fs appname modname /\
       yaml_load fs f = Err r /\
       Configuration_init fs appname modname true
       = Err (match r with
              | Caught reason => read_error f reason
              | Uncaught e => e
              end))
    /\
    (forall st : state,
       Configuration_init fs appname modname true = Ok st ->
       Forall2 (fun g data => yaml_load fs g = Ok data)
               (_filenames fs appname modname) (sources st)).
Proof.
  intros fs appname modname. split; [|split; [|split]].
  - intros pre f post reason Hn Hpre Hf.
    apply (Configuration_init_fails _ _ _ _ _ _ _ Hn Hpre Hf).
  - intros pre f post e Hn Hpre Hf.
    apply (Configuration_init_fails _ _ _ _ _ _ _ Hn Hpre Hf).
  - intros Hex. apply first_failure in Hex
      as (pre & f & post & r & Hn & Hpre & Hf).
    exists f, r. split; [|split; [exact Hf|]].
    + rewrite Hn. apply elem_of_app. right. left.
    + apply (Configuration_init_fails _ _ _ _ _ _ _ Hn Hpre Hf).
  - intros st. unfold Configuration_init, _read.
    destruct (read_loop fs _ _) as [[[]|e] st'] eqn:H; [|discriminate].
    intros E; injection E as <-.
    destruct (read_loop_succeeds _ _ _ _ H) as (datas & HF & Hs & _).
    simpl in Hs. rewrite Hs. exact HF.
Qed.

Lemma read_failure_aborts_witness :
  Configuration_init
    {| config_dirs := ["/home/u/.config"];
       package_path := fun _ => Some "/pkg";
       isfile := fun _ => true;
       yaml_load := fun p =>
         if String.eqb p "/pkg/config_default.yaml"
         then Err (Caught (YAMLError "bad")) else Ok (VDict []) |}
    "app" (Some "mod") true
  = Err (ConfigReadError "/pkg/config_default.yaml" (YAMLError "bad")
           "file /pkg/config_default.yaml could not be read: bad") /\
  Configuration_init
    {| config_dirs := ["/etc"; "/opt"];
       package_path := fun _ => None;
       isfile := fun _ => true;
       yaml_load := fun p =>
         if String.eqb p "/opt/app/config.yaml"
         then Err (Uncaught (Builtin TypeError)) else Ok VNone |}
    "app" None true
  = Err (Builtin TypeError) /\
  (exists f r,
     Configuration_init
       {| config_dirs := ["/etc"; "/opt"];
          package_path := fun _ => None;
          isfile := fun _ => true;
          yaml_load := fun _ => Err (Caught (IOError "denied")) |}
       "app" None true
     = Err (match r with
            | Caught reason => read_error f reason
            | Uncaught e => e
            end)) /\
  Forall2 (fun g data => (if String.eqb g "/etc/app/config.yaml"
                          then Ok VNone else Err (Caught (IOError "denied")))
                         = Ok data)
          ["/etc/app/config.yaml"] [VNone].
Proof.
  split; [|split; [|split]].
  - apply (proj1 (read_failure_aborts
             {| config_dirs := ["/home/u/.config"];
                package_path := fun _ => Some "/pkg";
                isfile := fun _ => true;
                yaml_load := fun p =>
                  if String.eqb p "/pkg/config_default.yaml"
                  then Err (Caught (YAMLError "bad")) else Ok (VDict []) |}
             "app" (Some "mod"))
             ["/home/u/.config/app/config.yaml"] "/pkg/config_default.yaml" []
             (YAMLError "bad")).
    + reflexivity.
    + repeat constructor. exists (VDict []). reflexivity.
    + reflexivity.
  - apply (proj1 (proj2 (read_failure_aborts
             {| config_dirs := ["/etc"; "/opt"];
                package_path := fun _ => None;
                isfile := fun _ => true;
                yaml_load := fun p =>
                  if String.eqb p "/opt/app/config.yaml"
                  then Err (Uncaught (Builtin TypeError)) else Ok VNone |}
             "app" None))
             ["/etc/app/config.yaml"] "/opt/app/config.yaml" []
             (Builtin TypeError)).
    + reflexivity.
    + repeat constructor. exists VNone. reflexivity.
    + reflexivity.
  - destruct (proj1 (proj2 (proj2 (read_failure_aborts
             {| config_dirs := ["/etc"; "/opt"];
                package_path := fun _ => None;
                isfile := fun _ => true;
                yaml_load := fun _ => Err (Caught (IOError "denied")) |}
             "app" None)))) as (f & r & _ & _ & H).
    + right. left. exists (Caught (IOError "denied")). reflexivity.
    + exists f, r. exact H.
  - apply (proj2 (proj2 (proj2 (read_failure_aborts
             {| config_dirs := ["/etc"];
                package_path := fun _ => None;
                isfile := fun _ => true;
                yaml_load := fun g =>
                  if String.eqb g "/etc/app/config.yaml"
                  then Ok VNone else Err (Caught (IOError "denied")) |}
             "app" None)))
             {| sources := [VNone]; overlay := VDict [] |}).
    reflexivity.
Defined.

(** A discovered file that cannot be decoded: on Python 3,
    [yaml.load(f)] raises [UnicodeDecodeError], a [ValueError], which the
    [except] clause of [_read] does not name.  The constructor raises it as it
    is, and not the read error of the module. *)
Lemma undecodable_file_escapes :
  Configuration_init
    {| config_dirs := ["/home/u/.config"];
       package_path := fun _ => None;
       isfile := fun _ => true;
       yaml_load := fun _ => Err (Uncaught ValueError) |}
    "app" None true
  = Err ValueError /\
  ~ (exists f reason msg,
       Configuration_init
         {| config_dirs := ["/home/u/.config"];
            package_path := fun _ => None;
            isfile := fun _ => true;
            yaml_load := fun _ => Err (Uncaught ValueError) |}
         "app" None true
       = Err (ConfigReadError f reason msg)).
Proof.
  split; [reflexivity|]. intros (f & reason & msg & H). discriminate H.
Qed.

(** ** Conversion helpers *)








Lemma isabs_inv (p : string) : isabs p = true -> exists p', p = String "/" p'.
Proof.
  destruct p as [|a p]; simpl; [discriminate|].
  destruct (Ascii.eqb_spec a "/") as [->|]; [eauto | discriminate].
Qed.

Lemma normpath_isabs (p : string) : isabs p = true -> isabs (normpath p) = true.
Proof.
  intros H. destruct (isabs_inv p H) as [p' ->]. unfold normpath.
  change (String.eqb (String "/" p') "") with false. cbv iota. rewrite H.
  destruct (String.prefix "//" _ && negb _); reflexivity.
Qed.

Lemma path_join_isabs (a p : string) :
  isabs a = true -> isabs (path_join a p) = true.
Proof.
  intros H. unfold path_join. destruct (isabs p) eqn:Hp; [exact Hp|].
  destruct (isabs_inv a H) as [a' ->].
  destruct (String.eqb _ "" || ends_with_slash _); reflexivity.
Qed.

Lemma abspath_isabs (e : os) (p : string) :
  isabs (getcwd e) = true -> isabs (abspath e p) = true.
Proof.
  intros H. unfold abspath. apply normpath_isabs.
  destruct (isabs p) eqn:Hp; [exact Hp | apply path_join_isabs, H].
Qed.

(** C8, as the code has it.  The conversion of a string is an absolute path,
    the working directory being one; a leading [~], alone or before a slash,
    is replaced by the home directory; and the result does not depend on the
    symbolic links. *)
Theorem as_filename_absolute :
  forall (e : os) (v : view) (s : string),
    isabs (getcwd e) = true ->
    (exists r, as_filename e v (VStr s) = Ok (VStr r) /\ isabs r = true) /\
    (forall t,
       s = "~" ++ t -> t = "" \/ isabs t = true ->
       as_filename e v (VStr s)
       = Ok (VStr (abspath e (or_else (rstrip_slash (home e) ++ t) "/")))) /\
    (forall links : string -> option string,
       as_filename {| getcwd := getcwd e; environ_HOME := environ_HOME e;
                      pw_dir_self := pw_dir_self e; pw_dir := pw_dir e;
                      readlink := links |} v (VStr s)
       = as_filename e v (VStr s)).
Proof.
  intros e v s Hcwd. repeat split.
  - eexists. split; [reflexivity | apply abspath_isabs, Hcwd].
  - intros t -> Ht. unfold as_filename, str_of_value, expanduser, home. simpl.
    destruct Ht as [->|Ht]; [reflexivity|].
    destruct (isabs_inv t Ht) as [t' ->]. reflexivity.
Qed.

Lemma as_filename_absolute_witness :
  exists r,
    as_filename {| getcwd := "/work"; environ_HOME := Some "/home/u/";
                   pw_dir_self := "/home/u"; pw_dir := fun _ => None;
                   readlink := fun _ => None |} Root (VStr "~/a/../b")
    = Ok (VStr r) /\ isabs r = true.
Proof.
  apply (as_filename_absolute
           {| getcwd := "/work"; environ_HOME := Some "/home/u/";
              pw_dir_self := "/home/u"; pw_dir := fun _ => None;
              readlink := fun _ => None |} Root "~/a/../b").
  reflexivity.
Defined.

(** C8 as the specification has it fails: where [/link] is a symbolic link to
    [/target], the conversion of ["/link"] is ["/link"], and its canonical
    path is ["/target"]. *)
Lemma as_filename_keeps_symlink :
  as_filename {| getcwd := "/"; environ_HOME := Some "/home/u";
                 pw_dir_self := "/home/u"; pw_dir := fun _ => None;
                 readlink := fun p => if String.eqb p "/link"
                                      then Some "/target" else None |}
              Root (VStr "/link") = Ok (VStr "/link") /\
  spec_filename {| getcwd := "/"; environ_HOME := Some "/home/u";
                   pw_dir_self := "/home/u"; pw_dir := fun _ => None;
                   readlink := fun p => if String.eqb p "/link"
                                        then Some "/target" else None |}
                "/link" = "/target" /\
  as_filename {| getcwd := "/"; environ_HOME := Some "/home/u";
                 pw_dir_self := "/home/u"; pw_dir := fun _ => None;
                 readlink := fun p => if String.eqb p "/link"
                                      then Some "/target" else None |}
              Root (VStr "/link")
  <> Ok (VStr (spec_filename
                 {| getcwd := "/"; environ_HOME := Some "/home/u";
                    pw_dir_self := "/home/u"; pw_dir := fun _ => None;
                    readlink := fun p => if String.eqb p "/link"
                                         then Some "/target" else None |}
                 "/link")).
Proof. repeat split. vm_compute. discriminate. Qed.

(** * Properties of the store *)

(** ** Reads run nothing but reads *)

Lemma subscript_run (c : Heap.ref) (k : key) (st : Heap.state) :
  Heap.subscript c k st = (lift_py (Heap.item_at (Heap.objects st) c k), st).
Proof.
  destruct c; try reflexivity.
  - cbn. destruct (Heap.str_subscript s k); reflexivity.
  - cbn. unfold Heap.bind, Heap.deref.
    destruct (Heap.obj_subscript (Heap.objects st l) k); reflexivity.
Qed.

Lemma type_of_run (c : Heap.ref) (st : Heap.state) :
  Heap.type_of c st = (Ok (Heap.class_at (Heap.objects st) c), st).
Proof. destruct c; reflexivity. Qed.

Lemma through_run (subs : list (string * key)) (c : Heap.ref) (st : Heap.state) :
  Heap.through subs c st = (Ok (Heap.through_at (Heap.objects st) subs c), st).
Proof.
  revert c; induction subs as [|[pname k] subs IH]; intros c; [reflexivity|].
  cbn [Heap.through Heap.through_at]. unfold Heap.bind at 1, Heap.attempt.
  rewrite subscript_run.
  destruct (Heap.item_at (Heap.objects st) c k) as [x|[]]; cbn [lift_py];
    try reflexivity; [apply IH|].
  unfold Heap.bind. rewrite type_of_run. reflexivity.
Qed.

Lemma pull_run (subs : list (string * key)) (pending : list Heap.ref)
    (st : Heap.state) :
  Heap.pull subs pending st = (Ok (Heap.pull_at (Heap.objects st) subs pending), st).
Proof.
  induction pending as [|c rest IH]; [reflexivity|].
  cbn [Heap.pull Heap.pull_at]. unfold Heap.bind. rewrite through_run.
  destruct (Heap.through_at (Heap.objects st) subs c); [reflexivity|exact IH|reflexivity].
Qed.

Lemma exhaust_run (subs : list (string * key)) (pending : list Heap.ref)
    (st : Heap.state) :
  Heap.exhaust subs pending st
  = (Ok (Heap.exhaust_at (Heap.objects st) subs pending), st).
Proof.
  induction pending as [|c rest IH]; [reflexivity|].
  cbn [Heap.exhaust Heap.exhaust_at]. unfold Heap.bind at 1. rewrite through_run.
  destruct (Heap.through_at (Heap.objects st) subs c); [|exact IH|reflexivity].
  unfold Heap.bind. rewrite IH. reflexivity.
Qed.

Lemma next_run (g : Heap.gen) (st : Heap.state) :
  Heap.next_ g st
  = (Ok (match g with
         | Heap.Unstarted v =>
             Heap.pull_at (Heap.objects st) (Heap.subscripts v)
                          (Heap.overlay st :: Heap.sources st)
         | Heap.Running subs pending =>
             Heap.pull_at (Heap.objects st) subs pending
         end), st).
Proof.
  destruct g as [v|subs pending]; cbn [Heap.next_]; [|apply pull_run].
  unfold Heap.bind, Heap.self_overlay, Heap.self_sources. apply pull_run.
Qed.

Lemma consume_run (g : Heap.gen) (st : Heap.state) :
  Heap.consume g st
  = (Ok (match g with
         | Heap.Unstarted v =>
             Heap.exhaust_at (Heap.objects st) (Heap.subscripts v)
                             (Heap.overlay st :: Heap.sources st)
         | Heap.Running subs pending =>
             Heap.exhaust_at (Heap.objects st) subs pending
         end), st).
Proof.
  destruct g as [v|subs pending]; cbn [Heap.consume]; [|apply exhaust_run].
  unfold Heap.bind, Heap.self_overlay, Heap.self_sources. apply exhaust_run.
Qed.

Lemma get_all_run (v : view) (st : Heap.state) :
  Heap.get_all v st
  = (Ok (match v with
         | Root => Heap.Running [] (Heap.overlay st :: Heap.sources st)
         | Sub _ _ => Heap.Unstarted v
         end), st).
Proof. destruct v; reflexivity. Qed.

(** The first candidate of a view in a state. *)
Lemma first_run (v : view) (st : Heap.state) :
  Heap.bind (Heap.get_all v) Heap.next_ st
  = (Ok (Heap.pull_at (Heap.objects st) (Heap.subscripts v)
                      (Heap.overlay st :: Heap.sources st)), st).
Proof.
  unfold Heap.bind. rewrite get_all_run. destruct v; rewrite next_run; reflexivity.
Qed.

Lemma get_run (v : view) (st : Heap.state) :
  Heap.get v Heap.NoConversion st
  = (match fst (Heap.pull_at (Heap.objects st) (Heap.subscripts v)
                             (Heap.overlay st :: Heap.sources st)) with
     | Heap.Yielded x => Ok x
     | Heap.StopIteration => Err (NotFoundError (name v ++ " not found"))
     | Heap.Raised e =>
         if is_ValueError e then Err (NotFoundError (name v ++ " not found"))
         else Err e
     end, st).
Proof.
  unfold Heap.get, Heap.bind at 1. rewrite get_all_run.
  unfold Heap.bind at 1, Heap.attempt, Heap.iter_first, Heap.bind at 1.
  assert (Heap.next_ (match v with
                      | Root => Heap.Running [] (Heap.overlay st :: Heap.sources st)
                      | Sub _ _ => Heap.Unstarted v
                      end) st
          = (Ok (Heap.pull_at (Heap.objects st) (Heap.subscripts v)
                              (Heap.overlay st :: Heap.sources st)), st)) as E.
  { destruct v; rewrite next_run; reflexivity. }
  rewrite E.
  destruct (Heap.pull_at _ _ _) as [[x| |e] g]; cbn [fst]; try reflexivity.
  unfold Heap.raise. destruct (is_ValueError e); reflexivity.
Qed.


(** ** The loops of the generators, one generator at a time *)

Lemma through_at_snoc (h : Heap.loc -> Heap.obj) (subs : list (string * key))
    (pname : string) (k : key) (c : Heap.ref) :
  Heap.through_at h (subs ++ [(pname, k)]) c
  = match Heap.through_at h subs c with
    | Heap.Item x => Heap.through_at h [(pname, k)] x
    | Heap.Skip => Heap.Skip
    | Heap.Fail e => Heap.Fail e
    end.
Proof.
  revert c; induction subs as [|[n k'] subs IH]; intros c; [reflexivity|].
  cbn [app Heap.through_at].
  destruct (Heap.item_at h c k') as [x|[]]; try reflexivity. apply IH.
Qed.

Lemma exhaust_at_snoc (h : Heap.loc -> Heap.obj) (subs : list (string * key))
    (pname : string) (k : key) (cs : list Heap.ref) :
  Heap.exhaust_at h (subs ++ [(pname, k)]) cs
  = Heap.Subview_get_all h pname k (fst (Heap.exhaust_at h subs cs))
                         (snd (Heap.exhaust_at h subs cs)).
Proof.
  induction cs as [|c cs IH]; [reflexivity|].
  cbn [Heap.exhaust_at]. rewrite through_at_snoc.
  destruct (Heap.through_at h subs c) as [x| |e]; [|exact IH|reflexivity].
  cbn [fst snd Heap.Subview_get_all Heap.through_at].
  destruct (Heap.item_at h x k) as [y|[]]; rewrite ?IH; reflexivity.
Qed.

Lemma exhaust_at_nil (h : Heap.loc -> Heap.obj) (cs : list Heap.ref) :
  Heap.exhaust_at h [] cs = (cs, None).
Proof.
  induction cs as [|c cs IH]; [reflexivity|].
  cbn [Heap.exhaust_at Heap.through_at]. rewrite IH. reflexivity.
Qed.

Lemma exhaust_at_candidates (h : Heap.loc -> Heap.obj) (cs : list Heap.ref)
    (v : view) :
  Heap.exhaust_at h (Heap.subscripts v) cs = Heap.candidates h cs v.
Proof.
  induction v as [|p IH k]; cbn [Heap.subscripts Heap.candidates].
  - apply exhaust_at_nil.
  - rewrite exhaust_at_snoc, IH. reflexivity.
Qed.

(** What [next] yields first is the head of what [list] gives. *)
Lemma pull_at_exhaust_at (h : Heap.loc -> Heap.obj) (subs : list (string * key))
    (cs : list Heap.ref) :
  fst (Heap.pull_at h subs cs)
  = match Heap.exhaust_at h subs cs with
    | (x :: _, _) => Heap.Yielded x
    | ([], None) => Heap.StopIteration
    | ([], Some e) => Heap.Raised e
    end.
Proof.
  induction cs as [|c cs IH]; [reflexivity|].
  cbn [Heap.pull_at Heap.exhaust_at].
  destruct (Heap.through_at h subs c); [reflexivity|exact IH|reflexivity].
Qed.

(** ** Paths in a store *)

Lemma subscripts_path (v : view) : map snd (Heap.subscripts v) = path v.
Proof.
  induction v as [|p IH k]; [reflexivity|].
  cbn [Heap.subscripts path]. rewrite map_app, IH. reflexivity.
Qed.

Lemma through_at_walk (h : Heap.loc -> Heap.obj) (subs : list (string * key))
    (c x : Heap.ref) :
  Heap.walk h c (map snd subs) = Ok x -> Heap.through_at h subs c = Heap.Item x.
Proof.
  revert c; induction subs as [|[n k] subs IH]; intros c; cbn.
  - intros H; injection H as ->. reflexivity.
  - destruct (Heap.item_at h c k) as [y|e]; cbn; [apply IH | discriminate].
Qed.

Lemma walk_snoc (h : Heap.loc -> Heap.obj) (c : Heap.ref) (p : list key) (k : key) :
  Heap.walk h c (p ++ [k])
  = rbind (Heap.walk h c p) (fun c' => Heap.item_at h c' k).
Proof.
  revert c; induction p as [|k0 p IH]; intros c; cbn.
  - destruct (Heap.item_at h c k); reflexivity.
  - destruct (Heap.item_at h c k0); cbn; [apply IH | reflexivity].
Qed.

Lemma nodes_snoc (h : Heap.loc -> Heap.obj) (c : Heap.ref) (p : list key) (k : key) :
  Heap.nodes h c (p ++ [k])
  = (Heap.nodes h c p
     ++ match Heap.walk h c p with Ok c' => Heap.loc_of c' | Err _ => [] end)%list.
Proof.
  revert c; induction p as [|k0 p IH]; intros c; cbn.
  - destruct (Heap.item_at h c k); rewrite app_nil_r; reflexivity.
  - destruct (Heap.item_at h c k0) as [c'|e]; cbn.
    + rewrite IH, app_assoc. reflexivity.
    + rewrite !app_nil_r. reflexivity.
Qed.

Lemma item_at_agree (h h' : Heap.loc -> Heap.obj) (c : Heap.ref) (k : key) :
  (forall l, In l (Heap.loc_of c) -> h' l = h l) ->
  Heap.item_at h' c k = Heap.item_at h c k.
Proof.
  intros H. destruct c; try reflexivity. cbn. rewrite (H l); [reflexivity|].
  left; reflexivity.
Qed.

Lemma class_at_agree (h h' : Heap.loc -> Heap.obj) (c : Heap.ref) :
  (forall l, In l (Heap.loc_of c) -> h' l = h l) ->
  Heap.class_at h' c = Heap.class_at h c.
Proof.
  intros H. destruct c; try reflexivity. cbn. rewrite (H l); [reflexivity|].
  left; reflexivity.
Qed.

Lemma walk_agree (h h' : Heap.loc -> Heap.obj) (p : list key) (c : Heap.ref) :
  (forall l, In l (Heap.nodes h c p) -> h' l = h l) ->
  Heap.walk h' c p = Heap.walk h c p /\ Heap.nodes h' c p = Heap.nodes h c p.
Proof.
  revert c; induction p as [|k p IH]; intros c H; [split; reflexivity|].
  cbn [Heap.walk Heap.nodes] in *.
  rewrite (item_at_agree h h' c k)
    by (intros l Hl; apply H, in_or_app; left; exact Hl).
  destruct (Heap.item_at h c k) as [c'|e]; cbn [rbind]; [|split; reflexivity].
  destruct (IH c') as [Hw Hn].
  { intros l Hl. apply H, in_or_app. right; exact Hl. }
  rewrite Hw, Hn. split; reflexivity.
Qed.

Lemma through_at_agree (h h' : Heap.loc -> Heap.obj) (subs : list (string * key))
    (c : Heap.ref) :
  (forall l, In l (Heap.nodes h c (map snd subs)) -> h' l = h l) ->
  Heap.through_at h' subs c = Heap.through_at h subs c.
Proof.
  revert c; induction subs as [|[n k] subs IH]; intros c H; [reflexivity|].
  cbn [Heap.through_at map snd Heap.nodes] in *.
  assert (forall l, In l (Heap.loc_of c) -> h' l = h l) as Hc.
  { intros l Hl. apply H, in_or_app. left; exact Hl. }
  rewrite (item_at_agree h h' c k Hc), (class_at_agree h h' c Hc).
  destruct (Heap.item_at h c k) as [c'|[]]; try reflexivity.
  apply IH. intros l Hl. apply H, in_or_app. right; exact Hl.
Qed.

Lemma exhaust_at_agree (h h' : Heap.loc -> Heap.obj) (subs : list (string * key))
    (cs : list Heap.ref) :
  Forall (fun c => forall l, In l (Heap.nodes h c (map snd subs)) -> h' l = h l)
         cs ->
  Heap.exhaust_at h' subs cs = Heap.exhaust_at h subs cs.
Proof.
  induction 1 as [|c cs Hc _ IH]; [reflexivity|].
  cbn [Heap.exhaust_at]. rewrite (through_at_agree h h' subs c Hc), IH.
  reflexivity.
Qed.

Lemma pull_at_agree (h h' : Heap.loc -> Heap.obj) (subs : list (string * key))
    (cs : list Heap.ref) :
  Forall (fun c => forall l, In l (Heap.nodes h c (map snd subs)) -> h' l = h l)
         cs ->
  Heap.pull_at h' subs cs = Heap.pull_at h subs cs.
Proof.
  induction 1 as [|c cs Hc _ IH]; [reflexivity|].
  cbn [Heap.pull_at]. rewrite (through_at_agree h h' subs c Hc), IH.
  reflexivity.
Qed.

(** ** References and the objects created *)

Lemma wf_inv (st : Heap.state) :
  Heap.wf st = true ->
  Heap.allocated (Heap.next st) (Heap.overlay st) = true /\
  Forall (fun c => Heap.allocated (Heap.next st) c = true) (Heap.sources st) /\
  Heap.closed (Heap.objects st) (Heap.next st).
Proof.
  unfold Heap.wf. rewrite !andb_true_iff, !forallb_forall.
  intros [[Ho Hs] Hc]. split; [exact Ho|]. split.
  - apply List.Forall_forall. exact Hs.
  - intros l Hl. apply List.Forall_forall. rewrite <- forallb_forall.
    apply Hc, in_seq. lia.
Qed.


Lemma allocated_mono (n n' : Heap.loc) (c : Heap.ref) :
  (n <= n')%nat -> Heap.allocated n c = true -> Heap.allocated n' c = true.
Proof.
  destruct c; cbn; auto. rewrite !bool_decide_eq_true. lia.
Qed.

Lemma allocated_lt (n l : Heap.loc) :
  Heap.allocated n (Heap.RObj l) = true <-> (l < n)%nat.
Proof. cbn. apply bool_decide_eq_true. Qed.

Lemma lookup_key_in (d : list (key * Heap.ref)) (k : key) (x : Heap.ref) :
  Heap.lookup_key d k = Some x -> In x (map snd d).
Proof.
  induction d as [|[k' v] d IH]; cbn; [discriminate|].
  destruct (decide (k' = k)); [intros H; injection H as ->; left; reflexivity|].
  intros H; right; auto.
Qed.

Lemma obj_subscript_in (o : Heap.obj) (k : key) (x : Heap.ref) :
  Heap.obj_subscript o k = Ok x -> In x (Heap.refs_of o).
Proof.
  destruct o as [d|l]; cbn.
  - destruct (Heap.lookup_key d k) as [v|] eqn:E; [|discriminate].
    intros H; injection H as <-. apply (lookup_key_in _ _ _ E).
  - destruct k as [i|s]; [|discriminate].
    destruct (norm_index (length l) i) as [n|]; [|discriminate].
    destruct (l !! n) as [v|] eqn:E; [|discriminate].
    intros H; injection H as <-.
    apply list_elem_of_In, (list_elem_of_lookup_2 _ _ _ E).
Qed.

Lemma closed_item (h : Heap.loc -> Heap.obj) (n : Heap.loc) (c x : Heap.ref)
    (k : key) :
  Heap.closed h n -> Heap.allocated n c = true ->
  Heap.item_at h c k = Ok x -> Heap.allocated n x = true.
Proof.
  intros Hc Ha. destruct c; cbn; try discriminate.
  - destruct k as [i|t]; cbn; [|discriminate].
    destruct (norm_index _ i); [|discriminate].
    destruct (string_nth s n0); [|discriminate].
    intros H; injection H as <-. reflexivity.
  - intros H. apply obj_subscript_in in H. apply allocated_lt in Ha.
    pose proof (Hc l Ha) as HF. rewrite List.Forall_forall in HF. auto.
Qed.


Lemma closed_nodes (h : Heap.loc -> Heap.obj) (n : Heap.loc) (p : list key)
    (c : Heap.ref) (l : Heap.loc) :
  Heap.closed h n -> Heap.allocated n c = true ->
  In l (Heap.nodes h c p) -> (l < n)%nat.
Proof.
  intros Hc. revert c; induction p as [|k p IH]; intros c Ha; cbn; [tauto|].
  intros H. apply in_app_or in H as [H|H].
  - destruct c; cbn in H; try tauto. destruct H as [<-|[]].
    apply allocated_lt, Ha.
  - destruct (Heap.item_at h c k) as [c'|e] eqn:E; [|destruct H].
    apply (IH c'); [|exact H]. apply (closed_item _ _ _ _ _ Hc Ha E).
Qed.

Lemma lookup_set_key_eq (d : list (key * Heap.ref)) (k : key) (x : Heap.ref) :
  Heap.lookup_key (Heap.set_key d k x) k = Some x.
Proof.
  induction d as [|[k' v] d IH]; cbn.
  - destruct (decide (k = k)); congruence.
  - destruct (decide (k' = k)) as [->|Hne]; cbn.
    + destruct (decide (k = k)); congruence.
    + destruct (decide (k' = k)); [contradiction | exact IH].
Qed.

Lemma lookup_set_key_ne (d : list (key * Heap.ref)) (k k' : key) (x : Heap.ref) :
  k <> k' -> Heap.lookup_key (Heap.set_key d k x) k' = Heap.lookup_key d k'.
Proof.
  intros Hne. induction d as [|[k0 v] d IH]; cbn.
  - destruct (decide (k = k')); [contradiction | reflexivity].
  - destruct (decide (k0 = k)) as [->|Hk]; cbn.
    + destruct (decide (k = k')); [contradiction | reflexivity].
    + destruct (decide (k0 = k')); [reflexivity | exact IH].
Qed.

Lemma obj_subscript_store (o o' : Heap.obj) (k : key) (x : Heap.ref) :
  Heap.obj_store o k x = Ok o' -> Heap.obj_subscript o' k = Ok x.
Proof.
  destruct o as [d|l]; cbn.
  - intros H; injection H as <-. cbn. rewrite lookup_set_key_eq. reflexivity.
  - destruct k as [i|s]; [|discriminate].
    destruct (norm_index (length l) i) as [n|] eqn:E; [|discriminate].
    intros H; injection H as <-. cbn. rewrite length_insert, E.
    rewrite list_lookup_insert_eq; [reflexivity|].
    apply (norm_index_lt _ _ _ E).
Qed.

Lemma set_key_refs (d : list (key * Heap.ref)) (k : key) (x r : Heap.ref) :
  In r (map snd (Heap.set_key d k x)) -> r = x \/ In r (map snd d).
Proof.
  induction d as [|[k' v] d IH]; cbn.
  - intros [<-|[]]. left; reflexivity.
  - destruct (decide (k' = k)); cbn.
    + intros [<-|H]; [left; reflexivity | right; right; exact H].
    + intros [<-|H]; [right; left; reflexivity|].
      destruct (IH H); [left | right; right]; assumption.
Qed.

Lemma obj_store_refs (o o' : Heap.obj) (k : key) (x r : Heap.ref) :
  Heap.obj_store o k x = Ok o' ->
  In r (Heap.refs_of o') -> r = x \/ In r (Heap.refs_of o).
Proof.
  destruct o as [d|l]; cbn.
  - intros H; injection H as <-. apply set_key_refs.
  - destruct k as [i|s]; [|discriminate].
    destruct (norm_index (length l) i) as [n|] eqn:E; [|discriminate].
    intros H; injection H as <-. cbn. intros Hin.
    apply list_elem_of_In, list_elem_of_lookup in Hin as [j Hj].
    destruct (decide (n = j)) as [->|Hne].
    + rewrite list_lookup_insert_eq in Hj by (apply (norm_index_lt _ _ _ E)).
      injection Hj as <-. left; reflexivity.
    + rewrite list_lookup_insert_ne in Hj by exact Hne.
      right. apply list_elem_of_In, (list_elem_of_lookup_2 _ _ _ Hj).
Qed.

Lemma set_obj_eq (h : Heap.loc -> Heap.obj) (l : Heap.loc) (o : Heap.obj) :
  Heap.set_obj h l o l = o.
Proof. unfold Heap.set_obj. destruct (decide (l = l)); congruence. Qed.

Lemma set_obj_ne (h : Heap.loc -> Heap.obj) (l l' : Heap.loc) (o : Heap.obj) :
  l' <> l -> Heap.set_obj h l o l' = h l'.
Proof. intros H. unfold Heap.set_obj. destruct (decide (l' = l)); congruence. Qed.

Lemma closed_mono (h : Heap.loc -> Heap.obj) (n : Heap.loc) (l : Heap.loc) :
  Heap.closed h n -> (l < n)%nat ->
  Forall (fun r => Heap.allocated (S n) r = true) (Heap.refs_of (h l)).
Proof.
  intros Hc Hl. eapply List.Forall_impl; [|apply (Hc l Hl)].
  intros r. apply allocated_mono. lia.
Qed.

(** The store after a write into an object that exists. *)
Lemma closed_assign (h : Heap.loc -> Heap.obj) (n n0 : Heap.loc)
    (o' : Heap.obj) (k : key) (x : Heap.ref) :
  Heap.closed h n -> Heap.allocated n x = true ->
  Heap.obj_store (h n0) k x = Ok o' -> (n0 < n)%nat ->
  Heap.closed (Heap.set_obj h n0 o') n.
Proof.
  intros Hc Hx Hs Hn l Hl. destruct (decide (l = n0)) as [->|Hne].
  - rewrite set_obj_eq. apply List.Forall_forall. intros r Hr.
    destruct (obj_store_refs _ _ _ _ _ Hs Hr) as [->|Hin]; [exact Hx|].
    pose proof (Hc n0 Hn) as HF. rewrite List.Forall_forall in HF. auto.
  - rewrite set_obj_ne by exact Hne. apply (Hc l Hl).
Qed.

(** The store after [node[k] = {}]. *)
Lemma closed_fresh (h : Heap.loc -> Heap.obj) (n n0 : Heap.loc)
    (o' : Heap.obj) (k : key) :
  Heap.closed h n -> (n0 < n)%nat ->
  Heap.obj_store (h n0) k (Heap.RObj n) = Ok o' ->
  Heap.closed (Heap.set_obj (Heap.set_obj h n (Heap.ODict [])) n0 o') (S n).
Proof.
  intros Hc Hn Hs l Hl. destruct (decide (l = n0)) as [->|Hne].
  - rewrite set_obj_eq. apply List.Forall_forall. intros r Hr.
    destruct (obj_store_refs _ _ _ _ _ Hs Hr) as [->|Hin].
    + apply allocated_lt. lia.
    + pose proof (closed_mono h n n0 Hc Hn) as HF.
      rewrite List.Forall_forall in HF. auto.
  - rewrite set_obj_ne by exact Hne. destruct (decide (l = n)) as [->|Hne'].
    + rewrite set_obj_eq. constructor.
    + rewrite set_obj_ne by exact Hne'. apply closed_mono; [exact Hc | lia].
Qed.

(** ** The [overlay] property, one level at a time *)

Lemma contains_run (l : Heap.loc) (k : key) (st : Heap.state) :
  Heap.contains (Heap.RObj l) k st
  = (Ok (Heap.obj_contains (Heap.objects st l) k), st).
Proof. reflexivity. Qed.

Lemma store_run (l : Heap.loc) (k : key) (x : Heap.ref) (st : Heap.state) :
  Heap.store (Heap.RObj l) k x st
  = match Heap.obj_store (Heap.objects st l) k x with
    | Ok o' =>
        (Ok tt, {| Heap.sources := Heap.sources st;
                   Heap.overlay := Heap.overlay st;
                   Heap.objects := Heap.set_obj (Heap.objects st) l o';
                   Heap.next := Heap.next st |})
    | Err e => (Err (Builtin e), st)
    end.
Proof.
  cbn [Heap.store]. unfold Heap.bind, Heap.deref.
  destruct (Heap.obj_store (Heap.objects st l) k x); reflexivity.
Qed.

(** What the body of the property does once the node of the parent is known:
    it hands out what the node has under the key, or stores a new dict there
    and hands that out. *)
Lemma overlay_step (po node : Heap.ref) (k : key) (st0 st1 : Heap.state) :
  Heap.allocated (Heap.next st0) po = true ->
  Heap.bind (Heap.contains po k) (fun present =>
    Heap.bind (if negb present
               then Heap.bind Heap.new_dict (fun fresh => Heap.store po k fresh)
               else Heap.ret tt)
              (fun _ => Heap.subscript po k)) st0 = (Ok node, st1) ->
  exists n0,
    po = Heap.RObj n0 /\
    ((st1 = st0 /\ Heap.obj_contains (Heap.objects st0 n0) k = true /\
      Heap.item_at (Heap.objects st0) po k = Ok node)
     \/
     (Heap.obj_contains (Heap.objects st0 n0) k = false /\
      node = Heap.RObj (Heap.next st0) /\
      exists o',
        Heap.obj_store (Heap.objects st0 n0) k (Heap.RObj (Heap.next st0)) = Ok o' /\
        st1 = {| Heap.sources := Heap.sources st0;
                 Heap.overlay := Heap.overlay st0;
                 Heap.objects :=
                   Heap.set_obj
                     (Heap.set_obj (Heap.objects st0) (Heap.next st0) (Heap.ODict []))
                     n0 o';
                 Heap.next := S (Heap.next st0) |})).
Proof.
  intros Ha. destruct po as [| | |s|n0]; try (cbn; discriminate).
  - unfold Heap.bind at 1. cbn [Heap.contains].
    destruct k as [i|t]; cbn [Heap.str_contains Heap.py Heap.raise Heap.ret];
      [discriminate|].
    destruct (is_substring t s); cbn [negb].
    + unfold Heap.bind, Heap.ret. rewrite subscript_run. cbn. discriminate.
    + unfold Heap.bind, Heap.new_dict. cbn. discriminate.
  - apply allocated_lt in Ha. intros H. exists n0. split; [reflexivity|].
    unfold Heap.bind at 1 in H. rewrite contains_run in H.
    destruct (Heap.obj_contains (Heap.objects st0 n0) k) eqn:Hc; cbn [negb] in H.
    + unfold Heap.bind, Heap.ret in H. rewrite subscript_run in H.
      destruct (Heap.item_at (Heap.objects st0) (Heap.RObj n0) k) as [x|e] eqn:E;
        cbn [lift_py] in H; [|discriminate].
      injection H as <- <-. left. auto.
    + unfold Heap.bind, Heap.new_dict in H. rewrite store_run in H.
      cbn [Heap.sources Heap.overlay Heap.objects Heap.next] in H.
      rewrite set_obj_ne in H by lia.
      destruct (Heap.obj_store (Heap.objects st0 n0) k (Heap.RObj (Heap.next st0)))
        as [o'|e] eqn:Hs; [|discriminate].
      rewrite subscript_run in H. cbn [Heap.objects Heap.item_at] in H.
      rewrite set_obj_eq, (obj_subscript_store _ _ _ _ Hs) in H.
      cbn [lift_py] in H.
      injection H as <- <-. right.
      split; [reflexivity|]. split; [reflexivity|]. exists o'. auto.
Qed.

Lemma nodes_snoc_ok (h : Heap.loc -> Heap.obj) (c : Heap.ref) (p : list key)
    (k : key) (n : Heap.loc) :
  Heap.walk h c p = Ok (Heap.RObj n) ->
  Heap.nodes h c (p ++ [k]) = (Heap.nodes h c p ++ [n])%list.
Proof. intros H. rewrite nodes_snoc, H. reflexivity. Qed.

Lemma nodes_prefix (h : Heap.loc -> Heap.obj) (c : Heap.ref) (p : list key)
    (k : key) (l : Heap.loc) :
  In l (Heap.nodes h c p) -> In l (Heap.nodes h c (p ++ [k])).
Proof. intros H. rewrite nodes_snoc. apply in_or_app. left; exact H. Qed.

Lemma NoDup_nodes_prefix (h : Heap.loc -> Heap.obj) (c : Heap.ref)
    (p : list key) (k : key) :
  NoDup (Heap.nodes h c (p ++ [k])) -> NoDup (Heap.nodes h c p).
Proof. rewrite nodes_snoc. intros H. apply NoDup_app in H. tauto. Qed.

Lemma NoDup_nodes_last (h : Heap.loc -> Heap.obj) (c : Heap.ref)
    (p : list key) (k : key) (n : Heap.loc) :
  NoDup (Heap.nodes h c (p ++ [k])) ->
  Heap.walk h c p = Ok (Heap.RObj n) ->
  ~ In n (Heap.nodes h c p).
Proof.
  intros H Hw. rewrite (nodes_snoc_ok _ _ _ _ _ Hw) in H.
  apply NoDup_app in H as (_ & H & _). intros Hin.
  apply list_elem_of_In in Hin. apply (H n Hin). left.
Qed.

(** What the property has done when it hands out a node.  The objects the
    path went through in the overlay are taken to be distinct. *)
Lemma overlay_of_spec (v : view) :
  forall (st st1 : Heap.state) (node : Heap.ref),
    Heap.closed (Heap.objects st) (Heap.next st) ->
    Heap.allocated (Heap.next st) (Heap.overlay st) = true ->
    NoDup (Heap.nodes (Heap.objects st) (Heap.overlay st) (path v)) ->
    Heap.overlay_of v st = (Ok node, st1) ->
    Heap.sources st1 = Heap.sources st /\
    Heap.overlay st1 = Heap.overlay st /\
    (Heap.next st <= Heap.next st1)%nat /\
    Heap.closed (Heap.objects st1) (Heap.next st1) /\
    Heap.allocated (Heap.next st1) node = true /\
    Heap.walk (Heap.objects st1) (Heap.overlay st) (path v) = Ok node /\
    (forall l, (l < Heap.next st)%nat ->
       ~ In l (Heap.nodes (Heap.objects st) (Heap.overlay st) (path v)) ->
       Heap.objects st1 l = Heap.objects st l) /\
    (st1 = st \/
     exists m, node = Heap.RObj m /\ (Heap.next st <= m)%nat /\
               Heap.objects st1 m = Heap.ODict [] /\
               ~ In m (Heap.nodes (Heap.objects st1) (Heap.overlay st) (path v))).
Proof.
  induction v as [|p IH k]; intros st st1 node Hcl Hao Hnd.
  - cbn. intros H; injection H as <- <-.
    repeat split; auto.
  - cbn [Heap.overlay_of path]. unfold Heap.bind at 1.
    destruct (Heap.overlay_of p st) as [[po|e] st0] eqn:Hp; [|discriminate].
    cbn [path] in Hnd.
    destruct (IH st st0 po Hcl Hao (NoDup_nodes_prefix _ _ _ _ Hnd) Hp)
      as (Hs0 & Ho0 & Hn0 & Hcl0 & Hapo & Hw0 & Hfr0 & HAB).
    intros Hstep. apply (overlay_step po node k st0 st1 Hapo) in Hstep.
    destruct Hstep as (n0 & -> & Hstep).
    pose proof (proj1 (allocated_lt _ _) Hapo) as Hn0lt.
    assert (Heap.allocated (Heap.next st0) (Heap.overlay st) = true) as Hao0.
    { apply (allocated_mono _ _ _ Hn0 Hao). }
    destruct Hstep as [(-> & Hc & Hi)|(Hc & -> & o' & Hst & ->)].
    + (* the node has the key *)
      split; [exact Hs0|]. split; [exact Ho0|]. split; [exact Hn0|].
      split; [exact Hcl0|].
      split; [apply (closed_item _ _ _ _ _ Hcl0 Hapo Hi)|].
      split; [rewrite walk_snoc, Hw0; exact Hi|].
      split.
      { intros l Hl Hnin. apply Hfr0; [exact Hl|].
        intros Hin. apply Hnin, nodes_prefix, Hin. }
      destruct HAB as [->|(m & Hm & Hle & Hobj & Hnin)]; [left; reflexivity|].
      injection Hm as ->. rewrite Hobj in Hc. discriminate Hc.
    + (* a new dict is stored under the key *)
      cbn [Heap.sources Heap.overlay Heap.objects Heap.next].
      assert (forall l, In l (Heap.nodes (Heap.objects st0) (Heap.overlay st) (path p)) ->
                        l <> n0) as Hdist.
      { destruct HAB as [->|(m & Hm & Hle & Hobj & Hnin)].
        - intros l Hin ->. apply (NoDup_nodes_last _ _ _ _ _ Hnd Hw0 Hin).
        - injection Hm as ->. intros l Hin ->. exact (Hnin Hin). }
      assert (forall l, In l (Heap.nodes (Heap.objects st0) (Heap.overlay st) (path p)) ->
                Heap.set_obj
                  (Heap.set_obj (Heap.objects st0) (Heap.next st0) (Heap.ODict []))
                  n0 o' l = Heap.objects st0 l) as Hagree.
      { intros l Hin. pose proof (closed_nodes _ _ _ _ _ Hcl0 Hao0 Hin) as Hlt.
        rewrite set_obj_ne by (apply (Hdist l Hin)).
        rewrite set_obj_ne by lia. reflexivity. }
      destruct (walk_agree _ _ _ _ Hagree) as [Hw1 Hnodes1].
      split; [exact Hs0|]. split; [exact Ho0|]. split; [lia|].
      split; [apply (closed_fresh _ _ _ _ _ Hcl0 Hn0lt Hst)|].
      split; [apply allocated_lt; lia|].
      split.
      { rewrite walk_snoc, Hw1, Hw0. cbn [rbind Heap.item_at].
        rewrite set_obj_eq. apply (obj_subscript_store _ _ _ _ Hst). }
      split.
      { intros l Hl Hnin.
        assert (l <> n0) as Hne.
        { destruct HAB as [->|(m & Hm & Hle & Hobj & Hnin')].
          - intros ->. apply Hnin. rewrite (nodes_snoc_ok _ _ _ _ _ Hw0).
            apply in_or_app. right. left. reflexivity.
          - injection Hm as ->. lia. }
        rewrite set_obj_ne by exact Hne. rewrite set_obj_ne by lia.
        apply Hfr0; [exact Hl|]. intros Hin. apply Hnin, nodes_prefix, Hin. }
      right. exists (Heap.next st0). split; [reflexivity|]. split; [lia|].
      split.
      { rewrite set_obj_ne by lia. apply set_obj_eq. }
      rewrite nodes_snoc, Hnodes1, Hw1, Hw0. cbn [Heap.loc_of].
      intros Hin. apply in_app_or in Hin as [Hin|[->|[]]].
      * pose proof (closed_nodes _ _ _ _ _ Hcl0 Hao0 Hin). lia.
      * lia.
Qed.

(** ** Assignments through a view *)

(** What an assignment that completes has done. *)
Lemma setitem_spec (st st' : Heap.state) (v : view) (k : key) (x : Heap.ref) :
  Heap.closed (Heap.objects st) (Heap.next st) ->
  Heap.allocated (Heap.next st) (Heap.overlay st) = true ->
  NoDup (Heap.nodes (Heap.objects st) (Heap.overlay st) (path v ++ [k])) ->
  Heap.__setitem__ v k x st = (Ok tt, st') ->
  Heap.sources st' = Heap.sources st /\
  Heap.overlay st' = Heap.overlay st /\
  (Heap.next st <= Heap.next st')%nat /\
  (exists n, Heap.walk (Heap.objects st') (Heap.overlay st) (path v)
             = Ok (Heap.RObj n) /\
             Heap.item_at (Heap.objects st') (Heap.RObj n) k = Ok x) /\
  (forall l, (l < Heap.next st)%nat ->
     ~ In l (Heap.nodes (Heap.objects st) (Heap.overlay st) (path v ++ [k])) ->
     Heap.objects st' l = Heap.objects st l) /\
  (Heap.allocated (Heap.next st) x = true ->
   Heap.closed (Heap.objects st') (Heap.next st')).
Proof.
  intros Hcl Hao Hnd. unfold Heap.__setitem__, Heap.bind.
  destruct (Heap.overlay_of v st) as [[node|e] st1] eqn:Hov; [|discriminate].
  destruct (overlay_of_spec v st st1 node Hcl Hao (NoDup_nodes_prefix _ _ _ _ Hnd) Hov)
    as (Hs & Ho & Hn & Hcl1 & Han & Hw & Hfr & HAB).
  destruct node as [| | | |n]; try (cbn; discriminate).
  rewrite store_run.
  destruct (Heap.obj_store (Heap.objects st1 n) k x) as [o'|e] eqn:Hst;
    [|discriminate].
  intros H; injection H as <-.
  cbn [Heap.sources Heap.overlay Heap.objects Heap.next].
  pose proof (proj1 (allocated_lt _ _) Han) as Hnlt.
  assert (~ In n (Heap.nodes (Heap.objects st1) (Heap.overlay st) (path v))) as Hnin.
  { destruct HAB as [->|(m & Hm & _ & _ & Hnin)].
    - apply (NoDup_nodes_last _ _ _ _ _ Hnd Hw).
    - injection Hm as ->. exact Hnin. }
  destruct (walk_agree (Heap.objects st1) (Heap.set_obj (Heap.objects st1) n o')
                       (path v) (Heap.overlay st)) as [Hw' _].
  { intros l Hin. apply set_obj_ne. intros ->. exact (Hnin Hin). }
  split; [exact Hs|]. split; [exact Ho|]. split; [exact Hn|]. split; [|split].
  - exists n. rewrite Hw', Hw. split; [reflexivity|].
    cbn [Heap.item_at]. rewrite set_obj_eq.
    apply (obj_subscript_store _ _ _ _ Hst).
  - intros l Hl Hnl.
    assert (l <> n) as Hne.
    { destruct HAB as [->|(m & Hm & Hle & _ & _)].
      - intros ->. apply Hnl. rewrite (nodes_snoc_ok _ _ _ _ _ Hw).
        apply in_or_app. right. left. reflexivity.
      - injection Hm as ->. lia. }
    rewrite set_obj_ne by exact Hne. apply Hfr; [exact Hl|].
    intros Hin. apply Hnl, nodes_prefix, Hin.
  - intros Hx. apply (closed_assign _ _ _ _ k x Hcl1); [|exact Hst|exact Hnlt].
    apply (allocated_mono _ _ _ Hn Hx).
Qed.

(** The value is then what the path of the subview leads to in the overlay,
    and the first candidate of the subview. *)
Lemma setitem_walk (st st' : Heap.state) (v : view) (k : key) (x : Heap.ref) :
  Heap.closed (Heap.objects st) (Heap.next st) ->
  Heap.allocated (Heap.next st) (Heap.overlay st) = true ->
  NoDup (Heap.nodes (Heap.objects st) (Heap.overlay st) (path v ++ [k])) ->
  Heap.__setitem__ v k x st = (Ok tt, st') ->
  Heap.walk (Heap.objects st') (Heap.overlay st') (path (Sub v k)) = Ok x.
Proof.
  intros Hcl Hao Hnd H.
  destruct (setitem_spec _ _ _ _ _ Hcl Hao Hnd H)
    as (_ & Ho & _ & (n & Hw & Hi) & _).
  cbn [path]. rewrite walk_snoc, Ho, Hw. exact Hi.
Qed.

Lemma pull_at_overlay (h : Heap.loc -> Heap.obj) (v : view) (o x : Heap.ref)
    (srcs : list Heap.ref) :
  Heap.walk h o (path v) = Ok x ->
  Heap.pull_at h (Heap.subscripts v) (o :: srcs)
  = (Heap.Yielded x, Heap.Running (Heap.subscripts v) srcs).
Proof.
  intros H. cbn [Heap.pull_at].
  rewrite (through_at_walk h (Heap.subscripts v) o x); [reflexivity|].
  rewrite subscripts_path. exact H.
Qed.

Lemma get_after_write (st : Heap.state) (v : view) (x : Heap.ref) :
  Heap.walk (Heap.objects st) (Heap.overlay st) (path v) = Ok x ->
  Heap.get v Heap.NoConversion st = (Ok x, st).
Proof.
  intros H. rewrite get_run, (pull_at_overlay _ _ _ _ _ H). reflexivity.
Qed.

(** *** Along mappings an assignment completes *)

Lemma mapping_path_snoc (h : Heap.loc -> Heap.obj) (p : list key) (k : key)
    (c : Heap.ref) :
  Heap.mapping_path h c (p ++ [k]) = true ->
  Heap.mapping_path h c p = true /\
  (forall n d c', Heap.walk h c p = Ok (Heap.RObj n) -> h n = Heap.ODict d ->
                  Heap.lookup_key d k = Some c' ->
                  exists n' d', c' = Heap.RObj n' /\ h n' = Heap.ODict d').
Proof.
  revert c; induction p as [|k0 p IH]; intros c; cbn [app Heap.mapping_path].
  - destruct c as [| | | |l]; try discriminate.
    destruct (h l) as [d|] eqn:Hl; [|discriminate].
    intros H. split; [reflexivity|].
    intros n d0 c' Hw Hn Hk. cbn in Hw. injection Hw as <-.
    rewrite Hl in Hn. injection Hn as <-. rewrite Hk in H.
    destruct c' as [| | | |n']; cbn in H; try discriminate.
    destruct (h n') as [d'|] eqn:Hn'; [|discriminate]. eauto.
  - destruct c as [| | | |l]; try discriminate.
    destruct (h l) as [d|] eqn:Hl; [|discriminate].
    destruct (Heap.lookup_key d k0) as [c0|] eqn:Hk0.
    + intros H. destruct (IH c0 H) as [Hm Hc]. split; [exact Hm|].
      intros n d0 c' Hw. cbn [Heap.walk Heap.item_at] in Hw.
      rewrite Hl in Hw. cbn [Heap.obj_subscript] in Hw. rewrite Hk0 in Hw.
      cbn [rbind] in Hw. apply (Hc n d0 c' Hw).
    + intros _. split; [reflexivity|].
      intros n d0 c' Hw. cbn [Heap.walk Heap.item_at] in Hw.
      rewrite Hl in Hw. cbn [Heap.obj_subscript] in Hw. rewrite Hk0 in Hw.
      discriminate Hw.
Qed.

Lemma overlay_of_mapping (v : view) :
  forall st : Heap.state,
    Heap.closed (Heap.objects st) (Heap.next st) ->
    Heap.allocated (Heap.next st) (Heap.overlay st) = true ->
    NoDup (Heap.nodes (Heap.objects st) (Heap.overlay st) (path v)) ->
    Heap.mapping_path (Heap.objects st) (Heap.overlay st) (path v) = true ->
    exists n st1 d,
      Heap.overlay_of v st = (Ok (Heap.RObj n), st1) /\
      Heap.objects st1 n = Heap.ODict d.
Proof.
  induction v as [|p IH k]; intros st Hcl Hao Hnd Hm.
  - cbn in Hm. destruct (Heap.overlay st) as [| | | |l] eqn:Ho; try discriminate.
    destruct (Heap.objects st l) as [d|] eqn:Hl; [|discriminate].
    exists l, st, d. split; [|exact Hl].
    cbn. unfold Heap.self_overlay. rewrite Ho. reflexivity.
  - cbn [path] in Hm, Hnd. destruct (mapping_path_snoc _ _ _ _ Hm) as [Hmp Hchild].
    destruct (IH st Hcl Hao (NoDup_nodes_prefix _ _ _ _ Hnd) Hmp)
      as (n0 & st0 & d0 & Hp & Hd0).
    destruct (overlay_of_spec p st st0 _ Hcl Hao (NoDup_nodes_prefix _ _ _ _ Hnd) Hp)
      as (_ & _ & _ & _ & Han & Hw & _ & HAB).
    apply allocated_lt in Han.
    cbn [Heap.overlay_of]. unfold Heap.bind at 1. rewrite Hp.
    unfold Heap.bind at 1. rewrite contains_run, Hd0.
    cbn [Heap.obj_contains].
    destruct (Heap.lookup_key d0 k) as [c|] eqn:Hk.
    + rewrite bool_decide_eq_true_2 by eauto. cbn [negb].
      unfold Heap.bind, Heap.ret. rewrite subscript_run.
      cbn [Heap.item_at]. rewrite Hd0. cbn [Heap.obj_subscript]. rewrite Hk.
      cbn [lift_py].
      destruct HAB as [->|(m & Hm' & _ & Hobj & _)].
      * destruct (Hchild n0 d0 c Hw Hd0 Hk) as (n' & d' & -> & Hn').
        exists n', st, d'. auto.
      * injection Hm' as ->. rewrite Hobj in Hd0. injection Hd0 as <-.
        discriminate Hk.
    + rewrite bool_decide_eq_false_2 by (intros [? ?]; discriminate). cbn [negb].
      unfold Heap.bind, Heap.new_dict. rewrite store_run.
      cbn [Heap.sources Heap.overlay Heap.objects Heap.next].
      rewrite set_obj_ne by lia. rewrite Hd0. cbn [Heap.obj_store].
      rewrite subscript_run. cbn [Heap.objects Heap.item_at].
      rewrite set_obj_eq. cbn [Heap.obj_subscript].
      rewrite lookup_set_key_eq. cbn [lift_py].
      eexists _, _, []. split; [reflexivity|].
      cbn [Heap.objects]. rewrite set_obj_ne by lia. apply set_obj_eq.
Qed.

Lemma setitem_mapping (st : Heap.state) (v : view) (k : key) (x : Heap.ref) :
  Heap.closed (Heap.objects st) (Heap.next st) ->
  Heap.allocated (Heap.next st) (Heap.overlay st) = true ->
  NoDup (Heap.nodes (Heap.objects st) (Heap.overlay st) (path v)) ->
  Heap.mapping_path (Heap.objects st) (Heap.overlay st) (path v) = true ->
  exists st', Heap.__setitem__ v k x st = (Ok tt, st').
Proof.
  intros Hcl Hao Hnd Hm.
  destruct (overlay_of_mapping v st Hcl Hao Hnd Hm) as (n & st1 & d & Hov & Hd).
  unfold Heap.__setitem__, Heap.bind. rewrite Hov, store_run, Hd.
  cbn [Heap.obj_store]. eauto.
Qed.

(** C4. Take a configuration whose overlay, along the path of [v[k]], goes
    through objects that are all distinct: no node of the path holds itself or
    a node above it.  When the nodes that exist along the path of [v] are
    mappings, the assignment [v[k] = x] completes, a new mapping being stored
    under every key that is missing on the way.  After an assignment that
    completes, [x] itself is what the path of [v[k]] leads to in the overlay;
    it is the first value the generator of [v[k]] yields, ahead of whatever
    the sources hold; and [v[k].get()] returns it and changes nothing.  The
    sources are arbitrary, and may share objects with the overlay and with
    [x]. *)
Theorem setitem_then_get :
  forall (st : Heap.state) (v : view) (k : key) (x : Heap.ref),
    Heap.wf st = true ->
    NoDup (Heap.nodes (Heap.objects st) (Heap.overlay st) (path (Sub v k))) ->
    (Heap.mapping_path (Heap.objects st) (Heap.overlay st) (path v) = true ->
     exists st' : Heap.state, Heap.__setitem__ v k x st = (Ok tt, st')) /\
    (forall st' : Heap.state,
       Heap.__setitem__ v k x st = (Ok tt, st') ->
       Heap.walk (Heap.objects st') (Heap.overlay st') (path (Sub v k)) = Ok x /\
       Heap.next_ (Heap.Unstarted (Sub v k)) st'
       = (Ok (Heap.Yielded x,
              Heap.Running (Heap.subscripts (Sub v k)) (Heap.sources st')), st') /\
       Heap.get (Sub v k) Heap.NoConversion st' = (Ok x, st')).
Proof.
  intros st v k x Hwf Hnd.
  destruct (wf_inv st Hwf) as (Hao & _ & Hcl). cbn [path] in Hnd. split.
  - intros Hm.
    apply (setitem_mapping st v k x Hcl Hao (NoDup_nodes_prefix _ _ _ _ Hnd) Hm).
  - intros st' H. pose proof (setitem_walk _ _ _ _ _ Hcl Hao Hnd H) as Hw.
    split; [exact Hw|]. split.
    + rewrite next_run, (pull_at_overlay _ _ _ _ _ Hw). reflexivity.
    + apply (get_after_write _ _ _ Hw).
Qed.

Lemma setitem_then_get_witness :
  (exists st' : Heap.state,
     Heap.__setitem__ (Sub Root (KStr "a")) (KStr "b") (Heap.RInt 2)
                      Heap.shared_node = (Ok tt, st')) /\
  fst (Heap.get (Sub (Sub Root (KStr "a")) (KStr "b")) Heap.NoConversion
         (snd (Heap.__setitem__ (Sub Root (KStr "a")) (KStr "b") (Heap.RInt 2)
                                Heap.shared_node)))
  = Ok (Heap.RInt 2).
Proof.
  assert (NoDup (Heap.nodes (Heap.objects Heap.shared_node)
                            (Heap.overlay Heap.shared_node)
                            (path (Sub (Sub Root (KStr "a")) (KStr "b"))))) as Hnd.
  { apply (bool_decide_unpack _). reflexivity. }
  pose proof (setitem_then_get Heap.shared_node (Sub Root (KStr "a")) (KStr "b")
                (Heap.RInt 2) eq_refl Hnd) as [Hp Hq].
  split; [apply Hp; reflexivity|].
  destruct (Hq (snd (Heap.__setitem__ (Sub Root (KStr "a")) (KStr "b")
                                      (Heap.RInt 2) Heap.shared_node)) eq_refl)
    as (_ & _ & Hg).
  rewrite Hg. reflexivity.
Defined.

(** An overlay that holds itself: after [root['a'] = root.get()] the overlay
    is its own entry under ['a'].  The assignment [root['a']['a'] = 5] then
    completes, and [root['a']['a'].get()] raises instead of returning [5]:
    the assignment has replaced the entry that the path goes through. *)
Lemma setitem_through_a_cycle :
  Heap.objects Heap.self_held 0%nat = Heap.ODict [(KStr "a", Heap.RObj 0%nat)] /\
  Heap.overlay Heap.self_held = Heap.RObj 0%nat /\
  fst (Heap.__setitem__ (Sub Root (KStr "a")) (KStr "a") (Heap.RInt 5)
                        Heap.self_held) = Ok tt /\
  fst (Heap.get (Sub (Sub Root (KStr "a")) (KStr "a")) Heap.NoConversion
         (snd (Heap.__setitem__ (Sub Root (KStr "a")) (KStr "a") (Heap.RInt 5)
                                Heap.self_held)))
  = Err (ConfigTypeError "root['a'] must be a collection, not <class 'int'>") /\
  fst (Heap.get (Sub (Sub Root (KStr "a")) (KStr "a")) Heap.NoConversion
         (snd (Heap.__setitem__ (Sub Root (KStr "a")) (KStr "a") (Heap.RInt 5)
                                Heap.self_held)))
  <> Ok (Heap.RInt 5).
Proof.
  split; [reflexivity|]. split; [reflexivity|]. split; [reflexivity|].
  assert (fst (Heap.get (Sub (Sub Root (KStr "a")) (KStr "a")) Heap.NoConversion
                 (snd (Heap.__setitem__ (Sub Root (KStr "a")) (KStr "a")
                                        (Heap.RInt 5) Heap.self_held)))
          = Err (ConfigTypeError
                   "root['a'] must be a collection, not <class 'int'>")) as E.
  { vm_compute. reflexivity. }
  split; [exact E|]. rewrite E. discriminate.
Qed.

(** ** Reads *)








(** ** A write below a key of the root *)

Lemma setitem_root_fresh (st : Heap.state) (o : Heap.loc)
    (top : list (key * Heap.ref)) (k1 k2 : key) (x : Heap.ref) :
  Heap.overlay st = Heap.RObj o -> (o < Heap.next st)%nat ->
  Heap.objects st o = Heap.ODict top -> Heap.lookup_key top k1 = None ->
  Heap.__setitem__ (Sub Root k1) k2 x st
  = (Ok tt,
     {| Heap.sources := Heap.sources st;
        Heap.overlay := Heap.overlay st;
        Heap.objects :=
          Heap.set_obj
            (Heap.set_obj
               (Heap.set_obj (Heap.objects st) (Heap.next st) (Heap.ODict []))
               o (Heap.ODict (Heap.set_key top k1 (Heap.RObj (Heap.next st)))))
            (Heap.next st) (Heap.ODict [(k2, x)]);
        Heap.next := S (Heap.next st) |}).
Proof.
  intros Ho Hlt Hobj Hk.
  unfold Heap.__setitem__. cbn [Heap.overlay_of].
  unfold Heap.bind at 1. unfold Heap.bind at 1. unfold Heap.self_overlay.
  rewrite Ho. unfold Heap.bind at 1. rewrite contains_run, Hobj.
  cbn [Heap.obj_contains]. rewrite Hk.
  rewrite bool_decide_eq_false_2 by (intros [? ?]; discriminate). cbn [negb].
  unfold Heap.bind at 1. unfold Heap.bind at 1. unfold Heap.new_dict.
  rewrite store_run. cbn [Heap.sources Heap.overlay Heap.objects Heap.next].
  rewrite set_obj_ne by lia. rewrite Hobj. cbn [Heap.obj_store].
  rewrite subscript_run. cbn [Heap.objects Heap.item_at].
  rewrite set_obj_eq. cbn [Heap.obj_subscript]. rewrite lookup_set_key_eq.
  cbn [lift_py]. rewrite store_run.
  cbn [Heap.sources Heap.overlay Heap.objects Heap.next].
  rewrite set_obj_ne by lia. rewrite set_obj_eq. cbn [Heap.obj_store Heap.set_key].
  rewrite Ho. reflexivity.
Qed.

Lemma setitem_root_present (st : Heap.state) (o n : Heap.loc)
    (top dd : list (key * Heap.ref)) (k1 k2 : key) (x : Heap.ref) :
  Heap.overlay st = Heap.RObj o ->
  Heap.objects st o = Heap.ODict top ->
  Heap.lookup_key top k1 = Some (Heap.RObj n) ->
  Heap.objects st n = Heap.ODict dd ->
  Heap.__setitem__ (Sub Root k1) k2 x st
  = (Ok tt,
     {| Heap.sources := Heap.sources st;
        Heap.overlay := Heap.overlay st;
        Heap.objects :=
          Heap.set_obj (Heap.objects st) n (Heap.ODict (Heap.set_key dd k2 x));
        Heap.next := Heap.next st |}).
Proof.
  intros Ho Hobj Hk Hn.
  unfold Heap.__setitem__. cbn [Heap.overlay_of].
  unfold Heap.bind at 1. unfold Heap.bind at 1. unfold Heap.self_overlay.
  rewrite Ho. unfold Heap.bind at 1. rewrite contains_run, Hobj.
  cbn [Heap.obj_contains]. rewrite Hk.
  rewrite bool_decide_eq_true_2 by eauto. cbn [negb].
  unfold Heap.bind at 1. unfold Heap.ret at 1.
  rewrite subscript_run. cbn [Heap.item_at]. rewrite Hobj.
  cbn [Heap.obj_subscript]. rewrite Hk. cbn [lift_py].
  rewrite store_run, Hn. cbn [Heap.obj_store]. rewrite ?Ho. reflexivity.
Qed.

(** C10. The overlay is a dict that has, under [k1], nothing or a dict of its
    own (another object than the overlay itself) with the entries [dd].  The
    assignment [root[k1][k2] = x] completes and changes no object but the
    overlay and that dict.  [root[k1].get()] then returns the dict of the
    overlay, which holds [dd] with [k2] set and nothing of what the sources
    have under [k1].  For a key [k3] other than [k2] that the dict lacks, the
    overlay gives no candidate to [root[k1][k3]]; and when no source goes
    through the overlay or that dict on the way to [k1] and [k3], the
    candidates of [root[k1][k3]], and what its [get] returns, are those of
    the sources, as they were before the assignment. *)
Theorem nested_write_shadows_parent :
  forall (st : Heap.state) (o n : Heap.loc) (top dd : list (key * Heap.ref))
         (k1 k2 k3 : key) (x : Heap.ref),
    Heap.wf st = true ->
    Heap.overlay st = Heap.RObj o ->
    Heap.objects st o = Heap.ODict top ->
    (Heap.lookup_key top k1 = None /\ dd = [] /\ n = Heap.next st) \/
    (Heap.lookup_key top k1 = Some (Heap.RObj n) /\
     Heap.objects st n = Heap.ODict dd /\ n <> o) ->
    exists st' : Heap.state,
      Heap.__setitem__ (Sub Root k1) k2 x st = (Ok tt, st') /\
      Heap.sources st' = Heap.sources st /\
      Heap.overlay st' = Heap.overlay st /\
      (forall l, l <> o -> l <> n -> Heap.objects st' l = Heap.objects st l) /\
      Heap.get (Sub Root k1) Heap.NoConversion st' = (Ok (Heap.RObj n), st') /\
      Heap.objects st' n = Heap.ODict (Heap.set_key dd k2 x) /\
      (k3 <> k2 -> Heap.lookup_key dd k3 = None ->
       Heap.through_at (Heap.objects st') (Heap.subscripts (Sub (Sub Root k1) k3))
                       (Heap.overlay st') = Heap.Skip /\
       (Forall (fun s => forall l,
                  In l (Heap.nodes (Heap.objects st) s [k1; k3]) ->
                  l <> o /\ l <> n) (Heap.sources st) ->
        fst (Heap.consume (Heap.Unstarted (Sub (Sub Root k1) k3)) st')
        = Ok (Heap.exhaust_at (Heap.objects st)
                (Heap.subscripts (Sub (Sub Root k1) k3)) (Heap.sources st)) /\
        fst (Heap.consume (Heap.Unstarted (Sub (Sub Root k1) k3)) st')
        = fst (Heap.consume (Heap.Unstarted (Sub (Sub Root k1) k3)) st) /\
        fst (Heap.get (Sub (Sub Root k1) k3) Heap.NoConversion st')
        = fst (Heap.get (Sub (Sub Root k1) k3) Heap.NoConversion st))).
Proof.
  intros st o n top dd k1 k2 k3 x Hwf Ho Hobj Hcase.
  destruct (wf_inv st Hwf) as (Hao & _ & _).
  rewrite Ho in Hao. apply allocated_lt in Hao.
  (* the state after the assignment *)
  assert (exists h',
            Heap.__setitem__ (Sub Root k1) k2 x st
            = (Ok tt, {| Heap.sources := Heap.sources st;
                         Heap.overlay := Heap.overlay st;
                         Heap.objects := h';
                         Heap.next :=
                           match Heap.lookup_key top k1 with
                           | Some _ => Heap.next st
                           | None => S (Heap.next st)
                           end |}) /\
            (forall l, l <> o -> l <> n -> h' l = Heap.objects st l) /\
            Heap.item_at h' (Heap.RObj o) k1 = Ok (Heap.RObj n) /\
            h' n = Heap.ODict (Heap.set_key dd k2 x)) as (h' & Hset & Hfr & Hi & Hn).
  { destruct Hcase as [(Hk & -> & ->)|(Hk & Hd & Hne)].
    - eexists. split; [rewrite Hk; apply (setitem_root_fresh _ _ _ _ _ _ Ho Hao Hobj Hk)|].
      split; [|split].
      + intros l Hlo Hln. rewrite !set_obj_ne by assumption. reflexivity.
      + cbn [Heap.item_at]. rewrite set_obj_ne by lia. rewrite set_obj_eq.
        cbn [Heap.obj_subscript]. rewrite lookup_set_key_eq. reflexivity.
      + rewrite set_obj_eq. reflexivity.
    - eexists. split; [rewrite Hk; apply (setitem_root_present _ _ _ _ _ _ _ _ Ho Hobj Hk Hd)|].
      split; [|split].
      + intros l Hlo Hln. rewrite set_obj_ne by assumption. reflexivity.
      + cbn [Heap.item_at]. rewrite set_obj_ne by congruence. rewrite Hobj.
        cbn [Heap.obj_subscript]. rewrite Hk. reflexivity.
      + rewrite set_obj_eq. reflexivity. }
  eexists. split; [exact Hset|].
  cbn [Heap.sources Heap.overlay Heap.objects].
  split; [reflexivity|]. split; [reflexivity|]. split; [exact Hfr|]. split.
  { apply get_after_write. cbn [Heap.objects Heap.overlay path app Heap.walk].
    rewrite Ho, Hi. reflexivity. }
  split; [exact Hn|]. intros Hne Hk3.
  (* the overlay is passed over, after the assignment and before it *)
  assert (Heap.through_at h' (Heap.subscripts (Sub (Sub Root k1) k3))
                          (Heap.RObj o) = Heap.Skip) as Hskip'.
  { cbn [Heap.subscripts app Heap.through_at]. rewrite Hi.
    cbn [Heap.item_at]. rewrite Hn. cbn [Heap.obj_subscript].
    rewrite lookup_set_key_ne by congruence. rewrite Hk3. reflexivity. }
  assert (Heap.through_at (Heap.objects st) (Heap.subscripts (Sub (Sub Root k1) k3))
                          (Heap.RObj o) = Heap.Skip) as Hskip.
  { cbn [Heap.subscripts app Heap.through_at Heap.item_at]. rewrite Hobj.
    cbn [Heap.obj_subscript].
    destruct Hcase as [(Hk & _ & _)|(Hk & Hd & _)]; rewrite Hk; [reflexivity|].
    cbn [Heap.item_at]. rewrite Hd. cbn [Heap.obj_subscript]. rewrite Hk3.
    reflexivity. }
  split; [rewrite Ho; exact Hskip'|]. intros Hsep.
  assert (Forall (fun c => forall l,
                    In l (Heap.nodes (Heap.objects st) c
                            (map snd (Heap.subscripts (Sub (Sub Root k1) k3)))) ->
                    h' l = Heap.objects st l) (Heap.sources st)) as Hag.
  { eapply List.Forall_impl; [|exact Hsep]. intros s Hs l Hl.
    destruct (Hs l Hl) as [Hlo Hln]. apply (Hfr l Hlo Hln). }
  rewrite !consume_run, !get_run. cbn [fst Heap.objects Heap.overlay Heap.sources].
  rewrite Ho. cbn [Heap.exhaust_at Heap.pull_at]. rewrite Hskip', Hskip.
  rewrite (exhaust_at_agree _ _ _ _ Hag), (pull_at_agree _ _ _ _ Hag).
  split; [reflexivity|]. split; reflexivity.
Qed.

Lemma nested_write_shadows_parent_witness :
  (exists st' : Heap.state,
     Heap.__setitem__ (Sub Root (KStr "a")) (KStr "b") (Heap.RInt 7)
                      Heap.plain_source = (Ok tt, st') /\
     Heap.get (Sub Root (KStr "a")) Heap.NoConversion st'
     = (Ok (Heap.RObj 3%nat), st') /\
     Heap.objects st' 3%nat = Heap.ODict [(KStr "b", Heap.RInt 7)] /\
     fst (Heap.get (Sub (Sub Root (KStr "a")) (KStr "c")) Heap.NoConversion st')
     = Ok (Heap.RInt 2)).
Proof.
  destruct (nested_write_shadows_parent Heap.plain_source 2%nat 3%nat [] []
              (KStr "a") (KStr "b") (KStr "c") (Heap.RInt 7)
              eq_refl eq_refl eq_refl)
    as (st' & Hset & _ & _ & _ & Hget & Hn & Hsib).
  { left. repeat split; reflexivity. }
  exists st'. split; [exact Hset|]. split; [exact Hget|]. split; [exact Hn|].
  destruct Hsib as [_ Hsib]; [discriminate | reflexivity |].
  destruct Hsib as (_ & _ & Hg).
  { apply List.Forall_cons; [|apply List.Forall_nil].
    intros l Hl. vm_compute in Hl.
    destruct Hl as [<-|[<-|[]]]; split; discriminate. }
  rewrite Hg. reflexivity.
Defined.

(** A source that is an entry of the overlay: [src = {'a': {'c': 1}}] is the
    one source, and [root['a'] = src] has been run.  [root['a']['c'].get()]
    is then [1], found in the source.  After [root['a']['a'] = 7] the overlay
    still has no ['c'] under ['a'], and [root['a']['c'].get()] raises: the
    assignment went into the source, whose ['a'] is now [7]. *)
Lemma nested_write_into_a_source :
  fst (Heap.get (Sub (Sub Root (KStr "a")) (KStr "c")) Heap.NoConversion
         Heap.source_assigned) = Ok (Heap.RInt 1) /\
  fst (Heap.__setitem__ (Sub Root (KStr "a")) (KStr "a") (Heap.RInt 7)
                        Heap.source_assigned) = Ok tt /\
  fst (Heap.get (Sub Root (KStr "a")) Heap.NoConversion
         (snd (Heap.__setitem__ (Sub Root (KStr "a")) (KStr "a") (Heap.RInt 7)
                                Heap.source_assigned)))
  = Ok (Heap.RObj 0%nat) /\
  Heap.objects (snd (Heap.__setitem__ (Sub Root (KStr "a")) (KStr "a")
                                      (Heap.RInt 7) Heap.source_assigned)) 0%nat
  = Heap.ODict [(KStr "a", Heap.RInt 7)] /\
  fst (Heap.get (Sub (Sub Root (KStr "a")) (KStr "c")) Heap.NoConversion
         (snd (Heap.__setitem__ (Sub Root (KStr "a")) (KStr "a") (Heap.RInt 7)
                                Heap.source_assigned)))
  = Err (ConfigTypeError "root['a'] must be a collection, not <class 'int'>") /\
  fst (Heap.get (Sub (Sub Root (KStr "a")) (KStr "c")) Heap.NoConversion
         (snd (Heap.__setitem__ (Sub Root (KStr "a")) (KStr "a") (Heap.RInt 7)
                                Heap.source_assigned)))
  <> fst (Heap.get (Sub (Sub Root (KStr "a")) (KStr "c")) Heap.NoConversion
            Heap.source_assigned).
Proof.
  assert (fst (Heap.get (Sub (Sub Root (KStr "a")) (KStr "c")) Heap.NoConversion
                 (snd (Heap.__setitem__ (Sub Root (KStr "a")) (KStr "a")
                                        (Heap.RInt 7) Heap.source_assigned)))
          = Err (ConfigTypeError
                   "root['a'] must be a collection, not <class 'int'>")) as E.
  { vm_compute. reflexivity. }
  split; [reflexivity|]. split; [reflexivity|]. split; [reflexivity|].
  split; [reflexivity|]. split; [exact E|]. rewrite E. discriminate.
Qed.

(** * Further properties *)

(** ** Sources added later *)

Lemma Subview_get_all_chain (pname : string) (k : key) (t u : trace) :
  Subview_get_all pname k (chain t u)
  = chain (Subview_get_all pname k t) (Subview_get_all pname k u).
Proof.
  induction t as [|c t IH|e]; simpl; try reflexivity.
  destruct (subscript c k) as [x|[]]; simpl; rewrite ?IH; reflexivity.
Qed.

Lemma iter_app (l1 l2 : list value) :
  iter (l1 ++ l2) = chain (iter l1) (iter l2).
Proof. induction l1 as [|c l1 IH]; simpl; [reflexivity | f_equal; exact IH]. Qed.

Lemma resolve_app (l1 l2 : list value) (v : view) :
  resolve (l1 ++ l2) v = chain (resolve l1 v) (resolve l2 v).
Proof.
  induction v as [|p IH k]; simpl.
  - apply iter_app.
  - rewrite IH. apply Subview_get_all_chain.
Qed.

Lemma get_all_resolve (st : state) (v : view) :
  get_all st v = resolve (overlay st :: sources st) v.
Proof. induction v as [|p IH k]; simpl; [reflexivity | rewrite IH; reflexivity]. Qed.

Lemma iter_first_chain (t u : trace) :
  t <> Stop -> iter_first (chain t u) = iter_first t.
Proof. destruct t; simpl; congruence. Qed.

(** X1. A source added with [add] comes after all the others: a view
    resolves to its former candidates followed by those of the new source.
    So a view that resolved, or failed on a malformed source, does exactly as
    before, and only a view that found nothing turns to the new source. *)
Theorem add_lowest_priority :
  forall (st : state) (obj : value) (v : view),
    get_all (add st obj) v = chain (get_all st v) (resolve [obj] v) /\
    (get_all st v <> Stop ->
     forall typ, get (add st obj) v typ = get st v typ) /\
    (get_all st v = Stop -> get_all (add st obj) v = resolve [obj] v).
Proof.
  intros st obj v.
  assert (get_all (add st obj) v = chain (get_all st v) (resolve [obj] v)) as E.
  { rewrite !get_all_resolve. cbn [add sources overlay].
    rewrite app_comm_cons. apply resolve_app. }
  split; [exact E|]. split.
  - intros H typ. unfold get. rewrite E, (iter_first_chain _ _ H).
    reflexivity.
  - intros H. rewrite E, H. reflexivity.
Qed.

Lemma add_lowest_priority_witness :
  get (add (RootView_init [VDict [(KStr "a", VInt 1)]])
           (VDict [(KStr "a", VInt 2); (KStr "b", VInt 3)]))
      (Sub Root (KStr "a")) NoConversion = Ok (VInt 1) /\
  get_all (add (RootView_init [VDict [(KStr "a", VInt 1)]])
               (VDict [(KStr "a", VInt 2); (KStr "b", VInt 3)]))
          (Sub Root (KStr "b")) = Yield (VInt 3) Stop.
Proof.
  pose proof (add_lowest_priority
                (RootView_init [VDict [(KStr "a", VInt 1)]])
                (VDict [(KStr "a", VInt 2); (KStr "b", VInt 3)])) as H.
  split.
  - destruct (H (Sub Root (KStr "a"))) as (_ & H1 & _).
    rewrite H1; [reflexivity | discriminate].
  - destruct (H (Sub Root (KStr "b"))) as (_ & _ & H2).
    rewrite H2; reflexivity.
Defined.

(** ** Command-line arguments *)

Lemma arg_source_other (ns : list (string * value)) (acc : list (key * value))
    (k : string) :
  (forall x, (k, x) ∈ ns -> x = VNone) ->
  dict_get (fold_left (fun d kv =>
                         match snd kv with
                         | VNone => d
                         | x => dict_set d (KStr (fst kv)) x
                         end) ns acc) (KStr k)
  = dict_get acc (KStr k).
Proof.
  revert acc; induction ns as [|[k0 x0] ns IH]; intros acc H; [reflexivity|].
  cbn [fold_left fst snd]. rewrite IH.
  - destruct (decide (k0 = k)) as [->|Hne].
    + rewrite (H x0) by left. reflexivity.
    + destruct x0; try reflexivity;
        apply dict_get_set_ne; congruence.
  - intros x Hx. apply H. right. exact Hx.
Qed.

Lemma arg_source_set (ns : list (string * value)) (acc : list (key * value))
    (k : string) (x : value) :
  NoDup ns.*1 -> (k, x) ∈ ns -> x <> VNone ->
  dict_get (fold_left (fun d kv =>
                         match snd kv with
                         | VNone => d
                         | x => dict_set d (KStr (fst kv)) x
                         end) ns acc) (KStr k)
  = Some x.
Proof.
  revert acc; induction ns as [|[k0 x0] ns IH]; intros acc Hnd Hin Hx;
    [inversion Hin|].
  cbn [fmap list_fmap fst] in Hnd. apply NoDup_cons in Hnd as [Hk0 Hnd].
  cbn [fold_left fst snd].
  apply elem_of_cons in Hin as [Heq|Hin].
  - injection Heq as <- <-. rewrite arg_source_other.
    + destruct x; try congruence; apply dict_get_set_eq.
    + intros y Hy. exfalso. apply Hk0.
      apply (list_elem_of_fmap_2 fst _ _ Hy).
  - apply IH; assumption.
Qed.

(** X2. [add_args] puts the options between the overlay and the sources.
    An option with a value other than [None] is what its name resolves to,
    unless the overlay has the name; an option that is [None], or that is not
    there, changes nothing for its name; and a name the overlay has still
    resolves to the value of the overlay. *)
Theorem add_args_priority :
  forall (st : state) (ns : list (string * value)) (k : string),
    (forall v : view,
       get_all (add_args st ns) v
       = chain (resolve [overlay st] v)
               (chain (resolve [VDict (arg_source ns)] v)
                      (resolve (sources st) v))) /\
    (forall x : value,
       NoDup ns.*1 -> (k, x) ∈ ns -> x <> VNone ->
       subscript (overlay st) (KStr k) = Err KeyError ->
       get (add_args st ns) (Sub Root (KStr k)) NoConversion = Ok x) /\
    ((forall x, (k, x) ∈ ns -> x = VNone) ->
     get_all (add_args st ns) (Sub Root (KStr k))
     = get_all st (Sub Root (KStr k))) /\
    (forall y : value,
       subscript (overlay st) (KStr k) = Ok y ->
       get (add_args st ns) (Sub Root (KStr k)) NoConversion = Ok y).
Proof.
  intros st ns k. split; [|split; [|split]].
  - intros v. rewrite get_all_resolve. cbn [add_args sources overlay].
    change (overlay st :: VDict (arg_source ns) :: sources st)
      with ([overlay st] ++ [VDict (arg_source ns)] ++ sources st)%list.
    rewrite !resolve_app. reflexivity.
  - intros x Hnd Hin Hx Ho. unfold get.
    cbn [get_all add_args sources overlay iter Subview_get_all].
    rewrite Ho. cbn [Subview_get_all subscript].
    unfold arg_source. rewrite (arg_source_set _ _ _ _ Hnd Hin Hx).
    reflexivity.
  - intros Hn.
    cbn [get_all add_args sources overlay iter Subview_get_all].
    assert (subscript (VDict (arg_source ns)) (KStr k) = Err KeyError) as E.
    { cbn [subscript]. unfold arg_source. rewrite (arg_source_other _ _ _ Hn).
      reflexivity. }
    destruct (subscript (overlay st) (KStr k)) as [y|[]]; rewrite ?E;
      reflexivity.
  - intros y Ho. unfold get.
    cbn [get_all add_args sources overlay iter Subview_get_all].
    rewrite Ho. reflexivity.
Qed.

Lemma add_args_priority_witness :
  get (add_args (RootView_init [VDict [(KStr "verbose", VBool false)]])
                [("verbose", VBool true); ("output", VNone)])
      (Sub Root (KStr "verbose")) NoConversion = Ok (VBool true) /\
  get_all (add_args (RootView_init [VDict [(KStr "output", VStr "a.txt")]])
                    [("verbose", VBool true); ("output", VNone)])
          (Sub Root (KStr "output"))
  = get_all (RootView_init [VDict [(KStr "output", VStr "a.txt")]])
            (Sub Root (KStr "output")) /\
  get (add_args {| sources := []; overlay := VDict [(KStr "verbose", VInt 2)] |}
                [("verbose", VBool true)])
      (Sub Root (KStr "verbose")) NoConversion = Ok (VInt 2).
Proof.
  split; [|split].
  - destruct (add_args_priority
                (RootView_init [VDict [(KStr "verbose", VBool false)]])
                [("verbose", VBool true); ("output", VNone)] "verbose")
      as (_ & H & _).
    apply H.
    + apply (bool_decide_unpack _). vm_compute. reflexivity.
    + left.
    + discriminate.
    + reflexivity.
  - destruct (add_args_priority
                (RootView_init [VDict [(KStr "output", VStr "a.txt")]])
                [("verbose", VBool true); ("output", VNone)] "output")
      as (_ & _ & H & _).
    apply H. intros x Hx.
    apply elem_of_cons in Hx as [Hx|Hx]; [discriminate|].
    apply list_elem_of_singleton in Hx. congruence.
  - destruct (add_args_priority
                {| sources := []; overlay := VDict [(KStr "verbose", VInt 2)] |}
                [("verbose", VBool true)] "verbose")
      as (_ & _ & _ & H).
    apply H. reflexivity.
Defined.

(** ** Keys and children *)

Lemma keys_loop_ok (vname : string) (t : trace) (acc s : gset key) :
  keys_loop vname t acc = Ok s ->
  raised t = None /\ Forall (fun c => is_dict c = true) (yielded t).
Proof.
  revert acc; induction t as [|c t IH|e]; intros acc; simpl.
  - auto.
  - destruct c as [| | | | |d]; try discriminate.
    intros H. destruct (IH _ H) as [Hr Hd]. auto.
  - discriminate.
Qed.

Lemma before_type_error_dicts (k : key) (cs : list value) :
  Forall (fun c => is_dict c = true) cs ->
  before_type_error k cs = cs /\ first_type_error k cs = None.
Proof.
  induction 1 as [|c cs Hc _ [IH1 IH2]]; [auto|].
  destruct c as [| | | | |d]; try discriminate.
  cbn [before_type_error first_type_error]. unfold not_subscriptable.
  cbn [subscript]. destruct (dict_get d k); rewrite IH1, IH2; auto.
Qed.

(** Where all the candidates of a view are mappings, a child resolves to the
    values its key has in them, in their order. *)
Lemma get_all_child_of_dicts (st : state) (v : view) (k : key) :
  raised (get_all st v) = None ->
  Forall (fun c => is_dict c = true) (yielded (get_all st v)) ->
  get_all st (Sub v k) = iter (omap (item k) (yielded (get_all st v))).
Proof.
  intros Hr Hd. cbn [get_all]. rewrite Subview_get_all_run.
  destruct (before_type_error_dicts k _ Hd) as [-> ->]. rewrite Hr.
  generalize (omap (item k) (yielded (get_all st v))). intros l.
  induction l as [|c l IH]; simpl; [reflexivity | f_equal; exact IH].
Qed.

Lemma omap_item_nil (k : key) (cs : list value) :
  Forall (fun c => is_dict c = true) cs ->
  omap (item k) cs = [] <->
  forall d, VDict d ∈ cs -> dict_get d k = None.
Proof.
  induction 1 as [|c cs Hc _ IH]; simpl.
  - split; [intros _ d H; inversion H | reflexivity].
  - destruct c as [| | | | |d]; try discriminate.
    unfold item at 1. cbn [subscript].
    destruct (dict_get d k) as [x|] eqn:Hk.
    + split; [discriminate|]. intros H.
      rewrite (H d) in Hk by left. discriminate.
    + rewrite IH. split.
      * intros H d' Hd. apply elem_of_cons in Hd as [Heq|Hd]; [|auto].
        injection Heq as ->. exact Hk.
      * intros H d' Hd. apply H. right. exact Hd.
Qed.

Lemma omap_item_cons (k : key) (cs : list value) (x : value) (l : list value) :
  Forall (fun c => is_dict c = true) cs ->
  omap (item k) cs = x :: l ->
  exists d, VDict d ∈ cs /\ is_Some (dict_get d k).
Proof.
  induction 1 as [|c cs Hc _ IH]; simpl; [discriminate|].
  destruct c as [| | | | |d]; try discriminate.
  unfold item at 1. cbn [subscript].
  destruct (dict_get d k) as [y|] eqn:Hk.
  - intros _. exists d. split; [left | eauto].
  - intros H. destruct (IH H) as (d' & Hin & Hy).
    exists d'. split; [right; exact Hin | exact Hy].
Qed.


(** X3. When [keys] gives a set, its members are exactly the keys under
    which the view has a child that resolves: [v[k].get()] gives a value for
    every key of the set and is not found for every other key.  [items] pairs
    each key of the set, once, with the subview for it. *)
Theorem keys_are_children :
  forall (st : state) (v : view) (s : gset key),
    keys st v = Ok s ->
    (forall k : key,
       (k ∈ s -> exists x, get st (Sub v k) NoConversion = Ok x) /\
       (k ∉ s ->
        get st (Sub v k) NoConversion
        = Err (NotFoundError (name (Sub v k) ++ " not found")))) /\
    (exists l,
       items st v = Ok l /\ NoDup l /\
       forall k w, (k, w) ∈ l <-> k ∈ s /\ w = Sub v k).
Proof.
  intros st v s Hs. split.
  - intros k. unfold keys in Hs.
    destruct (keys_loop_ok _ _ _ _ Hs) as [Hr Hd].
    destruct (keys_loop_dicts (name v) _ ∅ Hr Hd) as (s' & Hs' & Hmem).
    rewrite Hs in Hs'. injection Hs' as <-.
    pose proof (get_all_child_of_dicts st v k Hr Hd) as Hg.
    pose proof (omap_item_nil k _ Hd) as Hnil.
    unfold get. rewrite Hg.
    destruct (omap (item k) (yielded (get_all st v))) as [|x l] eqn:Ho.
    + split.
      * intros Hk. exfalso. apply Hmem in Hk as [Hk|(d & Hin & [y Hy])].
        { revert Hk. apply not_elem_of_empty. }
        rewrite (proj1 Hnil eq_refl d Hin) in Hy. discriminate.
      * intros _. reflexivity.
    + split.
      * intros _. exists x. reflexivity.
      * intros Hk. exfalso. apply Hk, Hmem. right.
        apply (omap_item_cons k _ x l Hd Ho).
  - unfold items. rewrite Hs. eexists. split; [reflexivity|]. split.
    + apply NoDup_fmap_2; [|apply NoDup_elements].
      intros k1 k2 H. congruence.
    + intros k w. rewrite list_elem_of_fmap. split.
      * intros (k' & Heq & Hin). injection Heq as -> ->.
        split; [apply elem_of_elements, Hin | reflexivity].
      * intros [Hk ->]. exists k. split; [reflexivity|].
        apply elem_of_elements, Hk.
Qed.

Lemma keys_are_children_witness :
  (exists x,
     get (RootView_init [VDict [(KStr "a", VInt 1)];
                         VDict [(KStr "a", VInt 2); (KStr "b", VNone)]])
         (Sub Root (KStr "b")) NoConversion = Ok x) /\
  get (RootView_init [VDict [(KStr "a", VInt 1)];
                      VDict [(KStr "a", VInt 2); (KStr "b", VNone)]])
      (Sub Root (KStr "c")) NoConversion
  = Err (NotFoundError "root['c'] not found").
Proof.
  destruct (keys_are_children
              (RootView_init [VDict [(KStr "a", VInt 1)];
                              VDict [(KStr "a", VInt 2); (KStr "b", VNone)]])
              Root _ eq_refl) as [H _].
  split.
  - apply (H (KStr "b")). apply (bool_decide_unpack _). vm_compute. reflexivity.
  - apply (H (KStr "c")). apply (bool_decide_unpack _). vm_compute. reflexivity.
Defined.



(** ** Contents of sequences *)







(** ** Assignments that fail *)

Lemma update_at_succeeds (o : value) (p : list key) (k : key) (x n n' : value) :
  node_at o p = Ok n -> store n k x = Ok n' ->
  exists o', update_at o p (fun m => store m k x) = Ok o'.
Proof.
  intros Hn Hs.
  destruct (update_at o p (fun m => store m k x)) as [o'|e] eqn:Hu; [eauto|].
  apply update_at_raises in Hu as [Hu|(m & Hm & Hu)]; congruence.
Qed.

(** One level of the [overlay] property, from the reference to the overlay
    of the parent: either the overlay is left as it was, or the level has
    put an empty mapping at the key and hands out the reference to it. *)
Lemma overlay_level (p : list key) (k : key) (o o' : value)
    (r : result exn (list key)) :
  (present <- contains_at p k ;;
   _ <- (if negb present then store_at p k (VDict []) else ret tt) ;;
   subscript_at p k) o = (r, o') ->
  o' = o \/ (r = Ok (p ++ [k])%list /\ node_at o' (p ++ [k]) = Ok (VDict [])).
Proof.
  unfold bind at 1. unfold contains_at at 1.
  destruct (lift_py _) as [present|e]; [|intros H; injection H as <- <-; auto].
  unfold bind at 1. destruct present; cbn [negb].
  - unfold ret, subscript_at. intros H; injection H as <- <-. auto.
  - unfold store_at.
    destruct (update_at o p _) as [o2|e] eqn:Hu;
      [|intros H; injection H as <- <-; auto].
    apply node_at_update_at in Hu. unfold subscript_at.
    pose proof Hu as Hu'. rewrite node_at_snoc in Hu'.
    destruct (node_at o2 p) as [n|e]; [|discriminate].
    cbn [rbind] in *. rewrite Hu'. cbn [rbind lift_py].
    intros H; injection H as <- <-. auto.
Qed.

Lemma overlay_level_fresh (p : list key) (k : key) (o : value) :
  node_at o p = Ok (VDict []) ->
  exists o',
    (present <- contains_at p k ;;
     _ <- (if negb present then store_at p k (VDict []) else ret tt) ;;
     subscript_at p k) o = (Ok (p ++ [k])%list, o') /\
    node_at o' (p ++ [k]) = Ok (VDict []).
Proof.
  intros Hn. unfold bind at 1. unfold contains_at at 1. rewrite Hn.
  cbn [rbind].
  assert (contains (VDict []) k = Ok false) as -> by (destruct k; reflexivity).
  cbn [lift_py]. unfold bind at 1. cbn [negb]. unfold store_at.
  destruct (update_at_succeeds o p k (VDict []) _ _ Hn eq_refl) as [o2 Hu].
  rewrite Hu. apply node_at_update_at in Hu. exists o2. split; [|exact Hu].
  unfold subscript_at. rewrite node_at_snoc in Hu.
  destruct (node_at o2 p) as [n|e]; [|discriminate].
  cbn [rbind] in *. rewrite Hu. reflexivity.
Qed.

(** Once the [overlay] property has changed the overlay, it does not fail,
    and the node it hands out is an empty mapping. *)
Lemma overlay_of_changes (v : view) (o o' : value) (r : result exn (list key)) :
  overlay_of v o = (r, o') ->
  o' = o \/ (r = Ok (path v) /\ node_at o' (path v) = Ok (VDict [])).
Proof.
  revert o' r; induction v as [|p IH k]; intros o' r.
  - cbn. intros H; injection H as <- <-. auto.
  - cbn [overlay_of path]. unfold bind at 1.
    destruct (overlay_of p o) as [[po|e] o1] eqn:Hp.
    + destruct (overlay_of_ok _ _ _ _ Hp) as [-> _].
      destruct (IH _ _ eq_refl) as [->|[_ Hfresh]].
      * apply overlay_level.
      * destruct (overlay_level_fresh _ k _ Hfresh) as (o2 & -> & Hn).
        intros H; injection H as <- <-. auto.
    + destruct (IH _ _ eq_refl) as [->|[H _]]; [|discriminate].
      intros H; injection H as <- <-. auto.
Qed.

Lemma overlay_of_raises (v : view) (o o' : value) (e : exn) :
  overlay_of v o = (Err e, o') -> exists b : pyerr, e = Builtin b.
Proof.
  revert o o' e; induction v as [|p IH k0]; intros o o' e.
  - discriminate.
  - cbn [overlay_of]. unfold bind at 1.
    destruct (overlay_of p o) as [[po|e1] o1] eqn:Hp.
    + unfold bind at 1. unfold contains_at at 1.
      destruct (rbind (node_at o1 po) _) as [present|b]; cbn [lift_py];
        [|intros H; injection H as <-; eauto].
      unfold bind at 1. destruct present; cbn [negb].
      * unfold ret, subscript_at.
        destruct (rbind (node_at o1 po) _) as [q|b]; cbn [lift_py];
          [discriminate | intros H; injection H as <-; eauto].
      * unfold store_at. destruct (update_at o1 po _) as [o2|b].
        -- unfold subscript_at.
           destruct (rbind (node_at o2 po) _) as [q|b']; cbn [lift_py];
             [discriminate | intros H; injection H as <-; eauto].
        -- intros H; injection H as <-; eauto.
    + intros H; injection H as <-. apply (IH _ _ _ Hp).
Qed.

(** X6. An assignment through a view that raises leaves the configuration
    as it was: nothing is written and no node is created.  What it raises is
    a builtin exception of the container it ran into. *)
Theorem failed_setitem_writes_nothing :
  forall (st st' : state) (v : view) (k : key) (x : value) (e : exn),
    __setitem__ st v k x = (Err e, st') ->
    st' = st /\ exists b : pyerr, e = Builtin b.
Proof.
  intros [srcs o] st' v k x e. unfold __setitem__, bind. cbn [overlay sources].
  destruct (overlay_of v o) as [[r|e0] o1] eqn:Hr.
  - destruct (overlay_of_ok _ _ _ _ Hr) as [-> [n Hn]]. unfold store_at.
    destruct (update_at o1 (path v) _) as [o2|b] eqn:Hu; [discriminate|].
    intros H; injection H as <- <-. split; [|eauto].
    destruct (overlay_of_changes _ _ _ _ Hr) as [->|[_ Hfresh]]; [reflexivity|].
    exfalso.
    destruct (update_at_succeeds o1 (path v) k x _ _ Hfresh eq_refl) as [o2 E].
    congruence.
  - intros H; injection H as <- <-.
    destruct (overlay_of_changes _ _ _ _ Hr) as [->|[H _]]; [|discriminate].
    split; [reflexivity | apply (overlay_of_raises _ _ _ _ Hr)].
Qed.

Lemma failed_setitem_writes_nothing_witness :
  snd (__setitem__ {| sources := [VInt 1];
                      overlay := VDict [(KStr "a", VList [VInt 5])] |}
                   (Sub (Sub Root (KStr "a")) (KInt 3)) (KStr "b") (VInt 1))
  = {| sources := [VInt 1]; overlay := VDict [(KStr "a", VList [VInt 5])] |}.
Proof.
  apply (failed_setitem_writes_nothing
           {| sources := [VInt 1]; overlay := VDict [(KStr "a", VList [VInt 5])] |}
           _ (Sub (Sub Root (KStr "a")) (KInt 3)) (KStr "b") (VInt 1)
           (Builtin IndexError)).
  reflexivity.
Defined.

(** ** What a read can raise *)

Lemma Subview_get_all_raised (pname : string) (k : key) (t : trace) (e : exn) :
  raised (Subview_get_all pname k t) = Some e ->
  raised t = Some e \/
  exists c, c ∈ yielded t /\ subscript c k = Err TypeError /\
            e = not_a_collection pname c.
Proof.
  induction t as [|c t IH|e']; simpl; intros H; try discriminate; [|auto].
  destruct (subscript c k) as [x|[]] eqn:Hc; simpl in H.
  - destruct (IH H) as [H'|(c' & Hin & Hs & He)]; [auto|].
    right. exists c'. split; [right; exact Hin | auto].
  - destruct (IH H) as [H'|(c' & Hin & Hs & He)]; [auto|].
    right. exists c'. split; [right; exact Hin | auto].
  - destruct (IH H) as [H'|(c' & Hin & Hs & He)]; [auto|].
    right. exists c'. split; [right; exact Hin | auto].
  - injection H as <-. right. exists c. split; [left | auto].
Qed.

Lemma get_all_raised (st : state) (v : view) (e : exn) :
  raised (get_all st v) = Some e ->
  exists a c,
    a ∈ ancestors v /\ c ∈ yielded (get_all st a) /\
    e = not_a_collection (name a) c.
Proof.
  induction v as [|p IH k]; cbn [get_all ancestors]; intros H.
  - rewrite raised_iter in H. discriminate.
  - apply Subview_get_all_raised in H as [H|(c & Hin & _ & He)].
    + destruct (IH H) as (a & c & Ha & Hc & He).
      exists a, c. split; [right; exact Ha | auto].
    + exists p, c. split; [left | auto].
Qed.

Lemma iter_first_err (t : trace) (e : exn) :
  iter_first t = Err e ->
  (t = Stop /\ e = ValueError) \/ raised t = Some e.
Proof. destruct t; simpl; intros H; try discriminate; injection H as <-; auto. Qed.

(** X8. A read without conversion fails in two ways only: with the
    not-found error that names the view, or with the type error that names a
    view above it, one of whose candidates could not be subscripted.  A read
    that checks a class can fail in one more way, the class of the first
    candidate.  At the root a read never fails: it gives the overlay. *)
Theorem get_failures :
  forall (st : state) (v : view),
    (forall e : exn,
       get st v NoConversion = Err e ->
       e = NotFoundError (name v ++ " not found") \/
       exists a c,
         a ∈ ancestors v /\ c ∈ yielded (get_all st a) /\
         e = ConfigTypeError
               (name a ++ " must be a collection, not "
                  ++ str_of_type (type_of c))) /\
    (forall (t : pytype) (e : exn),
       get st v (OfType t) = Err e ->
       e = NotFoundError (name v ++ " not found") \/
       (exists a c,
          a ∈ ancestors v /\ c ∈ yielded (get_all st a) /\
          e = ConfigTypeError
                (name a ++ " must be a collection, not "
                   ++ str_of_type (type_of c))) \/
       exists c,
         head (yielded (get_all st v)) = Some c /\ isinstance c t = false /\
         e = ConfigTypeError
               (name v ++ " must by of type " ++ str_of_type t ++ ", not "
                  ++ str_of_type (type_of c))) /\
    get st Root NoConversion = Ok (overlay st).
Proof.
  intros st v.
  assert (forall e e',
            iter_first (get_all st v) = Err e ->
            (if is_ValueError e
             then Err (NotFoundError (name v ++ " not found")) else Err e)
            = @Err exn value e' ->
            e' = NotFoundError (name v ++ " not found") \/
            exists a c,
              a ∈ ancestors v /\ c ∈ yielded (get_all st a) /\
              e' = ConfigTypeError
                     (name a ++ " must be a collection, not "
                        ++ str_of_type (type_of c))) as Herr.
  { intros e e' Hi. apply iter_first_err in Hi as [[_ ->]|Hr].
    - simpl. intros H; injection H as <-. auto.
    - destruct (get_all_raised _ _ _ Hr) as (a & c & Ha & Hc & ->).
      simpl. intros H; injection H as <-. right. eauto. }
  split; [|split; [|reflexivity]].
  - intros e. unfold get.
    destruct (iter_first (get_all st v)) as [c|e0] eqn:Hi; [discriminate|].
    apply (Herr _ _ eq_refl).
  - intros t e. unfold get.
    destruct (iter_first (get_all st v)) as [c|e0] eqn:Hi.
    + destruct (isinstance c t) eqn:Hc; [discriminate|].
      intros H; injection H as <-. right. right. exists c.
      split; [|auto]. destruct (get_all st v); simpl in *; congruence.
    + intros H. destruct (Herr _ _ eq_refl H) as [H'|H']; auto.
Qed.

Lemma get_failures_witness :
  exists a c,
    a ∈ ancestors (Sub (Sub Root (KStr "a")) (KStr "b")) /\
    c ∈ yielded (get_all (RootView_init [VDict [(KStr "a", VInt 1)]]) a) /\
    get (RootView_init [VDict [(KStr "a", VInt 1)]])
        (Sub (Sub Root (KStr "a")) (KStr "b")) NoConversion
    = Err (ConfigTypeError (name a ++ " must be a collection, not "
                              ++ str_of_type (type_of c))).
Proof.
  destruct (proj1 (get_failures (RootView_init [VDict [(KStr "a", VInt 1)]])
                     (Sub (Sub Root (KStr "a")) (KStr "b"))) _ eq_refl)
    as [H|(a & c & Ha & Hc & He)]; [discriminate|].
  exists a, c. split; [exact Ha|]. split; [exact Hc|].
  rewrite <- He. reflexivity.
Defined.

(** ** Writes that follow one another *)




(** ** Checked reads *)

(** X10. A read that checks a class, or that validates against choices with
    [as_choice], never gives anything but the first candidate of the view,
    and gives it only when it is an instance of the class, or one of the
    choices. *)
Theorem checked_get_is_valid :
  forall (st : state) (v : view) (x : value),
    (forall t : pytype,
       get st v (OfType t) = Ok x ->
       head (yielded (get_all st v)) = Some x /\ isinstance x t = true) /\
    (forall choices : value,
       get st v (Callable (as_choice choices)) = Ok x ->
       head (yielded (get_all st v)) = Some x /\
       value_in x choices = Ok true).
Proof.
  intros st v x. split.
  - intros t. unfold get.
    destruct (get_all st v) as [|c rest|e]; simpl;
      try (destruct (is_ValueError e)); try discriminate.
    destruct (isinstance c t) eqn:Hc; [|discriminate].
    intros H; injection H as <-. auto.
  - intros choices. unfold get.
    destruct (get_all st v) as [|c rest|e]; simpl;
      try (destruct (is_ValueError e)); try discriminate.
    unfold as_choice. destruct (value_in c choices) as [[]|b] eqn:Hc;
      try discriminate.
    intros H; injection H as <-. auto.
Qed.

Lemma checked_get_is_valid_witness :
  isinstance (VBool true) TInt = true /\
  value_in (VStr "b") (VList [VStr "a"; VStr "b"]) = Ok true.
Proof.
  split.
  - apply (checked_get_is_valid
             (RootView_init [VDict [(KStr "n", VBool true)]])
             (Sub Root (KStr "n")) (VBool true)).
    reflexivity.
  - apply (checked_get_is_valid
             (RootView_init [VDict [(KStr "m", VStr "b")]])
             (Sub Root (KStr "m")) (VStr "b")).
    reflexivity.
Defined.

(** ** Configuration directories *)

Section ConfigDirsFacts.

Variable sys : Platform.system.
Variable environ : string -> option string.
Variables os_abspath os_expanduser : string -> string.

Let step := Platform.expand_step os_abspath os_expanduser.
Let full (p : string) : string := os_abspath (os_expanduser p).

Lemma expand_fold_head (ps : list string) (a : string) (acc : list string) :
  head (fold_left step ps (a :: acc)) = Some a.
Proof.
  revert acc; induction ps as [|p ps IH]; intros acc; [reflexivity|].
  cbn [fold_left]. unfold step at 2, Platform.expand_step.
  destruct (bool_decide _); [apply IH|].
  rewrite <- app_comm_cons. apply IH.
Qed.

Lemma expand_fold_spec (ps acc : list string) :
  NoDup acc ->
  NoDup (fold_left step ps acc) /\
  (forall d, d ∈ fold_left step ps acc <->
             d ∈ acc \/ exists p, p ∈ ps /\ d = full p).
Proof.
  revert acc; induction ps as [|p ps IH]; intros acc Hnd; cbn [fold_left].
  - split; [exact Hnd|].
    intros d. split; [auto|]. intros [H|(p & H & _)]; [exact H | inversion H].
  - assert (step acc p = acc /\ full p ∈ acc \/
            step acc p = (acc ++ [full p])%list /\ full p ∉ acc) as Hstep.
    { unfold step, Platform.expand_step, full. case_bool_decide; auto. }
    assert (NoDup (step acc p)) as Hnd'.
    { destruct Hstep as [[-> _]|[-> Hp]]; [exact Hnd|].
      apply NoDup_app. split; [exact Hnd|]. split.
      - intros x Hx Hx'. apply list_elem_of_singleton in Hx'. congruence.
      - apply NoDup_singleton. }
    destruct (IH _ Hnd') as (H1 & H2). split; [exact H1|].
    intros d. rewrite H2. split.
    + intros [H|(q & Hq & ->)].
      * destruct Hstep as [[E _]|[E _]]; rewrite E in H; [auto|].
        apply elem_of_app in H as [H|H]; [auto|].
        apply list_elem_of_singleton in H. right. exists p.
        split; [left | exact H].
      * right. exists q. split; [right; exact Hq | reflexivity].
    + intros [H|(q & Hq & ->)].
      * left. destruct Hstep as [[E _]|[E _]]; rewrite E;
          [exact H | apply elem_of_app; auto].
      * apply elem_of_cons in Hq as [->|Hq]; [|right; eauto].
        left. destruct Hstep as [[E Hp]|[E _]]; rewrite E; [exact Hp|].
        apply elem_of_app. right. left.
Qed.

(** X11. The configuration directories are the expanded, absolute forms of
    the directories of the platform, each listed once.  The first of them
    comes from the first directory of the platform: on a system that is
    neither macOS nor Windows that is the directory [XDG_DATA_HOME] names,
    when the variable is set. *)
Theorem config_dirs_distinct :
  NoDup (Platform.config_dirs sys environ os_abspath os_expanduser) /\
  (forall d,
     d ∈ Platform.config_dirs sys environ os_abspath os_expanduser <->
     exists p, p ∈ Platform.paths sys environ /\
               d = os_abspath (os_expanduser p)) /\
  (forall x,
     sys = Platform.Other -> environ Platform.UNIX_DIR_VAR = Some x ->
     head (Platform.config_dirs sys environ os_abspath os_expanduser)
     = Some (os_abspath (os_expanduser x))).
Proof.
  unfold Platform.config_dirs.
  destruct (expand_fold_spec (Platform.paths sys environ) [] (NoDup_nil_2))
    as (H1 & H2).
  unfold step, full in H1, H2.
  split; [exact H1|]. split.
  - intros d. rewrite (H2 d). split; [|auto].
    intros [H|H]; [inversion H | exact H].
  - intros x -> Hx. unfold Platform.paths. rewrite Hx. cbn [fold_left].
    unfold Platform.expand_step at 2. rewrite bool_decide_eq_false_2.
    + exact (expand_fold_head [Platform.UNIX_DIR_FALLBACK] _ []).
    + intros H. inversion H.
Qed.

End ConfigDirsFacts.

Lemma config_dirs_distinct_witness :
  head (Platform.config_dirs Platform.Other
          (fun n => if String.eqb n "XDG_DATA_HOME" then Some "~/.config/"
                    else None)
          (abspath {| getcwd := "/"; environ_HOME := Some "/home/u";
                      pw_dir_self := "/home/u"; pw_dir := fun _ => None;
                      readlink := fun _ => None |})
          (expanduser {| getcwd := "/"; environ_HOME := Some "/home/u";
                         pw_dir_self := "/home/u"; pw_dir := fun _ => None;
                         readlink := fun _ => None |}))
  = Some "/home/u/.config".
Proof.
  apply (proj2 (proj2 (config_dirs_distinct Platform.Other
           (fun n => if String.eqb n "XDG_DATA_HOME" then Some "~/.config/"
                     else None)
           (abspath {| getcwd := "/"; environ_HOME := Some "/home/u";
                       pw_dir_self := "/home/u"; pw_dir := fun _ => None;
                       readlink := fun _ => None |})
           (expanduser {| getcwd := "/"; environ_HOME := Some "/home/u";
                          pw_dir_self := "/home/u"; pw_dir := fun _ => None;
                          readlink := fun _ => None |}))) "~/.config/");
    reflexivity.
Defined.

Lemma existing_config_found (fs : files) (pre : list string) (d : string)
    (post : list string) :
  Forall (fun a => isfile fs (path_join a CONFIG_FILENAME) = false) pre ->
  isfile fs (path_join d CONFIG_FILENAME) = true ->
  existing_config fs (pre ++ d :: post)%list = Some d.
Proof.
  intros Hpre Hd. induction Hpre as [|a pre Ha _ IH]; simpl.
  - rewrite Hd. reflexivity.
  - rewrite Ha. exact IH.
Qed.

Lemma existing_config_none (fs : files) (dirs : list string) :
  Forall (fun a => isfile fs (path_join a CONFIG_FILENAME) = false) dirs ->
  existing_config fs dirs = None.
Proof.
  induction 1 as [|a dirs Ha _ IH]; simpl; [reflexivity|].
  rewrite Ha. exact IH.
Qed.

Lemma head_filter_found {A} (P : A -> Prop) `{forall x, Decision (P x)}
    (pre : list A) (x : A) (post : list A) :
  Forall (fun a => ~ P a) pre -> P x ->
  head (filter P (pre ++ x :: post)%list) = Some x.
Proof.
  intros Hpre Hx. induction Hpre as [|a pre Ha _ IH]; simpl.
  - rewrite filter_cons_True by exact Hx. reflexivity.
  - rewrite filter_cons_False by exact Ha. exact IH.
Qed.

(** X12. [config_dir] gives the first search directory that holds a
    configuration file, creates nothing then, and that file is the first one
    [_filenames] lists, so the one [_read] gives the highest priority.  When
    no search directory holds a configuration file it gives the first search
    directory, and asks for it to be created exactly when it is not a
    directory yet. *)
Theorem config_dir_first_config :
  forall (fs : files) (isdir : string -> bool) (appname : string),
    (forall (pre : list string) (d : string) (post : list string),
       _search_dirs fs appname = (pre ++ d :: post)%list ->
       Forall (fun a => isfile fs (path_join a CONFIG_FILENAME) = false) pre ->
       isfile fs (path_join d CONFIG_FILENAME) = true ->
       config_dir fs isdir appname = Ok (d, None) /\
       forall modname,
         head (_filenames fs appname modname)
         = Some (path_join d CONFIG_FILENAME)) /\
    (forall (d : string) (rest : list string),
       _search_dirs fs appname = d :: rest ->
       Forall (fun a => isfile fs (path_join a CONFIG_FILENAME) = false)
              (d :: rest) ->
       config_dir fs isdir appname
       = Ok (d, if isdir d then None else Some d)).
Proof.
  intros fs isdir appname. split.
  - intros pre d post Hs Hpre Hd. split.
    + unfold config_dir. rewrite Hs.
      rewrite (existing_config_found _ _ _ _ Hpre Hd). reflexivity.
    + intros modname. unfold _filenames. rewrite Hs.
      set (f := fun appdir => path_join appdir CONFIG_FILENAME).
      assert (forall extra,
                head (filter (fun p => isfile fs p = true)
                             (map f (pre ++ d :: post) ++ extra)%list)
                = Some (f d)) as Hh.
      { intros extra. rewrite map_app, <- app_assoc. cbn [map].
        rewrite <- app_comm_cons. apply head_filter_found; [|exact Hd].
        apply Forall_forall. intros x Hx.
        apply list_elem_of_fmap in Hx as (a & -> & Ha).
        rewrite Forall_forall in Hpre. unfold f. rewrite (Hpre a Ha).
        discriminate. }
      pose proof (Hh []) as Hh0. rewrite app_nil_r in Hh0.
      destruct modname as [m|]; [|exact Hh0].
      destruct (truthy (Some m)); [|exact Hh0].
      destruct (package_path fs m) as [pkg|]; [|exact Hh0].
      destruct (truthy (Some pkg)); [apply Hh | exact Hh0].
  - intros d rest Hs Hnone. unfold config_dir. rewrite Hs.
    rewrite (existing_config_none _ _ Hnone). reflexivity.
Qed.

Lemma config_dir_first_config_witness :
  config_dir {| config_dirs := ["/etc"; "/home/u/.config"];
                package_path := fun _ => None;
                isfile := fun p => String.eqb p "/home/u/.config/app/config.yaml";
                yaml_load := fun _ => Ok VNone |}
             (fun _ => true) "app"
  = Ok ("/home/u/.config/app", None) /\
  config_dir {| config_dirs := ["/etc"; "/home/u/.config"];
                package_path := fun _ => None;
                isfile := fun _ => false;
                yaml_load := fun _ => Ok VNone |}
             (fun _ => false) "app"
  = Ok ("/etc/app", Some "/etc/app").
Proof.
  split.
  - apply (proj1 (config_dir_first_config
             {| config_dirs := ["/etc"; "/home/u/.config"];
                package_path := fun _ => None;
                isfile := fun p => String.eqb p "/home/u/.config/app/config.yaml";
                yaml_load := fun _ => Ok VNone |}
             (fun _ => true) "app") ["/etc/app"] "/home/u/.config/app" []).
    + reflexivity.
    + repeat constructor.
    + reflexivity.
  - apply (proj2 (config_dir_first_config
             {| config_dirs := ["/etc"; "/home/u/.config"];
                package_path := fun _ => None;
                isfile := fun _ => false;
                yaml_load := fun _ => Ok VNone |}
             (fun _ => false) "app") "/etc/app" ["/home/u/.config/app"]).
    + reflexivity.
    + repeat constructor.
Defined.

(** ** Reading again *)

Lemma read_loop_overlay (fs : files) (names : list string) (st : state) :
  overlay (snd (read_loop fs names st)) = overlay st.
Proof.
  revert st; induction names as [|g names IH]; intros st; simpl;
    [reflexivity|].
  destruct (yaml_load fs g) as [data|[reason|e]]; [rewrite IH| |]; reflexivity.
Qed.

(** X13. [_read] starts from no sources: what the configuration had as
    sources before, from an earlier read or from [add], is dropped, and the
    overlay is kept.  So reading a second time gives the same result and the
    same configuration as reading once: no file is listed twice. *)
Theorem read_again_is_the_same :
  forall (fs : files) (appname : string) (modname : option string)
         (st : state),
    overlay (snd (_read fs appname modname st)) = overlay st /\
    (forall st2 : state,
       overlay st2 = overlay st ->
       _read fs appname modname st2 = _read fs appname modname st) /\
    _read fs appname modname (snd (_read fs appname modname st))
    = _read fs appname modname st.
Proof.
  intros fs appname modname st.
  assert (overlay (snd (_read fs appname modname st)) = overlay st) as Ho.
  { unfold _read. rewrite read_loop_overlay. reflexivity. }
  assert (forall st2, overlay st2 = overlay st ->
                      _read fs appname modname st2
                      = _read fs appname modname st) as Hsame.
  { intros st2 H. unfold _read. rewrite H. reflexivity. }
  split; [exact Ho|]. split; [exact Hsame|]. apply Hsame, Ho.
Qed.

Lemma read_again_is_the_same_witness :
  _read {| config_dirs := ["/etc"]; package_path := fun _ => None;
           isfile := fun _ => true; yaml_load := fun _ => Ok (VInt 1) |}
        "app" None
        {| sources := [VInt 7; VInt 8]; overlay := VDict [] |}
  = (Ok tt, {| sources := [VInt 1]; overlay := VDict [] |}).
Proof.
  rewrite (proj1 (proj2 (read_again_is_the_same
             {| config_dirs := ["/etc"]; package_path := fun _ => None;
                isfile := fun _ => true; yaml_load := fun _ => Ok (VInt 1) |}
             "app" None (RootView_init [])))
             {| sources := [VInt 7; VInt 8]; overlay := VDict [] |} eq_refl).
  reflexivity.
Defined.

(** ** Normalised filenames *)

Lemma append_cons (a : ascii) (s t : string) :
  String a s ++ t = String a (s ++ t).
Proof. reflexivity. Qed.

Lemma split_on_no_slash (s : string) :
  Forall (fun c => string_mem "/" c = false) (split_on "/" s).
Proof.
  induction s as [|a s IH]; cbn [split_on]; [repeat constructor|].
  destruct (Ascii.eqb a "/") eqn:Ha; [constructor; [reflexivity | exact IH]|].
  destruct (split_on "/" s) as [|h t]; [repeat constructor|].
  - cbn [str1 string_mem]. rewrite Ascii.eqb_sym, Ha. reflexivity.
  - inversion IH as [|? ? Hh Ht]; subst. constructor; [|exact Ht].
    cbn [string_mem]. rewrite Ascii.eqb_sym, Ha. exact Hh.
Qed.

Lemma split_on_single (c : string) :
  string_mem "/" c = false -> split_on "/" c = [c].
Proof.
  induction c as [|a c IH]; cbn [split_on string_mem]; [reflexivity|].
  intros H. apply orb_false_elim in H as [Ha Hc].
  rewrite Ascii.eqb_sym, Ha, (IH Hc). reflexivity.
Qed.

Lemma split_on_app (c s : string) :
  string_mem "/" c = false ->
  split_on "/" (c ++ String "/" s) = c :: split_on "/" s.
Proof.
  induction c as [|a c IH]; intros H.
  - reflexivity.
  - cbn [string_mem] in H. apply orb_false_elim in H as [Ha Hc].
    rewrite append_cons. cbn [split_on].
    rewrite Ascii.eqb_sym, Ha, (IH Hc). reflexivity.
Qed.

Lemma plain_inv (c : string) :
  plain c = true ->
  String.eqb c "" = false /\ String.eqb c "." = false /\
  String.eqb c ".." = false /\ string_mem "/" c = false.
Proof.
  unfold plain. intros H.
  repeat (apply andb_prop in H as [H ?]).
  repeat split; apply negb_true_iff; assumption.
Qed.

Lemma join_cons2 (sep c c2 : string) (cs : list string) :
  join sep (c :: c2 :: cs) = c ++ sep ++ join sep (c2 :: cs).
Proof. reflexivity. Qed.

Lemma split_on_join (cs : list string) :
  Forall (fun c => plain c = true) cs -> cs <> [] ->
  split_on "/" (join "/" cs) = cs.
Proof.
  induction 1 as [|c cs Hc Hcs IH]; intros Hne; [congruence|].
  apply plain_inv in Hc as (_ & _ & _ & Hc).
  destruct cs as [|c2 cs].
  - apply (split_on_single _ Hc).
  - rewrite join_cons2. change ("/" ++ join "/" (c2 :: cs))
      with (String "/" (join "/" (c2 :: cs))).
    rewrite (split_on_app _ _ Hc), IH by discriminate. reflexivity.
Qed.

Lemma join_head (cs : list string) :
  Forall (fun c => plain c = true) cs ->
  join "/" cs = "" \/
  exists a t, join "/" cs = String a t /\ Ascii.eqb a "/" = false.
Proof.
  intros H. destruct H as [|c cs Hc _]; [left; reflexivity|]. right.
  apply plain_inv in Hc as (He & _ & _ & Hs).
  destruct c as [|a c]; [discriminate|].
  cbn [string_mem] in Hs. apply orb_false_elim in Hs as [Ha _].
  rewrite Ascii.eqb_sym in Ha.
  destruct cs as [|c2 cs]; [exists a, c; auto|].
  rewrite join_cons2, append_cons. eauto.
Qed.

Lemma Forall_removelast {A} (P : A -> Prop) (l : list A) :
  Forall P l -> Forall P (removelast l).
Proof.
  induction 1 as [|x l Hx Hl IH]; [constructor|].
  simpl. destruct l; [constructor | constructor; assumption].
Qed.

Lemma normpath_step_plain (n : nat) (acc : list string) (comp : string) :
  n <> 0%nat ->
  Forall (fun c => plain c = true) acc ->
  string_mem "/" comp = false ->
  Forall (fun c => plain c = true) (normpath_step n acc comp).
Proof.
  intros Hn Hacc Hs. unfold normpath_step.
  destruct (String.eqb comp "") eqn:E1; [exact Hacc|].
  destruct (String.eqb comp ".") eqn:E2; [exact Hacc|]. cbn [orb].
  destruct (String.eqb comp "..") eqn:E3; cbn [negb orb].
  - assert ((n =? 0)%nat = false) as -> by (apply Nat.eqb_neq; exact Hn).
    cbn [andb orb]. case_bool_decide as Hl; [|apply Forall_removelast, Hacc].
    exfalso. apply last_Some in Hl as [l' ->].
    apply Forall_app in Hacc as [_ Hacc].
    inversion Hacc as [|? ? Hp _]; subst. discriminate.
  - apply Forall_app. split; [exact Hacc|]. repeat constructor.
    unfold plain. rewrite E1, E2, E3, Hs. reflexivity.
Qed.

Lemma normpath_fold_plain (n : nat) (cs acc : list string) :
  n <> 0%nat ->
  Forall (fun c => plain c = true) acc ->
  Forall (fun c => string_mem "/" c = false) cs ->
  Forall (fun c => plain c = true) (fold_left (normpath_step n) cs acc).
Proof.
  intros Hn Hacc Hcs. revert acc Hacc.
  induction Hcs as [|c cs Hc _ IH]; intros acc Hacc; [exact Hacc|].
  cbn [fold_left]. apply IH, normpath_step_plain; assumption.
Qed.

Lemma normpath_fold_of_plain (n : nat) (cs acc : list string) :
  Forall (fun c => plain c = true) cs ->
  fold_left (normpath_step n) cs acc = (acc ++ cs)%list.
Proof.
  intros Hcs. revert acc.
  induction Hcs as [|c cs Hc _ IH]; intros acc; [rewrite app_nil_r; reflexivity|].
  cbn [fold_left]. rewrite IH. unfold normpath_step.
  apply plain_inv in Hc as (-> & -> & -> & _). cbn [orb negb].
  rewrite <- app_assoc. reflexivity.
Qed.

Lemma prefix_cons (a b : ascii) (s t : string) :
  String.prefix (String a s) (String b t)
  = if ascii_dec a b then String.prefix s t else false.
Proof. reflexivity. Qed.

Lemma split_on_slash (s : string) :
  split_on "/" (String "/" s) = "" :: split_on "/" s.
Proof. reflexivity. Qed.

Lemma or_else_cons (a : ascii) (s d : string) : or_else (String a s) d = String a s.
Proof. reflexivity. Qed.

(** The components the loop of [normpath] is left with, for a path that is
    already slashes followed by plain components. *)
Lemma normpath_comps (n k : nat) (cs : list string) :
  Forall (fun c => plain c = true) cs ->
  fold_left (normpath_step n)
            (split_on "/" (repeat_slash k ++ join "/" cs)) [] = cs.
Proof.
  intros Hcs. induction k as [|k IH].
  - change (repeat_slash 0 ++ join "/" cs) with (join "/" cs).
    destruct cs as [|c cs]; [reflexivity|].
    rewrite (split_on_join _ Hcs) by discriminate.
    apply (normpath_fold_of_plain n _ [] Hcs).
  - change (repeat_slash (S k) ++ join "/" cs)
      with (String "/" (repeat_slash k ++ join "/" cs)).
    rewrite split_on_slash. exact IH.
Qed.

Lemma no_double_slash (cs : list string) :
  Forall (fun c => plain c = true) cs ->
  String.prefix "/" (join "/" cs) = false.
Proof.
  intros H. destruct (join_head cs H) as [->|(a & t & -> & Ha)]; [reflexivity|].
  rewrite prefix_cons. destruct (ascii_dec "/" a) as [<-|]; [discriminate|].
  reflexivity.
Qed.

Lemma normpath_fixed (n : nat) (cs : list string) :
  n = 1%nat \/ n = 2%nat ->
  Forall (fun c => plain c = true) cs ->
  normpath (repeat_slash n ++ join "/" cs) = repeat_slash n ++ join "/" cs.
Proof.
  intros Hn Hcs. pose proof (no_double_slash cs Hcs) as Hj.
  pose proof (normpath_comps n n cs Hcs) as Hc.
  unfold normpath.
  destruct Hn as [-> | ->].
  - change (repeat_slash 1 ++ join "/" cs) with (String "/" (join "/" cs)) in *.
    change (String.eqb (String "/" (join "/" cs)) "") with false.
    change (isabs (String "/" (join "/" cs))) with true. cbv iota.
    assert (String.prefix "//" (String "/" (join "/" cs)) = false) as ->.
    { rewrite prefix_cons. destruct (ascii_dec "/" "/"); [exact Hj | reflexivity]. }
    cbn [andb]. rewrite Hc. reflexivity.
  - change (repeat_slash 2 ++ join "/" cs)
      with (String "/" (String "/" (join "/" cs))) in *.
    change (String.eqb (String "/" (String "/" (join "/" cs))) "") with false.
    change (isabs (String "/" (String "/" (join "/" cs)))) with true. cbv iota.
    assert (String.prefix "//" (String "/" (String "/" (join "/" cs))) = true)
      as ->.
    { rewrite !prefix_cons. destruct (ascii_dec "/" "/"); [|congruence].
      destruct (join "/" cs); reflexivity. }
    assert (String.prefix "///" (String "/" (String "/" (join "/" cs))) = false)
      as ->.
    { rewrite !prefix_cons. destruct (ascii_dec "/" "/"); [exact Hj | reflexivity]. }
    cbn [andb negb]. rewrite Hc. reflexivity.
Qed.

Lemma normpath_abs_shape (q : string) :
  isabs q = true ->
  exists n cs,
    (n = 1%nat \/ n = 2%nat) /\ Forall (fun c => plain c = true) cs /\
    normpath q = repeat_slash n ++ join "/" cs.
Proof.
  intros H. destruct (isabs_inv q H) as [q' ->]. unfold normpath.
  change (String.eqb (String "/" q') "") with false. cbv iota. rewrite H.
  destruct (String.prefix "//" (String "/" q') &&
            negb (String.prefix "///" (String "/" q'))).
  - exists 2%nat. eexists. split; [auto|]. split; [|reflexivity].
    apply normpath_fold_plain; [discriminate | constructor |].
    apply split_on_no_slash.
  - exists 1%nat. eexists. split; [auto|]. split; [|reflexivity].
    apply normpath_fold_plain; [discriminate | constructor |].
    apply split_on_no_slash.
Qed.

Lemma expanduser_abs (e : os) (p : string) :
  isabs p = true -> expanduser e p = p.
Proof. intros H. destruct (isabs_inv p H) as [p' ->]. reflexivity. Qed.

(** X14. The filename [as_filename] gives is normalised: one or two
    slashes, then components that are not empty, not [.] nor [..], with one
    slash between them.  Converting it again gives it back. *)
Theorem as_filename_idempotent :
  forall (e : os) (v w : view) (s r : string),
    isabs (getcwd e) = true ->
    as_filename e v (VStr s) = Ok (VStr r) ->
    (exists n cs,
       (n = 1%nat \/ n = 2%nat) /\ Forall (fun c => plain c = true) cs /\
       r = repeat_slash n ++ join "/" cs) /\
    as_filename e w (VStr r) = Ok (VStr r).
Proof.
  intros e v w s r Hcwd H. unfold as_filename, str_of_value in H.
  injection H as <-.
  assert (exists q, isabs q = true /\
                    abspath e (expanduser e s) = normpath q) as (q & Hq & ->).
  { unfold abspath. eexists. split; [|reflexivity].
    destruct (isabs (expanduser e s)) eqn:Hp;
      [exact Hp | apply path_join_isabs, Hcwd]. }
  destruct (normpath_abs_shape q Hq) as (n & cs & Hn & Hcs & Hr).
  split; [exists n, cs; auto|].
  unfold as_filename, str_of_value.
  rewrite (expanduser_abs e _ (normpath_isabs _ Hq)).
  unfold abspath. rewrite (normpath_isabs _ Hq).
  rewrite Hr, (normpath_fixed n cs Hn Hcs). reflexivity.
Qed.

Lemma as_filename_idempotent_witness :
  as_filename {| getcwd := "/work"; environ_HOME := Some "/home/u/";
                 pw_dir_self := "/home/u"; pw_dir := fun _ => None;
                 readlink := fun _ => None |} Root (VStr "/home/u/b")
  = Ok (VStr "/home/u/b").
Proof.
  apply (as_filename_idempotent
           {| getcwd := "/work"; environ_HOME := Some "/home/u/";
              pw_dir_self := "/home/u"; pw_dir := fun _ => None;
              readlink := fun _ => None |}
           Root Root "~/a/.././b//" "/home/u/b"); reflexivity.
Defined.

(** ** Absolute directories *)

(** X16. With the [os.path] of POSIX and an absolute working directory,
    every configuration directory is an absolute path, and so is every
    directory [_search_dirs] gives for an application from them. *)
Theorem config_dirs_absolute :
  forall (sys : Platform.system) (environ : string -> option string) (e : os),
    isabs (getcwd e) = true ->
    Forall (fun d => isabs d = true)
           (Platform.config_dirs sys environ (abspath e) (expanduser e)) /\
    forall (fs : files) (appname : string),
      config_dirs fs
      = Platform.config_dirs sys environ (abspath e) (expanduser e) ->
      Forall (fun d => isabs d = true) (_search_dirs fs appname).
Proof.
  intros sys environ e Hcwd.
  assert (Forall (fun d => isabs d = true)
                 (Platform.config_dirs sys environ (abspath e) (expanduser e)))
    as H.
  { apply Forall_forall. intros d Hd. unfold Platform.config_dirs in Hd.
    apply (expand_fold_spec (abspath e) (expanduser e) _ [] (NoDup_nil_2)) in Hd
      as [Hd|(p & _ & ->)]; [inversion Hd|].
    apply abspath_isabs, Hcwd. }
  split; [exact H|].
  intros fs appname Hfs. unfold _search_dirs. rewrite Hfs.
  apply Forall_fmap. eapply Forall_impl; [exact H|].
  intros d Hd. apply path_join_isabs, Hd.
Qed.

Lemma config_dirs_absolute_witness :
  Forall (fun d => isabs d = true)
         (Platform.config_dirs Platform.Darwin (fun _ => None)
            (abspath {| getcwd := "/"; environ_HOME := Some "/Users/u";
                        pw_dir_self := "/Users/u"; pw_dir := fun _ => None;
                        readlink := fun _ => None |})
            (expanduser {| getcwd := "/"; environ_HOME := Some "/Users/u";
                           pw_dir_self := "/Users/u"; pw_dir := fun _ => None;
                           readlink := fun _ => None |})).
Proof.
  apply (config_dirs_absolute Platform.Darwin (fun _ => None)
           {| getcwd := "/"; environ_HOME := Some "/Users/u";
              pw_dir_self := "/Users/u"; pw_dir := fun _ => None;
              readlink := fun _ => None |}).
  reflexivity.
Defined.

(** ** Objects away from a write *)



(** ** Generators, one inside the other *)

(** X17. Consuming what [get_all] hands out for a view gives, in the state it
    is consumed in and without changing it, what the bodies of
    [Subview.get_all] give one over the other: the candidates of the root are
    the overlay and the sources; the candidates of a subview are those of its
    parent subscripted, the ones that lack the key passed over, up to the
    first that cannot be subscripted; and the first [next] yields the first of
    them. *)
Theorem generators_level_by_level :
  forall (st : Heap.state) (v : view),
    Heap.bind (Heap.get_all v) Heap.consume st
    = (Ok (Heap.candidates (Heap.objects st)
             (Heap.overlay st :: Heap.sources st) v), st) /\
    (forall (p : view) (k : key),
       v = Sub p k ->
       Heap.candidates (Heap.objects st) (Heap.overlay st :: Heap.sources st) v
       = Heap.Subview_get_all (Heap.objects st) (name p) k
           (fst (Heap.candidates (Heap.objects st)
                   (Heap.overlay st :: Heap.sources st) p))
           (snd (Heap.candidates (Heap.objects st)
                   (Heap.overlay st :: Heap.sources st) p))) /\
    fst (Heap.bind (Heap.get_all v) Heap.next_ st)
    = Ok (match Heap.candidates (Heap.objects st)
                  (Heap.overlay st :: Heap.sources st) v with
          | (x :: _, _) => Heap.Yielded x
          | ([], None) => Heap.StopIteration
          | ([], Some e) => Heap.Raised e
          end,
          snd (Heap.pull_at (Heap.objects st) (Heap.subscripts v)
                            (Heap.overlay st :: Heap.sources st))).
Proof.
  intros st v. split; [|split].
  - unfold Heap.bind. rewrite get_all_run.
    rewrite <- exhaust_at_candidates. destruct v; rewrite consume_run; reflexivity.
  - intros p k ->. reflexivity.
  - rewrite first_run. cbn [fst]. rewrite <- exhaust_at_candidates.
    rewrite <- pull_at_exhaust_at.
    destruct (Heap.pull_at _ _ _); reflexivity.
Qed.
